(** * Rigid transforms of DynamicBind/utils/affine.py

    A shallow embedding of the affine-transformation class [T] and of the
    tensor operations it is written with, followed by the properties of the
    transform algebra.

    Numbers are modelled by the real numbers: every statement below is about
    exact arithmetic, the idealisation of the floating-point tensors of the
    program.  A tensor is its shape together with its elements in row-major
    order; the dtype, the device and the gradient flag of a tensor play no
    part in the values computed and are left out. *)

From Stdlib Require Import String DecimalString.
From Stdlib Require Import Reals Lra Lia List Arith ZArith Bool Psatz RNsatz.
Import ListNotations.

(** ** Errors and fallible computations *)

(** The exceptions a call can end with: [ValueError] is raised by affine.py
    itself, the other three by the tensor library or by Python. *)
Inductive Error : Type :=
| ValueError (msg : string)
| IndexError
| RuntimeError
| TypeError.

Inductive Res (A : Type) : Type :=
| Ok (a : A)
| Raise (e : Error).

Arguments Ok {A} a.
Arguments Raise {A} e.

Definition bind {A B : Type} (c : Res A) (k : A -> Res B) : Res B :=
  match c with
  | Ok a => k a
  | Raise e => Raise e
  end.

Declare Scope res_scope.
Delimit Scope res_scope with res.
Notation "x <- c ;; k" := (bind c (fun x => k))
  (at level 61, c at next level, right associativity) : res_scope.
Open Scope res_scope.

Definition returns {A : Type} (c : Res A) : Prop :=
  exists a, c = Ok a.

(** ** Lists *)

Fixpoint zipWith {A B C : Type} (f : A -> B -> C) (l1 : list A) (l2 : list B)
  : list C :=
  match l1, l2 with
  | x :: l1', y :: l2' => f x y :: zipWith f l1' l2'
  | _, _ => []
  end.

Section ListOps.
Variable A : Type.

(** [l[:-k]] and [l[-k:]] of Python. *)
Definition lead (k : nat) (l : list A) : list A :=
  firstn (length l - k) l.

Definition lastn (k : nat) (l : list A) : list A :=
  skipn (length l - k) l.

(** The [k]-th block of [c] consecutive elements of [l]. *)
Definition block (d : A) (c : nat) (l : list A) (k : nat) : list A :=
  map (fun p => nth (k * c + p) l d) (seq 0 c).

(** [l] cut into blocks of [c] elements. *)
Definition chunks (d : A) (c : nat) (l : list A) : list (list A) :=
  map (block d c l) (seq 0 (length l / c)).

Fixpoint zip3 (l1 l2 l3 : list A) : list (list A) :=
  match l1, l2, l3 with
  | x :: l1', y :: l2', z :: l3' => [x; y; z] :: zip3 l1' l2' l3'
  | _, _, _ => []
  end.

(** [upd p x l] is [l] with position [p] replaced by [x]. *)
Fixpoint upd (p : nat) (x : A) (l : list A) : list A :=
  match l, p with
  | [], _ => []
  | _ :: l', O => x :: l'
  | y :: l', S p' => y :: upd p' x l'
  end.
End ListOps.

Arguments lead {A} k l.
Arguments lastn {A} k l.
Arguments block {A} d c l k.
Arguments chunks {A} d c l.
Arguments zip3 {A} l1 l2 l3.
Arguments upd {A} p x l.

Fixpoint list_eqb (l1 l2 : list nat) : bool :=
  match l1, l2 with
  | [], [] => true
  | x :: l1', y :: l2' => (x =? y) && list_eqb l1' l2'
  | _, _ => false
  end.

(** ** Tensors *)

Open Scope R_scope.

Record Tensor : Type := mkTensor {
  shape : list nat;
  data : list R
}.

Definition numel (s : list nat) : nat := fold_right Nat.mul 1%nat s.

Definition ndim (t : Tensor) : nat := length (shape t).

(** [t.size()] is another name of [t.shape]. *)
Abbreviation size := shape (only parsing).

(** A tensor holds as many elements as its shape says. *)
Definition wf (t : Tensor) : Prop :=
  length (data t) = numel (shape t).

(** ** Real functions *)

(** The angle of the point [(x, y)], in [(-PI, PI]]. *)
Definition atan2 (y x : R) : R :=
  if Rlt_dec 0 x then atan (y / x)
  else if Rlt_dec x 0 then
    if Rle_dec 0 y then atan (y / x) + PI else atan (y / x) - PI
  else if Rlt_dec 0 y then PI / 2
  else if Rlt_dec y 0 then - (PI / 2)
  else 0.

(** ** The tensor operations used by affine.py *)

Module torch.

(** [t[..., i]] *)
Definition select (i : nat) (t : Tensor) : Res Tensor :=
  match rev (shape t) with
  | n :: rb =>
      if (i <? n)%nat
      then Ok (mkTensor (rev rb)
                 (map (fun c => nth i c 0) (chunks 0 n (data t))))
      else Raise IndexError
  | [] => Raise IndexError
  end.

(** [t[..., i, j]] *)
Definition select2 (i j : nat) (t : Tensor) : Res Tensor :=
  match rev (shape t) with
  | n :: m :: rb =>
      if (i <? m)%nat && (j <? n)%nat
      then Ok (mkTensor (rev rb)
                 (map (fun c => nth (i * n + j) c 0)
                      (chunks 0 (m * n) (data t))))
      else Raise IndexError
  | _ => Raise IndexError
  end.

(** Broadcasting.  Shapes are aligned at their last dimension; two sizes
    are compatible when they are equal or one of them is 1. *)
Fixpoint broadcast_rev (r1 r2 : list nat) : option (list nat) :=
  match r1, r2 with
  | [], r => Some r
  | r, [] => Some r
  | a :: r1', b :: r2' =>
      match broadcast_rev r1' r2' with
      | None => None
      | Some r =>
          if (a =? b)%nat then Some (a :: r)
          else if (a =? 1)%nat then Some (b :: r)
          else if (b =? 1)%nat then Some (a :: r)
          else None
      end
  end.

Definition broadcast_shapes (s1 s2 : list nat) : option (list nat) :=
  option_map (@rev nat) (broadcast_rev (rev s1) (rev s2)).

(** [s] with sizes 1 in front, as long as [o]. *)
Definition pad (o s : list nat) : list nat :=
  repeat 1%nat (length o - length s) ++ s.

(** The elements of a tensor of shape [s] repeated along the dimensions
    of size 1 that [o] makes larger ([s] and [o] have the same length). *)
Fixpoint expand (s o : list nat) (d : list R) : list R :=
  match s, o with
  | n :: s', m :: o' =>
      if (n =? m)%nat
      then flat_map (expand s' o') (chunks 0 (numel s') d)
      else concat (repeat (expand s' o' d) m)
  | _, _ => d
  end.

Definition expand_to (o : list nat) (t : Tensor) : list R :=
  expand (pad o (shape t)) o (data t).

(** An elementwise binary operation of two tensors. *)
Definition map2 (f : R -> R -> R) (a b : Tensor) : Res Tensor :=
  match broadcast_shapes (shape a) (shape b) with
  | Some o => Ok (mkTensor o (zipWith f (expand_to o a) (expand_to o b)))
  | None => Raise RuntimeError
  end.

(** An elementwise operation of a tensor alone, or of a tensor and a
    Python number. *)
Definition map1 (f : R -> R) (a : Tensor) : Tensor :=
  mkTensor (shape a) (map f (data a)).

(** [torch.all(a == b)] *)
Definition all_eq (a b : Tensor) : Res bool :=
  match broadcast_shapes (shape a) (shape b) with
  | Some o =>
      Ok (forallb (fun x => x)
            (zipWith (fun x y => if Req_dec_T x y then true else false)
                     (expand_to o a) (expand_to o b)))
  | None => Raise RuntimeError
  end.

(** [l1; l2; ...] turned into [[x1; x2; ...]; [y1; y2; ...]; ...], the
    [n] first elements of every list. *)
Definition transpose {A : Type} (n : nat) (ls : list (list A))
  : list (list A) :=
  fold_right (zipWith cons) (repeat [] n) ls.

(** [torch.stack(ts, dim=-1-k)]: the new dimension has [k] dimensions
    after it. *)
Definition stack (k : nat) (ts : list Tensor) : Res Tensor :=
  match ts with
  | [] => Raise RuntimeError
  | t0 :: _ =>
      if forallb (fun t => list_eqb (shape t) (shape t0)) ts then
        if (k <=? ndim t0)%nat then
          let c := numel (lastn k (shape t0)) in
          Ok (mkTensor
                (lead k (shape t0) ++ length ts :: lastn k (shape t0))
                (flat_map (@concat R)
                   (transpose (numel (lead k (shape t0)))
                      (map (fun t => chunks 0 c (data t)) ts))))
        else Raise IndexError
      else Raise RuntimeError
  end.

(** [torch.unbind(t, dim=-1)] *)
Definition unbind (t : Tensor) : Res (list Tensor) :=
  match rev (shape t) with
  | n :: rb =>
      Ok (map (fun i =>
                 mkTensor (rev rb)
                   (map (fun c => nth i c 0) (chunks 0 n (data t))))
              (seq 0 n))
  | [] => Raise IndexError
  end.

(** [t.transpose(-1, -2)] *)
Definition transpose_last2 (t : Tensor) : Res Tensor :=
  match rev (shape t) with
  | n :: m :: rb =>
      Ok (mkTensor (rev (m :: n :: rb))
            (flat_map
               (fun c => map (fun p => nth ((p mod m) * n + p / m) c 0)
                             (seq 0 (n * m)))
               (chunks 0 (m * n) (data t))))
  | _ => Raise IndexError
  end.

(** [t.reshape(s)] *)
Definition reshape (s : list nat) (t : Tensor) : Res Tensor :=
  if (numel s =? numel (shape t))%nat
  then Ok (mkTensor s (data t))
  else Raise RuntimeError.

(** [t.unsqueeze(dim)] *)
Definition unsqueeze (dim : Z) (t : Tensor) : Res Tensor :=
  let n := Z.of_nat (ndim t) in
  if ((- (n + 1) <=? dim) && (dim <=? n))%Z
  then
    let p := Z.to_nat (if (0 <=? dim)%Z then dim else (dim + n + 1)%Z) in
    Ok (mkTensor (firstn p (shape t) ++ 1%nat :: skipn p (shape t))
                 (data t))
  else Raise IndexError.

(** [torch.zeros(s)] *)
Definition zeros (s : list nat) : Tensor :=
  mkTensor s (repeat 0 (numel s)).

(** [torch.eye(3)] *)
Definition eye3 : Tensor :=
  mkTensor [3%nat; 3%nat] [1; 0; 0; 0; 1; 0; 0; 0; 1].

(** [t.view(s)] *)
Definition view (s : list nat) (t : Tensor) : Res Tensor :=
  reshape s t.

(** [t.expand] to the sizes [s] followed by [-1, -1]: the last two
    dimensions are kept. *)
Definition expand_keep2 (s : list nat) (t : Tensor) : Res Tensor :=
  let o := s ++ lastn 2 (shape t) in
  if (ndim t <=? length o)%nat then
    match broadcast_shapes (shape t) o with
    | Some o' =>
        if list_eqb o' o then Ok (mkTensor o (expand_to o t))
        else Raise RuntimeError
    | None => Raise RuntimeError
    end
  else Raise RuntimeError.

(** [t[..., i, j] = v], the value [v] being broadcast to the leading
    dimensions of [t]. *)
Definition set2 (i j : nat) (v : Tensor) (t : Tensor) : Res Tensor :=
  match rev (shape t) with
  | n :: m :: rb =>
      if (i <? m)%nat && (j <? n)%nat then
        match broadcast_shapes (shape v) (rev rb) with
        | Some o =>
            if list_eqb o (rev rb) then
              Ok (mkTensor (shape t)
                    (concat
                       (zipWith (fun x c => upd (i * n + j) x c)
                                (expand_to o v)
                                (chunks 0 (m * n) (data t)))))
            else Raise RuntimeError
        | None => Raise RuntimeError
        end
      else Raise IndexError
  | _ => Raise IndexError
  end.

(** Indexing with a tuple of integers and slices of step 1 (the other
    forms of index, [None], [...] and tensors, are not modelled). *)
Inductive Index : Type :=
| Int (i : Z)
| Slice (start stop : option Z).

(** The bounds a slice selects in a dimension of size [n]. *)
Definition clamp (n : nat) (i : Z) : nat :=
  let j := (if i <? 0 then i + Z.of_nat n else i)%Z in
  Z.to_nat (Z.min (Z.max j 0) (Z.of_nat n)).

Definition slice_lo (n : nat) (start : option Z) : nat :=
  match start with None => 0%nat | Some i => clamp n i end.

Definition slice_hi (n : nat) (stop : option Z) : nat :=
  match stop with None => n | Some i => clamp n i end.

Definition in_range (n : nat) (i : Z) : bool :=
  ((- Z.of_nat n <=? i) && (i <? Z.of_nat n))%Z.

Definition position (n : nat) (i : Z) : nat :=
  Z.to_nat (if (i <? 0)%Z then (i + Z.of_nat n)%Z else i).

Fixpoint index_shape (idx : list Index) (s : list nat)
  : Res (list nat) :=
  match idx, s with
  | [], _ => Ok s
  | _ :: _, [] => Raise IndexError
  | Int i :: idx', n :: s' =>
      if in_range n i then index_shape idx' s' else Raise IndexError
  | Slice a b :: idx', n :: s' =>
      r <- index_shape idx' s' ;;
      Ok ((slice_hi n b - slice_lo n a)%nat :: r)
  end.

Fixpoint index_data (idx : list Index) (s : list nat) (d : list R)
  : list R :=
  match idx, s with
  | Int i :: idx', n :: s' =>
      index_data idx' s' (block 0 (numel s') d (position n i))
  | Slice a b :: idx', n :: s' =>
      flat_map (fun k => index_data idx' s' (block 0 (numel s') d k))
               (seq (slice_lo n a) (slice_hi n b - slice_lo n a))
  | _, _ => d
  end.

(** [t[..., i, j] = c] for a Python number [c]. *)
Definition fill2 (i j : nat) (c : R) (t : Tensor) : Res Tensor :=
  match rev (shape t) with
  | n :: m :: rb =>
      if (i <? m)%nat && (j <? n)%nat then
        Ok (mkTensor (shape t)
              (flat_map (upd (i * n + j) c)
                        (chunks 0 (m * n) (data t))))
      else Raise IndexError
  | _ => Raise IndexError
  end.

(** [t[idx]] *)
Definition getitem (idx : list Index) (t : Tensor) : Res Tensor :=
  s <- index_shape idx (shape t) ;;
  Ok (mkTensor s (index_data idx (shape t) (data t))).

(** Boolean tensors, the masks of affine.py. *)
Record BoolTensor : Type := mkBool {
  bshape : list nat;
  bdata : list bool
}.

(** [t.abs() < c] for a Python number [c] *)
Definition abs_lt (t : Tensor) (c : R) : BoolTensor :=
  mkBool (shape t)
    (map (fun x => if Rlt_dec (Rabs x) c then true else false) (data t)).

(** [~m] *)
Definition bnot (m : BoolTensor) : BoolTensor :=
  mkBool (bshape m) (map negb (bdata m)).

(** [torch.empty_like(t)]: a tensor of the shape of [t] whose elements are
    whatever the memory holds, here [junk]. *)
Definition empty_like (junk : nat -> R) (t : Tensor) : Tensor :=
  mkTensor (shape t) (map junk (seq 0 (length (data t)))).

(** The elements of [d] at the positions where [m] holds. *)
Fixpoint gather (m : list bool) (d : list R) : list R :=
  match m, d with
  | b :: m', x :: d' => if b then x :: gather m' d' else gather m' d'
  | _, _ => []
  end.

(** [d] with the positions where [m] holds replaced, in order, by the
    elements of [v]. *)
Fixpoint scatter (m : list bool) (v d : list R) : list R :=
  match m, d with
  | b :: m', x :: d' =>
      if b then
        match v with
        | y :: v' => y :: scatter m' v' d'
        | [] => x :: scatter m' [] d'
        end
      else x :: scatter m' v d'
  | _, _ => d
  end.

(** [t[m]] for a mask [m] of the shape of [t]: a tensor of one
    dimension. *)
Definition masked_select (m : BoolTensor) (t : Tensor) : Res Tensor :=
  if list_eqb (bshape m) (shape t)
  then Ok (mkTensor [length (gather (bdata m) (data t))]
                    (gather (bdata m) (data t)))
  else Raise IndexError.

(** [t[m] = v] for a mask [m] of the shape of [t] and a tensor [v] of one
    dimension that has one element for every position selected. *)
Definition masked_assign (m : BoolTensor) (v t : Tensor) : Res Tensor :=
  if list_eqb (bshape m) (shape t) then
    if list_eqb (shape v) [length (filter (fun b => b) (bdata m))]
    then Ok (mkTensor (shape t) (scatter (bdata m) (data v) (data t)))
    else Raise RuntimeError
  else Raise IndexError.

(** [t[..., lo:]] and [t[..., lo:hi]] for [lo] and [hi] that are not
    negative. *)
Definition slice_last (lo : nat) (hi : option nat) (t : Tensor)
  : Res Tensor :=
  match rev (shape t) with
  | n :: rb =>
      let l := Nat.min lo n in
      let h := match hi with None => n | Some h => Nat.min h n end in
      Ok (mkTensor (rev rb ++ [(h - l)%nat])
            (flat_map (fun c => firstn (h - l) (skipn l c))
                      (chunks 0 n (data t))))
  | [] => Raise IndexError
  end.

(** [torch.norm(t, p=2, dim=-1, keepdim=True)], for a last dimension that
    is not empty; a tensor without dimension is taken as its one
    element and the result has no dimension either. *)
Definition norm_last (t : Tensor) : Res Tensor :=
  match rev (shape t) with
  | n :: rb =>
      Ok (mkTensor (rev rb ++ [1%nat])
            (map (fun c => sqrt (fold_left (fun acc x => acc + x * x) c 0))
                 (chunks 0 n (data t))))
  | [] =>
      Ok (mkTensor []
            [sqrt (fold_left (fun acc x => acc + x * x) (data t) 0)])
  end.

(** [torch.cat([a, b], dim=-1)], for last dimensions that are not
    empty. *)
Definition cat_last (a b : Tensor) : Res Tensor :=
  match rev (shape a), rev (shape b) with
  | n1 :: r1, n2 :: r2 =>
      if list_eqb r1 r2 then
        Ok (mkTensor (rev r1 ++ [(n1 + n2)%nat])
              (concat (zipWith (@app R) (chunks 0 n1 (data a))
                                        (chunks 0 n2 (data b)))))
      else Raise RuntimeError
  | _, _ => Raise RuntimeError
  end.
(** [t[..., None]] with [None] written [k] times: [k] more dimensions of
    size 1 after the last. *)
Definition new_axes (k : nat) (t : Tensor) : Tensor :=
  mkTensor (shape t ++ repeat 1%nat k) (data t).

(** [t[..., :r, :c]] *)
Definition get_block (r c : nat) (t : Tensor) : Res Tensor :=
  match rev (shape t) with
  | n :: m :: rb =>
      let r' := Nat.min r m in
      let c' := Nat.min c n in
      Ok (mkTensor (rev rb ++ [r'; c'])
            (flat_map
               (fun k =>
                  flat_map
                    (fun i =>
                       map (fun j =>
                              nth (i * n + j) (block 0 (m * n) (data t) k) 0)
                           (seq 0 c'))
                    (seq 0 r'))
               (seq 0 (numel (rev rb)))))
  | _ => Raise IndexError
  end.

(** [t[..., :r, j]] *)
Definition get_col (r j : nat) (t : Tensor) : Res Tensor :=
  match rev (shape t) with
  | n :: m :: rb =>
      if (j <? n)%nat then
        let r' := Nat.min r m in
        Ok (mkTensor (rev rb ++ [r'])
              (flat_map
                 (fun k =>
                    map (fun i =>
                           nth (i * n + j) (block 0 (m * n) (data t) k) 0)
                        (seq 0 r'))
                 (seq 0 (numel (rev rb)))))
      else Raise IndexError
  | _ => Raise IndexError
  end.

(** [t[..., :r, :c] = v], the value [v] being broadcast to the shape of
    the part assigned. *)
Definition set_block (r c : nat) (v t : Tensor) : Res Tensor :=
  match rev (shape t) with
  | n :: m :: rb =>
      let r' := Nat.min r m in
      let c' := Nat.min c n in
      let o := rev rb ++ [r'; c'] in
      match broadcast_shapes (shape v) o with
      | Some o' =>
          if list_eqb o' o then
            let w := expand_to o v in
            Ok (mkTensor (shape t)
                  (flat_map
                     (fun k =>
                        flat_map
                          (fun i =>
                             map (fun j =>
                                    if (i <? r')%nat && (j <? c')%nat
                                    then nth (i * c' + j)
                                             (block 0 (r' * c') w k) 0
                                    else nth (i * n + j)
                                             (block 0 (m * n) (data t) k) 0)
                                 (seq 0 n))
                          (seq 0 m))
                     (seq 0 (numel (rev rb)))))
          else Raise RuntimeError
      | None => Raise RuntimeError
      end
  | _ => Raise IndexError
  end.

(** [t[..., :r, j] = v] *)
Definition set_col (r j : nat) (v t : Tensor) : Res Tensor :=
  match rev (shape t) with
  | n :: m :: rb =>
      if (j <? n)%nat then
        let r' := Nat.min r m in
        let o := rev rb ++ [r'] in
        match broadcast_shapes (shape v) o with
        | Some o' =>
            if list_eqb o' o then
              let w := expand_to o v in
              Ok (mkTensor (shape t)
                    (flat_map
                       (fun k =>
                          flat_map
                            (fun i =>
                               map (fun j' =>
                                      if (i <? r')%nat && (j' =? j)%nat
                                      then nth i (block 0 r' w k) 0
                                      else nth (i * n + j')
                                               (block 0 (m * n) (data t) k)
                                               0)
                                   (seq 0 n))
                            (seq 0 m))
                       (seq 0 (numel (rev rb)))))
            else Raise RuntimeError
        | None => Raise RuntimeError
        end
      else Raise IndexError
  | _ => Raise IndexError
  end.

(** [torch.cat(ts, dim)].  The tensors have the same number of dimensions,
    at least one, and the same sizes but in dimension [dim].  (The
    tensors of shape [(0,)], which [torch.cat] leaves out whatever the
    other shapes, get no special treatment; no tensor of a transform has
    that shape.) *)
Definition cat (dim : Z) (ts : list Tensor) : Res Tensor :=
  match ts with
  | [] => Raise RuntimeError
  | t0 :: _ =>
      if (ndim t0 =? 0)%nat then Raise RuntimeError
      else
        let n := Z.of_nat (ndim t0) in
        if ((- n <=? dim) && (dim <? n))%Z then
          let p := Z.to_nat (if (0 <=? dim)%Z then dim else (dim + n)%Z) in
          let outer := firstn p (shape t0) in
          let inner := skipn (S p) (shape t0) in
          if forallb
               (fun t => list_eqb (firstn p (shape t)) outer
                         && list_eqb (skipn (S p) (shape t)) inner
                         && (p <? ndim t)%nat)
               ts
          then
            Ok (mkTensor
                  (outer
                   ++ list_sum (map (fun t => nth p (shape t) 0%nat) ts)
                   :: inner)
                  (flat_map
                     (fun k =>
                        flat_map
                          (fun t =>
                             block 0 (nth p (shape t) 0%nat * numel inner)
                                   (data t) k)
                          ts)
                     (seq 0 (numel outer))))
          else Raise RuntimeError
        else Raise IndexError
  end.

(** [t.sum(-1)] *)
Definition sum_last (t : Tensor) : Res Tensor :=
  match rev (shape t) with
  | n :: rb =>
      Ok (mkTensor (rev rb)
            (map (fun k => fold_left Rplus (block 0 n (data t) k) 0)
                 (seq 0 (numel (rev rb)))))
  | [] => Ok t
  end.

(** [t.size(d)] *)
Definition size_at (d : Z) (t : Tensor) : Res nat :=
  let n := Z.of_nat (ndim t) in
  if ((- n <=? d) && (d <? n))%Z
  then Ok (nth (Z.to_nat (if (0 <=? d)%Z then d else (d + n)%Z))
               (shape t) 0%nat)
  else Raise IndexError.

(** [torch.zeros_like(t)] *)
Definition zeros_like (t : Tensor) : Tensor := zeros (shape t).

(** [t > c] for a Python number [c] *)
Definition gt (t : Tensor) (c : R) : BoolTensor :=
  mkBool (shape t)
    (map (fun x => if Rlt_dec c x then true else false) (data t)).

(** Tensors of integers: the indices given by [argmax] and their one-hot
    encoding. *)
Record IntTensor : Type := mkInt {
  ishape : list nat;
  idata : list nat
}.

(** The position of the first of the largest elements of [x :: l], the
    elements of [l] being at the positions [i], [i + 1], ... *)
Fixpoint argmax_from (best : R) (ibest i : nat) (l : list R) : nat :=
  match l with
  | [] => ibest
  | x :: l' =>
      if Rlt_dec best x then argmax_from x i (S i) l'
      else argmax_from best ibest (S i) l'
  end.

Definition argmax_list (l : list R) : nat :=
  match l with
  | [] => 0%nat
  | x :: l' => argmax_from x 0 1 l'
  end.

(** [t.argmax(dim=-1)] *)
Definition argmax_last (t : Tensor) : Res IntTensor :=
  match rev (shape t) with
  | n :: rb =>
      if (n =? 0)%nat then Raise IndexError
      else
        Ok (mkInt (rev rb)
              (map (fun k => argmax_list (block 0 n (data t) k))
                   (seq 0 (numel (rev rb)))))
  | [] => Ok (mkInt [] [0%nat])
  end.

(** [F.one_hot(t, num_classes=n)] *)
Definition one_hot (n : nat) (t : IntTensor) : Res IntTensor :=
  if forallb (fun i => (i <? n)%nat) (idata t)
  then Ok (mkInt (ishape t ++ [n])
             (flat_map
                (fun i => map (fun j => if (i =? j)%nat then 1%nat else 0%nat)
                              (seq 0 n))
                (idata t)))
  else Raise RuntimeError.

(** [t > c] for a tensor of integers [t] and a Python number [c] *)
Definition igt (t : IntTensor) (c : R) : BoolTensor :=
  mkBool (ishape t)
    (map (fun i => if Rlt_dec c (INR i) then true else false) (idata t)).

(** The elements of [l] at the positions where [m] holds. *)
Fixpoint pick {A : Type} (m : list bool) (l : list A) : list A :=
  match m, l with
  | b :: m', x :: l' => if b then x :: pick m' l' else pick m' l'
  | _, _ => []
  end.

(** [t[m, :]] for a mask [m] over the first dimensions of [t]: the
    sub-tensors at the positions where [m] holds, one after the other. *)
Definition index_mask (m : BoolTensor) (t : Tensor) : Res Tensor :=
  let j := length (bshape m) in
  if (j <? ndim t)%nat && list_eqb (bshape m) (firstn j (shape t)) then
    let rest := skipn j (shape t) in
    let rows :=
      pick (bdata m)
           (map (block 0 (numel rest) (data t))
                (seq 0 (numel (bshape m)))) in
    Ok (mkTensor (length rows :: rest) (concat rows))
  else Raise IndexError.


End torch.

(** ** Tensor expressions

    A Python expression over tensors either has a value or raises; an
    operand that raises makes the whole expression raise. *)

Definition tens (t : Tensor) : Res Tensor := Ok t.
Coercion tens : Tensor >-> Res.

Definition lift2 (f : R -> R -> R) (x y : Res Tensor) : Res Tensor :=
  a <- x ;; b <- y ;; torch.map2 f a b.

Definition lift1 (f : R -> R) (x : Res Tensor) : Res Tensor :=
  a <- x ;; Ok (torch.map1 f a).

Fixpoint sequence {A : Type} (cs : list (Res A)) : Res (list A) :=
  match cs with
  | [] => Ok []
  | c :: cs' => a <- c ;; l <- sequence cs' ;; Ok (a :: l)
  end.

(** [l[i]] of a Python list. *)
Definition item {A : Type} (l : list A) (i : nat) : Res A :=
  match nth_error l i with
  | Some a => Ok a
  | None => Raise IndexError
  end.

Declare Scope tensor_scope.
Delimit Scope tensor_scope with tensor.
Notation "x + y" := (lift2 Rplus x y) : tensor_scope.
Notation "x - y" := (lift2 Rminus x y) : tensor_scope.
Notation "x * y" := (lift2 Rmult x y) : tensor_scope.
Notation "x / y" := (lift2 Rdiv x y) : tensor_scope.
Notation "- x" := (lift1 Ropp x) : tensor_scope.
(** A Python number as the left or the right operand. *)
Notation "c #* x" := (lift1 (Rmult c) x)
  (at level 40, left associativity) : tensor_scope.
Notation "x *# c" := (lift1 (fun v => Rmult v c) x)
  (at level 40, left associativity) : tensor_scope.
Notation "c #+ x" := (lift1 (Rplus c) x)
  (at level 50, left associativity) : tensor_scope.
Notation "x +# c" := (lift1 (fun v => Rplus v c) x)
  (at level 50, left associativity) : tensor_scope.
Notation "c #- x" := (lift1 (Rminus c) x)
  (at level 50, left associativity) : tensor_scope.
Notation "x /# c" := (lift1 (fun v => Rdiv v c) x)
  (at level 40, left associativity) : tensor_scope.
Notation "c #/ x" := (lift1 (Rdiv c) x)
  (at level 40, left associativity) : tensor_scope.
Notation "x ** n" := (lift1 (fun v => pow v n) x)
  (at level 30, right associativity) : tensor_scope.
(** [x[..., i]] and [x[..., i, j]] *)
Notation "x @[ i ]" := (t <- x ;; torch.select i t)
  (at level 1, format "x @[ i ]") : tensor_scope.
Notation "x @[ i , j ]" := (t <- x ;; torch.select2 i j t)
  (at level 1, format "x @[ i ,  j ]") : tensor_scope.

(** [torch.stack(xs, dim=-1-k)] of tensor expressions. *)
Definition stack (xs : list (Res Tensor)) (k : nat) : Res Tensor :=
  ts <- sequence xs ;; torch.stack k ts.

Definition sqrt_t (x : Res Tensor) : Res Tensor := lift1 sqrt x.

(** [x.sum(-1)] of a tensor expression. *)
Definition sum_t (x : Res Tensor) : Res Tensor :=
  t <- x ;; torch.sum_last t.

(** The decimal writing of a number and [str(s)] of a [torch.Size] [s],
    for the messages of the errors. *)
Definition str_nat (n : nat) : string :=
  NilZero.string_of_uint (Nat.to_uint n).

Definition str_size (s : list nat) : string :=
  ("torch.Size([" ++ String.concat ", " (map str_nat s) ++ "])")%string.

(** The error of [x1, ..., xn = l] when [l] has not [n] elements. *)
Definition unpack_error {A : Type} (n : nat) (l : list A) : Error :=
  if (length l <? n)%nat
  then ValueError
         ("not enough values to unpack (expected " ++ str_nat n
          ++ ", got " ++ str_nat (length l) ++ ")")%string
  else ValueError
         ("too many values to unpack (expected " ++ str_nat n ++ ")")%string.

(** The builtin [sum] of Python over tensors: [0 + x1 + x2 + ...].  The sum
    of no tensor at all is the integer 0.  In [from_3_points], the only
    caller, a sum is empty only when a list of coordinates is, and the
    next thing that can raise is then [torch.sqrt] applied to a number,
    which is a TypeError: that outcome is given at once. *)
Definition py_sum (xs : list (Res Tensor)) : Res Tensor :=
  match xs with
  | [] => Raise TypeError
  | x :: xs' =>
      fold_left (fun acc y => lift2 Rplus acc y) xs' (lift1 (Rplus 0) x)
  end.

(** ** affine.py *)

Local Open Scope tensor_scope.

Definition rot_matmul (a b : Tensor) : Res Tensor :=
  row_1 <- stack
    [ a@[0, 0] * b@[0, 0] + a@[0, 1] * b@[1, 0] + a@[0, 2] * b@[2, 0];
      a@[0, 0] * b@[0, 1] + a@[0, 1] * b@[1, 1] + a@[0, 2] * b@[2, 1];
      a@[0, 0] * b@[0, 2] + a@[0, 1] * b@[1, 2] + a@[0, 2] * b@[2, 2] ] 0 ;;
  row_2 <- stack
    [ a@[1, 0] * b@[0, 0] + a@[1, 1] * b@[1, 0] + a@[1, 2] * b@[2, 0];
      a@[1, 0] * b@[0, 1] + a@[1, 1] * b@[1, 1] + a@[1, 2] * b@[2, 1];
      a@[1, 0] * b@[0, 2] + a@[1, 1] * b@[1, 2] + a@[1, 2] * b@[2, 2] ] 0 ;;
  row_3 <- stack
    [ a@[2, 0] * b@[0, 0] + a@[2, 1] * b@[1, 0] + a@[2, 2] * b@[2, 0];
      a@[2, 0] * b@[0, 1] + a@[2, 1] * b@[1, 1] + a@[2, 2] * b@[2, 1];
      a@[2, 0] * b@[0, 2] + a@[2, 1] * b@[1, 2] + a@[2, 2] * b@[2, 2] ] 0 ;;
  stack [tens row_1; tens row_2; tens row_3] 1.

Definition rot_vec_mul (r t : Tensor) : Res Tensor :=
  x <- t@[0] ;;
  y <- t@[1] ;;
  z <- t@[2] ;;
  stack
    [ r@[0, 0] * x + r@[0, 1] * y + r@[0, 2] * z;
      r@[1, 0] * x + r@[1, 1] * y + r@[1, 2] * z;
      r@[2, 0] * x + r@[2, 1] * y + r@[2, 2] * z ] 0.

(** *** class T *)

Module T.

Record t : Type := mk {
  rots : Tensor;
  trans : Tensor
}.

Definition _identity_rot (shape : list nat) : Res Tensor :=
  rots <- torch.view (repeat 1%nat (length shape) ++ [3; 3]%nat)
            torch.eye3 ;;
  torch.expand_keep2 shape rots.

Definition _identity_trans (shape : list nat) : Res Tensor :=
  Ok (torch.zeros (shape ++ [3%nat])).

(** [T(rots, trans)]; an argument that is [None] in Python is [None]. *)
Definition __init__ (rots trans : option Tensor) : Res t :=
  self <-
    match rots, trans with
    | None, None =>
        Raise (ValueError "Only one of rots and trans can be None")
    | None, Some trans =>
        rots <- _identity_rot (lead 1 (size trans)) ;; Ok (mk rots trans)
    | Some rots, None =>
        trans <- _identity_trans (lead 2 (size rots)) ;; Ok (mk rots trans)
    | Some rots, Some trans => Ok (mk rots trans)
    end ;;
  if negb (list_eqb (lastn 2 (size (T.rots self))) [3; 3]%nat)
  then Raise (ValueError "Incorrectly shaped input")
  else
    match rev (size (T.trans self)) with
    | [] => Raise IndexError
    | n :: _ =>
        if negb (n =? 3)%nat
           || negb (list_eqb (lead 2 (size (T.rots self)))
                             (lead 1 (size (T.trans self))))
        then Raise (ValueError "Incorrectly shaped input")
        else Ok self
    end.

(** [T(rots, trans)] of two tensors. *)
Definition new (rots trans : Tensor) : Res t :=
  __init__ (Some rots) (Some trans).

Definition __getitem__ (self : t) (index : list torch.Index) : Res t :=
  rots <- torch.getitem
            (index ++ [torch.Slice None None; torch.Slice None None])
            (rots self) ;;
  trans <- torch.getitem (index ++ [torch.Slice None None])
             (trans self) ;;
  new rots trans.

Definition __eq__ (self obj : t) : Res bool :=
  r <- torch.all_eq (rots self) (rots obj) ;;
  if r then torch.all_eq (trans self) (trans obj) else Ok false.

Definition shape (self : t) : list nat :=
  let s := lead 2 (size (rots self)) in
  if (0 <? length s)%nat then s else [1%nat].

Definition get_rots (self : t) : Tensor := rots self.

Definition get_trans (self : t) : Tensor := trans self.

Definition compose (self t : t) : Res T.t :=
  let rot_1 := rots self in let trn_1 := trans self in
  let rot_2 := rots t in let trn_2 := trans t in
  rot <- rot_matmul rot_1 rot_2 ;;
  trn <- rot_vec_mul rot_1 trn_2 + trn_1 ;;
  new rot trn.

Definition add (self t : t) : Res T.t :=
  let rot_1 := rots self in let trn_1 := trans self in
  let rot_2 := rots t in let trn_2 := trans t in
  rot <- rot_matmul rot_1 rot_2 ;;
  trn <- trn_2 + trn_1 ;;
  new rot trn.

Definition apply (self : t) (pts : Tensor) : Res Tensor :=
  let r := rots self in let t := trans self in
  rotated <- rot_vec_mul r pts ;;
  rotated + t.

Definition invert_apply (self : t) (pts : Tensor) : Res Tensor :=
  let r := rots self in let t := trans self in
  pts <- pts - t ;;
  r_t <- torch.transpose_last2 r ;;
  rot_vec_mul r_t pts.

Definition invert (self : t) : Res T.t :=
  rot_inv <- torch.transpose_last2 (rots self) ;;
  trn_inv <- rot_vec_mul rot_inv (trans self) ;;
  trn <- (-1) #* trn_inv ;;
  new rot_inv trn.

Definition unsqueeze (self : t) (dim : Z) : Res T.t :=
  if (Z.of_nat (length (shape self)) <=? dim)%Z
  then Raise (ValueError "Invalid dimension")
  else
    rots <- torch.unsqueeze (if (0 <=? dim)%Z then dim else (dim - 2)%Z)
              (rots self) ;;
    trans <- torch.unsqueeze (if (0 <=? dim)%Z then dim else (dim - 1)%Z)
               (trans self) ;;
    new rots trans.

Definition identity (shape : list nat) : Res T.t :=
  rots <- _identity_rot shape ;;
  trans <- _identity_trans shape ;;
  new rots trans.

Definition from_3_points (p_neg_x_axis origin p_xy_plane : Tensor)
    (eps : R) : Res T.t :=
  p_neg_x_axis <- torch.unbind p_neg_x_axis ;;
  origin <- torch.unbind origin ;;
  p_xy_plane <- torch.unbind p_xy_plane ;;
  e0 <- sequence
          (zipWith (fun c1 c2 : Tensor => c1 - c2) origin p_neg_x_axis) ;;
  e1 <- sequence
          (zipWith (fun c1 c2 : Tensor => c1 - c2) p_xy_plane origin) ;;
  denom <- sqrt_t (py_sum (map (fun c : Tensor => c * c) e0) +# eps) ;;
  e0 <- sequence (map (fun c : Tensor => c / denom) e0) ;;
  dot <- py_sum (zipWith (fun c1 c2 : Tensor => c1 * c2) e0 e1) ;;
  e1 <- sequence
          (zipWith (fun c1 c2 : Tensor => c2 - c1 * dot) e0 e1) ;;
  denom <- sqrt_t (py_sum (map (fun c : Tensor => c * c) e1) +# eps) ;;
  e1 <- sequence (map (fun c : Tensor => c / denom) e1) ;;
  e2 <- sequence
          [ item e0 1 * item e1 2 - item e0 2 * item e1 1;
            item e0 2 * item e1 0 - item e0 0 * item e1 2;
            item e0 0 * item e1 1 - item e0 1 * item e1 0 ] ;;
  rots <- stack (map tens (concat (zip3 e0 e1 e2))) 0 ;;
  rots <- torch.reshape (lead 1 (size rots) ++ [3; 3]%nat) rots ;;
  trans <- stack (map tens origin) 0 ;;
  new rots trans.

(** In-place assignments to [c1_rots], [c2_rots] and [n_rots] are
    written as rebinding; the unused locals [zeros] and [ones] are left
    out. *)
Definition make_transform_from_reference (n_xyz ca_xyz c_xyz : Tensor)
    (eps : R) : Res T.t :=
  translation <- (-1) #* ca_xyz ;;
  n_xyz <- n_xyz + translation ;;
  c_xyz <- c_xyz + translation ;;

  c_x <- c_xyz@[0] ;;
  c_y <- c_xyz@[1] ;;
  c_z <- c_xyz@[2] ;;
  norm <- sqrt_t (eps #+ c_x ** 2 + c_y ** 2) ;;
  sin_c1 <- - c_y / norm ;;
  cos_c1 <- c_x / norm ;;

  let c1_rots := torch.zeros (size sin_c1 ++ [3; 3]%nat) in
  c1_rots <- torch.set2 0 0 cos_c1 c1_rots ;;
  v <- (-1) #* sin_c1 ;;
  c1_rots <- torch.set2 0 1 v c1_rots ;;
  c1_rots <- torch.set2 1 0 sin_c1 c1_rots ;;
  c1_rots <- torch.set2 1 1 cos_c1 c1_rots ;;
  c1_rots <- torch.fill2 2 2 1 c1_rots ;;

  norm <- sqrt_t (eps #+ c_x ** 2 + c_y ** 2 + c_z ** 2) ;;
  sin_c2 <- c_z / norm ;;
  cos_c2 <- sqrt_t (c_x ** 2 + c_y ** 2) / norm ;;

  let c2_rots := torch.zeros (size sin_c2 ++ [3; 3]%nat) in
  c2_rots <- torch.set2 0 0 cos_c2 c2_rots ;;
  c2_rots <- torch.set2 0 2 sin_c2 c2_rots ;;
  c2_rots <- torch.fill2 1 1 1 c2_rots ;;
  v <- (-1) #* sin_c2 ;;
  c1_rots <- torch.set2 2 0 v c1_rots ;;
  c1_rots <- torch.set2 2 2 cos_c2 c1_rots ;;

  c_rots <- rot_matmul c2_rots c1_rots ;;
  n_xyz <- rot_vec_mul c_rots n_xyz ;;

  _ <- n_xyz@[0] ;;
  n_y <- n_xyz@[1] ;;
  n_z <- n_xyz@[2] ;;
  norm <- sqrt_t (eps #+ n_y ** 2 + n_z ** 2) ;;
  sin_n <- - n_z / norm ;;
  cos_n <- n_y / norm ;;

  let n_rots := torch.zeros (size sin_c2 ++ [3; 3]%nat) in
  n_rots <- torch.fill2 0 0 1 n_rots ;;
  n_rots <- torch.set2 1 1 cos_n n_rots ;;
  v <- (-1) #* sin_n ;;
  n_rots <- torch.set2 1 2 v n_rots ;;
  n_rots <- torch.set2 2 1 sin_n n_rots ;;
  n_rots <- torch.set2 2 2 cos_n n_rots ;;

  rots <- rot_matmul n_rots c_rots ;;

  rots <- torch.transpose_last2 rots ;;
  translation <- (-1) #* translation ;;

  new rots translation.
Definition __mul__ (self : t) (right : Tensor) : Res T.t :=
  rots <- rots self * torch.new_axes 2 right ;;
  trans <- trans self * torch.new_axes 1 right ;;
  new rots trans.

Definition __rmul__ (self : t) (left : Tensor) : Res T.t :=
  __mul__ self left.

Definition from_4x4 (t : Tensor) : Res T.t :=
  rots <- torch.get_block 3 3 t ;;
  trans <- torch.get_col 3 3 t ;;
  new rots trans.

Definition to_4x4 (self : t) : Res Tensor :=
  let tensor := torch.zeros (shape self ++ [4; 4]%nat) in
  tensor <- torch.set_block 3 3 (rots self) tensor ;;
  tensor <- torch.set_col 3 3 (trans self) tensor ;;
  torch.fill2 3 3 1 tensor.

Definition from_tensor (t : Tensor) : Res T.t := from_4x4 t.

Definition concat (ts : list t) (dim : Z) : Res T.t :=
  rots <- torch.cat (if (0 <=? dim)%Z then dim else (dim - 2)%Z)
            (map rots ts) ;;
  trans <- torch.cat (if (0 <=? dim)%Z then dim else (dim - 1)%Z)
             (map trans ts) ;;
  new rots trans.


(** [detach] changes the gradient flag alone. *)
Definition stop_rot_gradient (self : t) : Res T.t :=
  new (rots self) (trans self).

Definition scale_translation (self : t) (factor : R) : Res T.t :=
  trans <- trans self *# factor ;;
  new (rots self) trans.


End T.

(** *** Conversions between axis-angle vectors and quaternions

    In affine.py the functions from [quat_to_rot] on stand between two
    triple quotes, so that Python reads them as one string and defines
    none of them; those below are embedded from that text.  [junk]
    gives the content of the tensor that [torch.empty_like] leaves
    uninitialised. *)

Definition quat_to_axis_angle (junk : nat -> R) (quats : Tensor)
  : Res Tensor :=
  v <- torch.slice_last 1 None quats ;;
  norms <- torch.norm_last v ;;
  r <- torch.slice_last 0 (Some 1%nat) quats ;;
  half_angles <- lift2 atan2 norms r ;;
  angles <- 2 #* half_angles ;;
  let eps := 1e-6 in
  let small_angles := torch.abs_lt angles eps in
  let sin_half_angles_over_angles := torch.empty_like junk angles in
  h <- torch.masked_select (torch.bnot small_angles) half_angles ;;
  a <- torch.masked_select (torch.bnot small_angles) angles ;;
  x <- lift1 sin h / a ;;
  sin_half_angles_over_angles <-
    torch.masked_assign (torch.bnot small_angles) x
      sin_half_angles_over_angles ;;
  a1 <- torch.masked_select small_angles angles ;;
  a2 <- torch.masked_select small_angles angles ;;
  x <- 0.5 #- (a1 * a2) /# 48 ;;
  sin_half_angles_over_angles <-
    torch.masked_assign small_angles x sin_half_angles_over_angles ;;
  v <- torch.slice_last 1 None quats ;;
  v / sin_half_angles_over_angles.

Definition axis_angle_to_quat (junk : nat -> R) (axis_angle : Tensor)
  : Res Tensor :=
  angles <- torch.norm_last axis_angle ;;
  half_angles <- angles *# 0.5 ;;
  let eps := 1e-6 in
  let small_angles := torch.abs_lt angles eps in
  let sin_half_angles_over_angles := torch.empty_like junk angles in
  h <- torch.masked_select (torch.bnot small_angles) half_angles ;;
  a <- torch.masked_select (torch.bnot small_angles) angles ;;
  x <- lift1 sin h / a ;;
  sin_half_angles_over_angles <-
    torch.masked_assign (torch.bnot small_angles) x
      sin_half_angles_over_angles ;;
  a1 <- torch.masked_select small_angles angles ;;
  a2 <- torch.masked_select small_angles angles ;;
  x <- 0.5 #- (a1 * a2) /# 48 ;;
  sin_half_angles_over_angles <-
    torch.masked_assign small_angles x sin_half_angles_over_angles ;;
  c <- lift1 cos half_angles ;;
  w <- axis_angle * sin_half_angles_over_angles ;;
  torch.cat_last c w.

Definition quat_to_matrix (quats : Tensor) : Res Tensor :=
  l <- torch.unbind quats ;;
  match l with
  | [r; i; j; k] =>
      two_s <- 2 #/ sum_t (quats * quats) ;;
      o <- stack
             [ 1 #- two_s * (j * j + k * k);
               two_s * (i * j - k * r);
               two_s * (i * k + j * r);
               two_s * (i * j + k * r);
               1 #- two_s * (i * i + k * k);
               two_s * (j * k - i * r);
               two_s * (i * k - j * r);
               two_s * (j * k + i * r);
               1 #- two_s * (i * i + j * j) ] 0 ;;
      torch.reshape (lead 1 (size quats) ++ [3; 3]%nat) o
  | _ => Raise (unpack_error 4 l)
  end.

Definition axis_angle_to_matrix (junk : nat -> R) (axis_angle : Tensor)
  : Res Tensor :=
  q <- axis_angle_to_quat junk axis_angle ;;
  quat_to_matrix q.

Definition _sqrt_positive_part (x : Tensor) : Res Tensor :=
  let ret := torch.zeros_like x in
  let positive_mask := torch.gt x 0 in
  v <- torch.masked_select positive_mask x ;;
  v <- sqrt_t v ;;
  torch.masked_assign positive_mask v ret.

Definition rot_to_quat (matrix : Tensor) : Res Tensor :=
  n <- torch.size_at (-1) matrix ;;
  bad <- (if negb (n =? 3)%nat then Ok true
          else m <- torch.size_at (-2) matrix ;; Ok (negb (m =? 3)%nat)) ;;
  if (bad : bool) then
    Raise (ValueError
             ("Invalid rotation matrix shape " ++ str_size (size matrix)
              ++ ".")%string)
  else
    let batch_dim := lead 2 (size matrix) in
    m <- torch.reshape (batch_dim ++ [9%nat]) matrix ;;
    l <- torch.unbind m ;;
    match l with
    | [m00; m01; m02; m10; m11; m12; m20; m21; m22] =>
        x <- stack
               [ 1 #+ m00 + m11 + m22;
                 1 #+ m00 - m11 - m22;
                 1 #- m00 + m11 - m22;
                 1 #- m00 - m11 + m22 ] 0 ;;
        q_abs <- _sqrt_positive_part x ;;
        quat_by_rijk <- stack
          [ stack [q_abs@[0] ** 2; m21 - m12; m02 - m20; m10 - m01] 0;
            stack [m21 - m12; q_abs@[1] ** 2; m10 + m01; m02 + m20] 0;
            stack [m02 - m20; m10 + m01; q_abs@[2] ** 2; m12 + m21] 0;
            stack [m10 - m01; m20 + m02; m21 + m12; q_abs@[3] ** 2] 0 ]
          1 ;;
        let flr := mkTensor [] [0.1] in
        quat_candidates <-
          quat_by_rijk
          / (2 #* lift2 Rmax (torch.new_axes 1 q_abs) flr) ;;
        best <- torch.argmax_last q_abs ;;
        hot <- torch.one_hot 4 best ;;
        picked <- torch.index_mask (torch.igt hot 0.5) quat_candidates ;;
        torch.reshape (batch_dim ++ [4%nat]) picked
    | _ => Raise (unpack_error 9 l)
    end.

Definition matrix_to_axis_angle (junk : nat -> R) (matrix : Tensor)
  : Res Tensor :=
  q <- rot_to_quat matrix ;;
  quat_to_axis_angle junk q.

Local Close Scope tensor_scope.

(** ** Batches

    [lift B K g] is the tensor of batch shape [B] whose [k]-th element, of
    shape [K], has the entries [g k]. *)

Definition lift (B K : list nat) (g : nat -> list R) : Tensor :=
  mkTensor (B ++ K) (flat_map g (seq 0 (numel B))).

Definition sized (c : nat) (g : nat -> list R) : Prop :=
  forall k, length (g k) = c.

(** Two batch shapes of the same elements that broadcast to [B]: equal
    shapes, or no batch dimension against one of size 1. *)
Inductive bcompat : list nat -> list nat -> list nat -> Prop :=
| bc_same (B : list nat) : bcompat B B B
| bc_left : bcompat [] [1%nat] [1%nat]
| bc_right : bcompat [1%nat] [] [1%nat].

(** The [k]-th vector of a [B ++ [3]] tensor and the [k]-th matrix of a
    [B ++ [3; 3]] tensor, as the lists of their entries. *)
Definition vec (t : Tensor) (k : nat) : list R := block 0 3 (data t) k.

Definition mat (t : Tensor) (k : nat) : list R := block 0 9 (data t) k.

(** The [k]-th quaternion of a [B ++ [4]] tensor. *)
Definition quat (t : Tensor) (k : nat) : list R := block 0 4 (data t) k.

(** A transform of batch shape [B]. *)
Definition valid (B : list nat) (t : T.t) : Prop :=
  wf (T.rots t) /\ wf (T.trans t) /\
  shape (T.rots t) = B ++ [3; 3]%nat /\ shape (T.trans t) = B ++ [3%nat].

(** ** Matrices and vectors

    A 3x3 matrix is the list of its nine entries, row after row, and a
    3-vector the list of its three coordinates.  The operations below are
    the textbook ones, written with sums over the indices. *)

Definition entry (m : list R) (i j : nat) : R := nth (3 * i + j) m 0.

Definition coord (v : list R) (i : nat) : R := nth i v 0.

Definition sum3 (f : nat -> R) : R := f 0%nat + f 1%nat + f 2%nat.

Definition matrix (f : nat -> nat -> R) : list R :=
  [f 0 0; f 0 1; f 0 2; f 1 0; f 1 1; f 1 2; f 2 0; f 2 1; f 2 2]%nat.

Definition vector (f : nat -> R) : list R := [f 0; f 1; f 2]%nat.

Definition mat_mul (a b : list R) : list R :=
  matrix (fun i j => sum3 (fun l => entry a i l * entry b l j)).

Definition mat_vec (m v : list R) : list R :=
  vector (fun i => sum3 (fun l => entry m i l * coord v l)).

Definition mat_transpose (m : list R) : list R :=
  matrix (fun i j => entry m j i).

Definition mat_id : list R :=
  matrix (fun i j => if (i =? j)%nat then 1 else 0).

Definition vec_add (u v : list R) : list R :=
  vector (fun i => coord u i + coord v i).

Definition vec_sub (u v : list R) : list R :=
  vector (fun i => coord u i - coord v i).

Definition vec_scale (c : R) (v : list R) : list R :=
  vector (fun i => c * coord v i).

Definition dot (u v : list R) : R :=
  sum3 (fun i => coord u i * coord v i).

Definition cross (u v : list R) : list R :=
  [coord u 1 * coord v 2 - coord u 2 * coord v 1;
   coord u 2 * coord v 0 - coord u 0 * coord v 2;
   coord u 0 * coord v 1 - coord u 1 * coord v 0].

Definition det (m : list R) : R :=
  entry m 0 0 * (entry m 1 1 * entry m 2 2 - entry m 1 2 * entry m 2 1)
  - entry m 0 1 * (entry m 1 0 * entry m 2 2 - entry m 1 2 * entry m 2 0)
  + entry m 0 2 * (entry m 1 0 * entry m 2 1 - entry m 1 1 * entry m 2 0).

(** The columns of a matrix. *)
Definition column (m : list R) (j : nat) : list R :=
  vector (fun i => entry m i j).

(** A matrix is orthonormal when its transpose is its inverse; a rotation
    is an orthonormal matrix of determinant 1. *)
Definition orthonormal (m : list R) : Prop :=
  mat_mul (mat_transpose m) m = mat_id /\ mat_mul m (mat_transpose m) = mat_id.

Definition rotation (m : list R) : Prop :=
  orthonormal m /\ det m = 1.

(** The transform of batch shape [B] whose [k]-th rotation is [m k] and
    whose [k]-th translation is [v k]. *)
Definition tlift (B : list nat) (m v : nat -> list R) : T.t :=
  T.mk (lift B [3; 3]%nat m) (lift B [3%nat] v).

(** ** The frame of three points, in the words of the specification

    The first basis vector is [origin - p_neg_x_axis] normalised, the second
    is [p_xy_plane - origin] minus its component along the first,
    normalised, and the third is their cross product; every norm has
    [eps] added under the square root. *)

Definition vec_div (u : list R) (s : R) : list R :=
  vector (fun i => coord u i / s).

Definition normalize (eps : R) (u : list R) : list R :=
  vec_div u (sqrt (dot u u + eps)).

(** [v] minus its component along [e]. *)
Definition reject (e v : list R) : list R :=
  vector (fun i => coord v i - coord e i * dot e v).

Definition frame_e0 (eps : R) (a o : list R) : list R :=
  normalize eps (vec_sub o a).

Definition frame_e1 (eps : R) (a o c : list R) : list R :=
  normalize eps (reject (frame_e0 eps a o) (vec_sub c o)).

Definition frame_e2 (eps : R) (a o c : list R) : list R :=
  cross (frame_e0 eps a o) (frame_e1 eps a o c).

(** The matrix whose columns are [u], [v] and [w]. *)
Definition of_columns (u v w : list R) : list R :=
  [coord u 0; coord v 0; coord w 0;
   coord u 1; coord v 1; coord w 1;
   coord u 2; coord v 2; coord w 2].

(** The three points of the example of the specification. *)
Definition point_A : Tensor := mkTensor [3%nat] [1; 0; 0].
Definition point_B : Tensor := mkTensor [3%nat] [0; 0; 0].
Definition point_C : Tensor := mkTensor [3%nat] [0; 1; 0].

(** The default value of [eps] in [from_3_points]. *)
Definition eps_default : R := 1 / 10 ^ 8.

(** ** The two conversions on one vector

    What [axis_angle_to_quat] and [quat_to_axis_angle] compute for each
    element of the batch. *)

Definition norm_of (v : list R) : R :=
  sqrt (fold_left (fun acc x => acc + x * x) v 0).

(** The factor [sin(angle / 2) / angle], by its Taylor series when the
    angle is small. *)
Definition sin_half_over (half angle : R) : R :=
  if Rlt_dec (Rabs angle) 1e-6
  then 0.5 - angle * angle / 48
  else sin half / angle.

Definition aa_to_quat (v : list R) : list R :=
  let angle := norm_of v in
  let half := angle * 0.5 in
  cos half :: map (fun c => c * sin_half_over half angle) v.

Definition quat_to_aa (q : list R) : list R :=
  let half := atan2 (norm_of (tl q)) (hd 0 q) in
  let angle := 2 * half in
  map (fun c => c / sin_half_over half angle) (tl q).

(** The value of a position of a tensor after the two masked
    assignments. *)
Fixpoint choose (m : list bool) (w d : list R) : list R :=
  match m, w, d with
  | b :: m', x :: w', y :: d' => (if b then x else y) :: choose m' w' d'
  | _, _, _ => []
  end.

(** The tensor of one dimension that holds the elements of [w] selected
    by [m]. *)
Definition selected (m : list bool) (w : list R) : Tensor :=
  mkTensor [length (torch.gather m w)] (torch.gather m w).

(** The tensor of shape [B ++ [1]] whose [k]-th element is [x k]. *)
Definition col (B : list nat) (x : nat -> R) : Tensor :=
  mkTensor (B ++ [1%nat]) (map x (seq 0 (numel B))).

(** A rotation of 3 radians about the z axis, and a very small one. *)
Definition turn_3_radians : Tensor := mkTensor [3%nat] [0; 0; 3].
Definition turn_tiny : Tensor := mkTensor [3%nat] [0; 0; 1 / 10 ^ 7].

(** ** Sample transforms *)

(** The quarter turn about the z axis followed by the translation
    (1, 2, 3), without batch dimension and in a batch of one. *)
Definition quarter_turn : T.t :=
  T.mk (mkTensor [3; 3]%nat [0; -1; 0; 1; 0; 0; 0; 0; 1])
       (mkTensor [3%nat] [1; 2; 3]).

Definition point_123 : Tensor := mkTensor [3%nat] [1; 2; 3].

(** A batch of two transforms: the quarter turn above and the identity
    with translation (0, 0, 1). *)
Definition two_turns : T.t :=
  T.mk (mkTensor [2; 3; 3]%nat
          [0; -1; 0; 1; 0; 0; 0; 0; 1;  1; 0; 0; 0; 1; 0; 0; 0; 1])
       (mkTensor [2; 3]%nat [1; 2; 3;  0; 0; 1]).

(** Two batches of two points, the origins and the points in the plane
    of two frames. *)
Definition two_origins : Tensor :=
  mkTensor [2; 3]%nat [0; 0; 0;  1; 1; 1].

Definition two_points : Tensor :=
  mkTensor [2; 3]%nat [0; 1; 0;  2; 0; 1].

(** ** Homogeneous matrices

    A 4x4 matrix is the list of its sixteen entries, row after row. *)

(** The [k]-th matrix of a [B ++ [4; 4]] tensor. *)
Definition mat4 (t : Tensor) (k : nat) : list R := block 0 16 (data t) k.

Definition entry4 (m : list R) (i j : nat) : R := nth (4 * i + j) m 0.

Definition sum4 (f : nat -> R) : R := f 0%nat + f 1%nat + f 2%nat + f 3%nat.

Definition matrix4 (f : nat -> nat -> R) : list R :=
  [f 0 0; f 0 1; f 0 2; f 0 3; f 1 0; f 1 1; f 1 2; f 1 3;
   f 2 0; f 2 1; f 2 2; f 2 3; f 3 0; f 3 1; f 3 2; f 3 3]%nat.

Definition mat4_mul (a b : list R) : list R :=
  matrix4 (fun i j => sum4 (fun l => entry4 a i l * entry4 b l j)).

(** The matrix of the rotation [m] and the translation [v] in homogeneous
    coordinates: [m] and [v] side by side above the row (0, 0, 0, 1). *)
Definition homogeneous (m v : list R) : list R :=
  [entry m 0 0; entry m 0 1; entry m 0 2; coord v 0;
   entry m 1 0; entry m 1 1; entry m 1 2; coord v 1;
   entry m 2 0; entry m 2 1; entry m 2 2; coord v 2;
   0; 0; 0; 1].

(** A tensor of three rows and four columns: the first three rows of the
    matrix of a translation by (5, 6, 7). *)
Definition three_by_four : Tensor :=
  mkTensor [3; 4]%nat [1; 0; 0; 5;  0; 1; 0; 6;  0; 0; 1; 7].

(** ** Quaternions

    A quaternion is the list of its four components, the real part
    first. *)

Definition quaternion (f : nat -> R) : list R := [f 0; f 1; f 2; f 3]%nat.

(** What [quat_to_matrix] computes for one quaternion. *)
Definition quat_matrix (q : list R) : list R :=
  let r := nth 0 q 0 in
  let i := nth 1 q 0 in
  let j := nth 2 q 0 in
  let k := nth 3 q 0 in
  let two_s := 2 / fold_left Rplus (zipWith Rmult q q) 0 in
  [1 - two_s * (j * j + k * k); two_s * (i * j - k * r);
   two_s * (i * k + j * r);
   two_s * (i * j + k * r); 1 - two_s * (i * i + k * k);
   two_s * (j * k - i * r);
   two_s * (i * k - j * r); two_s * (j * k + i * r);
   1 - two_s * (i * i + j * j)].

(** Two quaternions: the identity and (0, 0, 3, 4), of norm 5. *)
Definition two_quats : Tensor :=
  mkTensor [2; 4]%nat [1; 0; 0; 0;  0; 0; 3; 4].

(** The same rotations by other quaternions: the opposite of the first
    and the double of the second. *)
Definition two_quats_scaled : Tensor :=
  mkTensor [2; 4]%nat [-1; 0; 0; 0;  0; 0; 6; 8].

(** Two quaternions of norm 1. *)
Definition unit_quats : Tensor :=
  mkTensor [2; 4]%nat [1; 0; 0; 0;  0; 3 / 5; 0; - (4 / 5)].

(** What [_sqrt_positive_part] computes for one number. *)
Definition sqrt_positive (x : R) : R := if Rlt_dec 0 x then sqrt x else 0.

(** What [rot_to_quat] computes for one matrix: the four candidates, one
    for each component taken as the divisor, and the first of those whose
    divisor is the largest. *)
Definition rot_to_q (m : list R) : list R :=
  let m00 := nth 0 m 0 in let m01 := nth 1 m 0 in let m02 := nth 2 m 0 in
  let m10 := nth 3 m 0 in let m11 := nth 4 m 0 in let m12 := nth 5 m 0 in
  let m20 := nth 6 m 0 in let m21 := nth 7 m 0 in let m22 := nth 8 m 0 in
  let q_abs :=
    map sqrt_positive
      [1 + m00 + m11 + m22; 1 + m00 - m11 - m22;
       1 - m00 + m11 - m22; 1 - m00 - m11 + m22] in
  let rows :=
    [[nth 0 q_abs 0 ^ 2; m21 - m12; m02 - m20; m10 - m01];
     [m21 - m12; nth 1 q_abs 0 ^ 2; m10 + m01; m02 + m20];
     [m02 - m20; m10 + m01; nth 2 q_abs 0 ^ 2; m12 + m21];
     [m10 - m01; m20 + m02; m21 + m12; nth 3 q_abs 0 ^ 2]] in
  let candidates :=
    zipWith (fun row a => map (fun x => x / (2 * Rmax a 0.1)) row)
            rows q_abs in
  nth (torch.argmax_list q_abs) candidates [].

(** * Properties *)

(** ** Lists *)

Lemma length_zipWith {A B C : Type} (f : A -> B -> C) l1 l2 :
  length l1 = length l2 -> length (zipWith f l1 l2) = length l1.
Proof.
  revert l2; induction l1 as [|x l1 IH]; intros [|y l2] H;
    simpl in *; try discriminate; auto.
Qed.

Lemma zipWith_app {A B C : Type} (f : A -> B -> C) l1 l1' l2 l2' :
  length l1 = length l2 ->
  zipWith f (l1 ++ l1') (l2 ++ l2') = zipWith f l1 l2 ++ zipWith f l1' l2'.
Proof.
  revert l2; induction l1 as [|x l1 IH]; intros [|y l2] H;
    simpl in *; try discriminate; auto.
  f_equal; auto.
Qed.

Lemma zipWith_map {A B C E : Type} (f : A -> B -> C) (g : E -> A)
    (h : E -> B) l :
  zipWith f (map g l) (map h l) = map (fun e => f (g e) (h e)) l.
Proof. induction l; simpl; congruence. Qed.

Lemma map_nth_seq {A : Type} (d : A) (l : list A) :
  map (fun p => nth p l d) (seq 0 (length l)) = l.
Proof.
  induction l as [|x l IH]; simpl; auto.
  f_equal. rewrite <- seq_shift, map_map. exact IH.
Qed.

Lemma flat_map_singleton {A B : Type} (f : A -> B) l :
  flat_map (fun k => [f k]) l = map f l.
Proof. induction l; simpl; congruence. Qed.

Lemma numel_app s1 s2 : numel (s1 ++ s2) = (numel s1 * numel s2)%nat.
Proof. induction s1; simpl; lia. Qed.

Lemma list_eqb_refl l : list_eqb l l = true.
Proof. induction l; simpl; auto. rewrite Nat.eqb_refl; auto. Qed.

Lemma list_eqb_eq l1 l2 : list_eqb l1 l2 = true <-> l1 = l2.
Proof.
  split; [|intros ->; apply list_eqb_refl].
  revert l2; induction l1 as [|x l1 IH]; intros [|y l2]; simpl;
    try discriminate; auto.
  intros H. apply andb_true_iff in H as [H1 H2].
  apply Nat.eqb_eq in H1. f_equal; auto.
Qed.

Lemma lead_app {A : Type} (l1 l2 : list A) :
  lead (length l2) (l1 ++ l2) = l1.
Proof.
  unfold lead. rewrite length_app.
  replace (length l1 + length l2 - length l2)%nat with (length l1) by lia.
  rewrite firstn_app, firstn_all, Nat.sub_diag. simpl. apply app_nil_r.
Qed.

Lemma lastn_app {A : Type} (l1 l2 : list A) :
  lastn (length l2) (l1 ++ l2) = l2.
Proof.
  unfold lastn. rewrite length_app.
  replace (length l1 + length l2 - length l2)%nat with (length l1) by lia.
  rewrite skipn_app, skipn_all, Nat.sub_diag. reflexivity.
Qed.

Lemma lead1_app {A : Type} (l : list A) x : lead 1 (l ++ [x]) = l.
Proof. exact (lead_app l [x]). Qed.

Lemma lead2_app {A : Type} (l : list A) x y : lead 2 (l ++ [x; y]) = l.
Proof. exact (lead_app l [x; y]). Qed.

Lemma lastn2_app {A : Type} (l : list A) x y :
  lastn 2 (l ++ [x; y]) = [x; y].
Proof. exact (lastn_app l [x; y]). Qed.

(** ** Blocks of a flat list *)

Section Blocks.
Variable c : nat.
Variable g : nat -> list R.
Hypothesis Hg : sized c g.

Lemma length_flat_map_seq s N :
  length (flat_map g (seq s N)) = (N * c)%nat.
Proof.
  revert s; induction N as [|N IH]; intros s; simpl; auto.
  rewrite length_app, IH, Hg. reflexivity.
Qed.

Lemma nth_flat_map_seq s N k p :
  (k < N)%nat -> (p < c)%nat ->
  nth (k * c + p) (flat_map g (seq s N)) 0 = nth p (g (s + k)%nat) 0.
Proof.
  revert s k; induction N as [|N IH]; intros s k Hk Hp; [lia|].
  simpl. destruct k as [|k].
  - simpl. rewrite app_nth1 by (rewrite Hg; exact Hp).
    now rewrite Nat.add_0_r.
  - rewrite app_nth2 by (rewrite Hg; simpl; lia).
    rewrite Hg.
    replace (S k * c + p - c)%nat with (k * c + p)%nat by (simpl; lia).
    rewrite IH by lia. f_equal. f_equal. lia.
Qed.

Lemma block_flat_map N k :
  (k < N)%nat -> block 0 c (flat_map g (seq 0 N)) k = g k.
Proof.
  intros Hk. unfold block.
  transitivity (map (fun p => nth p (g k) 0) (seq 0 (length (g k))));
    [|apply map_nth_seq].
  rewrite Hg. apply map_ext_in. intros p Hp. apply in_seq in Hp.
  now rewrite nth_flat_map_seq by lia.
Qed.

Lemma chunks_flat_map N :
  (0 < c)%nat -> chunks 0 c (flat_map g (seq 0 N)) = map g (seq 0 N).
Proof.
  intros Hc. unfold chunks.
  rewrite length_flat_map_seq, Nat.div_mul by lia.
  apply map_ext_in. intros k Hk. apply in_seq in Hk.
  apply block_flat_map. lia.
Qed.
End Blocks.

Lemma sized_block c d : sized c (block 0 c d).
Proof. intros k. unfold block. now rewrite length_map, length_seq. Qed.

Lemma block_shift c d k :
  block 0 c d (S k) = block 0 c (skipn c d) k.
Proof.
  unfold block. apply map_ext. intros p.
  rewrite nth_skipn. f_equal. simpl. lia.
Qed.

Lemma block_first c (d : list R) :
  (c <= length d)%nat -> block 0 c d 0 = firstn c d.
Proof.
  intros H. unfold block. simpl.
  rewrite <- (map_nth_seq 0 (firstn c d)).
  rewrite length_firstn, Nat.min_l by exact H.
  apply map_ext_in. intros p Hp. apply in_seq in Hp.
  rewrite nth_firstn. destruct (Nat.ltb_spec p c); [reflexivity | lia].
Qed.

Lemma flat_map_block c N : forall d,
  length d = (N * c)%nat -> flat_map (block 0 c d) (seq 0 N) = d.
Proof.
  induction N as [|N IH]; intros d H.
  - destruct d; [reflexivity | discriminate].
  - simpl. rewrite <- seq_shift, flat_map_concat_map, map_map.
    rewrite (map_ext _ _ (block_shift c d)).
    rewrite <- flat_map_concat_map, IH.
    + rewrite block_first by (simpl in H; lia). apply firstn_skipn.
    + rewrite length_skipn. simpl in H. lia.
Qed.

(** ** Tensors in batch form *)

Lemma wf_lift B K g : sized (numel K) g -> wf (lift B K g).
Proof.
  intros H. unfold wf, lift. simpl.
  now rewrite (length_flat_map_seq _ _ H), numel_app.
Qed.

Lemma lift_of t B K :
  wf t -> shape t = B ++ K -> t = lift B K (block 0 (numel K) (data t)).
Proof.
  destruct t as [s d]. unfold wf, lift. simpl. intros H ->.
  rewrite flat_map_block; [reflexivity|]. now rewrite H, numel_app.
Qed.

Lemma lift_ext B K g h :
  (forall k, (k < numel B)%nat -> g k = h k) -> lift B K g = lift B K h.
Proof.
  intros H. unfold lift. f_equal.
  rewrite !flat_map_concat_map. f_equal.
  apply map_ext_in. intros k Hk. apply in_seq in Hk. apply H. lia.
Qed.

Lemma block_lift B K g k :
  sized (numel K) g -> (k < numel B)%nat ->
  block 0 (numel K) (data (lift B K g)) k = g k.
Proof. intros Hg Hk. unfold lift; simpl. now apply block_flat_map. Qed.

(** *** Broadcasting *)

Lemma broadcast_rev_prefix_r r l :
  torch.broadcast_rev r (r ++ l) = Some (r ++ l).
Proof.
  induction r as [|a r IH]; simpl; [reflexivity|].
  now rewrite IH, Nat.eqb_refl.
Qed.

Lemma broadcast_rev_prefix_l r l :
  torch.broadcast_rev (r ++ l) r = Some (r ++ l).
Proof.
  induction r as [|a r IH]; simpl; [now destruct l|].
  now rewrite IH, Nat.eqb_refl.
Qed.

Lemma broadcast_shapes_same s : torch.broadcast_shapes s s = Some s.
Proof.
  unfold torch.broadcast_shapes.
  rewrite <- (app_nil_r (rev s)) at 2.
  rewrite broadcast_rev_prefix_r, app_nil_r. simpl. now rewrite rev_involutive.
Qed.

Lemma broadcast_shapes_one_r s :
  torch.broadcast_shapes s (1%nat :: s) = Some (1%nat :: s).
Proof.
  unfold torch.broadcast_shapes. simpl.
  rewrite broadcast_rev_prefix_r. simpl.
  now rewrite rev_app_distr, rev_involutive.
Qed.

Lemma broadcast_shapes_one_l s :
  torch.broadcast_shapes (1%nat :: s) s = Some (1%nat :: s).
Proof.
  unfold torch.broadcast_shapes. simpl.
  rewrite broadcast_rev_prefix_l. simpl.
  now rewrite rev_app_distr, rev_involutive.
Qed.

Lemma expand_same s : forall d,
  length d = numel s -> torch.expand s s d = d.
Proof.
  induction s as [|n s IH]; intros d H; simpl; [reflexivity|].
  rewrite Nat.eqb_refl. simpl in H. unfold chunks.
  destruct (Nat.eq_dec (numel s) 0) as [E|E].
  - rewrite E in *. rewrite Nat.mul_0_r in H.
    destruct d; [reflexivity | discriminate].
  - rewrite H, Nat.div_mul by exact E.
    rewrite flat_map_concat_map, map_map.
    rewrite (map_ext _ (block 0 (numel s) d)).
    + rewrite <- flat_map_concat_map. now apply flat_map_block.
    + intros k. apply IH, sized_block.
Qed.

Lemma expand_to_same o t :
  wf t -> shape t = o -> torch.expand_to o t = data t.
Proof.
  intros H <-. unfold torch.expand_to, torch.pad.
  rewrite Nat.sub_diag. simpl. now apply expand_same.
Qed.

Lemma expand_to_one o t :
  wf t -> o = 1%nat :: shape t -> torch.expand_to o t = data t.
Proof.
  intros H ->. unfold torch.expand_to, torch.pad. simpl length.
  replace (S (length (shape t)) - length (shape t))%nat with 1%nat by lia.
  simpl repeat. simpl app. apply expand_same. simpl. rewrite H. lia.
Qed.

Lemma broadcast_lift B1 B2 B K g h :
  bcompat B1 B2 B -> sized (numel K) g -> sized (numel K) h ->
  torch.broadcast_shapes (B1 ++ K) (B2 ++ K) = Some (B ++ K) /\
  torch.expand_to (B ++ K) (lift B1 K g) = flat_map g (seq 0 (numel B)) /\
  torch.expand_to (B ++ K) (lift B2 K h) = flat_map h (seq 0 (numel B)).
Proof.
  intros HB Hg Hh.
  pose proof (wf_lift B1 K g Hg) as W1.
  pose proof (wf_lift B2 K h Hh) as W2.
  destruct HB; simpl app.
  - rewrite broadcast_shapes_same, !expand_to_same; auto.
  - rewrite broadcast_shapes_one_r, expand_to_one, expand_to_same; auto.
  - rewrite broadcast_shapes_one_l.
    rewrite (expand_to_same _ (lift [1%nat] K g)) by auto.
    rewrite (expand_to_one _ (lift [] K h)); auto.
Qed.

Lemma zipWith_flat_map {C : Type} (f : R -> R -> C) c g h s N :
  sized c g -> sized c h ->
  zipWith f (flat_map g (seq s N)) (flat_map h (seq s N)) =
  flat_map (fun k => zipWith f (g k) (h k)) (seq s N).
Proof.
  intros Hg Hh. revert s; induction N as [|N IH]; intros s; simpl; auto.
  rewrite zipWith_app by now rewrite Hg, Hh.
  now rewrite IH.
Qed.

Lemma map2_lift f B1 B2 B K g h :
  bcompat B1 B2 B -> sized (numel K) g -> sized (numel K) h ->
  torch.map2 f (lift B1 K g) (lift B2 K h) =
  Ok (lift B K (fun k => zipWith f (g k) (h k))).
Proof.
  intros HB Hg Hh.
  destruct (broadcast_lift _ _ _ _ _ _ HB Hg Hh) as (E1 & E2 & E3).
  unfold torch.map2. simpl shape. rewrite E1, E2, E3.
  now rewrite (zipWith_flat_map f _ _ _ _ _ Hg Hh).
Qed.

Lemma map1_lift f B K g :
  torch.map1 f (lift B K g) = lift B K (fun k => map f (g k)).
Proof.
  unfold torch.map1, lift. simpl. f_equal.
  rewrite !flat_map_concat_map, concat_map, map_map. reflexivity.
Qed.

Lemma all_eq_lift B1 B2 B K g h :
  bcompat B1 B2 B -> sized (numel K) g -> sized (numel K) h ->
  (forall k, (k < numel B)%nat -> g k = h k) ->
  torch.all_eq (lift B1 K g) (lift B2 K h) = Ok true.
Proof.
  intros HB Hg Hh E.
  destruct (broadcast_lift _ _ _ _ _ _ HB Hg Hh) as (E1 & E2 & E3).
  unfold torch.all_eq. simpl shape. rewrite E1, E2, E3. f_equal.
  rewrite (zipWith_flat_map _ _ _ _ _ _ Hg Hh).
  apply forallb_forall. intros b Hb.
  apply in_flat_map in Hb as (k & Hk & Hb). apply in_seq in Hk.
  rewrite E in Hb by lia. clear - Hb.
  induction (h k) as [|x l IH]; simpl in Hb; [contradiction|].
  destruct Hb as [Hb|Hb]; auto.
  destruct (Req_dec_T x x); congruence.
Qed.

(** *** Selection, stacking, transposition *)

Lemma select_lift i n B g :
  sized n g -> (i < n)%nat ->
  torch.select i (lift B [n] g) = Ok (lift B [] (fun k => [nth i (g k) 0])).
Proof.
  intros Hg Hi. unfold torch.select. simpl shape.
  rewrite rev_app_distr. simpl rev. simpl app. cbv iota beta.
  apply Nat.ltb_lt in Hi as Hi'. rewrite Hi'.
  unfold lift. rewrite rev_involutive, app_nil_r. simpl data.
  rewrite (chunks_flat_map n g Hg) by lia.
  now rewrite map_map, flat_map_singleton.
Qed.

Lemma select2_lift i j m n B g :
  sized (m * n) g -> (i < m)%nat -> (j < n)%nat ->
  torch.select2 i j (lift B [m; n] g) =
  Ok (lift B [] (fun k => [nth (i * n + j) (g k) 0])).
Proof.
  intros Hg Hi Hj. unfold torch.select2. simpl shape.
  rewrite rev_app_distr. simpl rev. simpl app. cbv iota beta.
  apply Nat.ltb_lt in Hi as Hi'. apply Nat.ltb_lt in Hj as Hj'.
  rewrite Hi', Hj'. simpl andb.
  unfold lift. rewrite rev_involutive, app_nil_r. simpl data.
  rewrite (chunks_flat_map (m * n) g Hg) by nia.
  now rewrite map_map, flat_map_singleton.
Qed.

Lemma unbind_lift n B g :
  sized n g -> (0 < n)%nat ->
  torch.unbind (lift B [n] g) =
  Ok (map (fun i => lift B [] (fun k => [nth i (g k) 0])) (seq 0 n)).
Proof.
  intros Hg Hn. unfold torch.unbind. simpl shape.
  rewrite rev_app_distr. simpl rev. simpl app. cbv iota beta. f_equal.
  apply map_ext. intros i.
  unfold lift. rewrite rev_involutive, app_nil_r. simpl data.
  rewrite (chunks_flat_map n g Hg) by lia.
  now rewrite map_map, flat_map_singleton.
Qed.

Lemma transpose_maps {A : Type} (gs : list (nat -> A)) (l : list nat) n :
  n = length l ->
  torch.transpose n (map (fun g => map g l) gs) =
  map (fun k => map (fun g => g k) gs) l.
Proof.
  intros ->. unfold torch.transpose.
  induction gs as [|g gs IH]; simpl.
  - induction l; simpl; congruence.
  - rewrite IH. apply zipWith_map.
Qed.

Lemma forallb_shape_lift B K gs s :
  s = B ++ K ->
  forallb (fun t => list_eqb (shape t) s) (map (lift B K) gs) = true.
Proof.
  intros ->. induction gs; simpl; auto.
  now rewrite list_eqb_refl.
Qed.

Lemma stack_lift B K g0 gs :
  Forall (sized (numel K)) (g0 :: gs) -> (0 < numel K)%nat ->
  torch.stack (length K) (map (lift B K) (g0 :: gs)) =
  Ok (lift B (length (g0 :: gs) :: K)
        (fun k => flat_map (fun g => g k) (g0 :: gs))).
Proof.
  intros Hs Hc. unfold torch.stack.
  change (map (lift B K) (g0 :: gs)) with (lift B K g0 :: map (lift B K) gs)
    at 1.
  cbv iota beta.
  change (lift B K g0 :: map (lift B K) gs)
    with (map (lift B K) (g0 :: gs)).
  rewrite forallb_shape_lift by reflexivity.
  unfold ndim. simpl shape.
  assert ((length K <=? length (B ++ K))%nat = true) as ->
    by (apply Nat.leb_le; rewrite length_app; lia).
  rewrite lead_app, lastn_app, length_map.
  unfold lift at 2. f_equal. f_equal.
  rewrite map_map.
  rewrite (map_ext_in _ (fun g => map g (seq 0 (numel B)))).
  - rewrite transpose_maps by now rewrite length_seq.
    rewrite flat_map_concat_map, map_map.
    rewrite <- flat_map_concat_map.
    apply flat_map_ext. intros k. now rewrite flat_map_concat_map.
  - intros g Hg. simpl data. apply chunks_flat_map; [|exact Hc].
    rewrite Forall_forall in Hs. now apply Hs.
Qed.

Lemma stack3_scalars B x y z :
  torch.stack 0 [lift B [] (fun k => [x k]); lift B [] (fun k => [y k]);
                 lift B [] (fun k => [z k])] =
  Ok (lift B [3%nat] (fun k => [x k; y k; z k])).
Proof.
  apply (stack_lift B [] (fun k => [x k])
           [fun k => [y k]; fun k => [z k]]).
  - repeat constructor.
  - simpl. lia.
Qed.

Lemma stack3_rows B r1 r2 r3 :
  sized 3 r1 -> sized 3 r2 -> sized 3 r3 ->
  torch.stack 1 [lift B [3%nat] r1; lift B [3%nat] r2; lift B [3%nat] r3] =
  Ok (lift B [3; 3]%nat (fun k => r1 k ++ r2 k ++ r3 k)).
Proof.
  intros H1 H2 H3.
  etransitivity.
  - apply (stack_lift B [3%nat] r1 [r2; r3]).
    + repeat constructor; assumption.
    + simpl. lia.
  - f_equal. apply lift_ext. intros k _. simpl. now rewrite app_nil_r.
Qed.

Lemma transpose_last2_lift B g :
  sized 9 g ->
  torch.transpose_last2 (lift B [3; 3]%nat g) =
  Ok (lift B [3; 3]%nat (fun k => mat_transpose (g k))).
Proof.
  intros Hg. unfold torch.transpose_last2. simpl shape.
  rewrite rev_app_distr. simpl rev at 1. simpl app at 1. cbv iota beta.
  f_equal. unfold lift. f_equal.
  - simpl rev. now rewrite rev_involutive, <- app_assoc.
  - simpl data. change (3 * 3)%nat with 9%nat.
    rewrite (chunks_flat_map 9 g Hg) by lia.
    rewrite flat_map_concat_map, map_map, <- flat_map_concat_map.
    reflexivity.
Qed.

Lemma reshape_lift B K K' g :
  numel K' = numel K ->
  torch.reshape (B ++ K') (lift B K g) = Ok (lift B K' g).
Proof.
  intros H. unfold torch.reshape. simpl shape.
  rewrite !numel_app, H, Nat.eqb_refl. reflexivity.
Qed.

(** ** The two products *)

Ltac side HB :=
  first [ exact HB | assumption | constructor | lia | (intro; reflexivity) ].

Ltac map2_steps HB :=
  repeat (erewrite map2_lift by side HB; cbn [bind zipWith]).

Lemma rot_matmul_lift B1 B2 B g h :
  bcompat B1 B2 B -> sized 9 g -> sized 9 h ->
  rot_matmul (lift B1 [3; 3]%nat g) (lift B2 [3; 3]%nat h) =
  Ok (lift B [3; 3]%nat (fun k => mat_mul (g k) (h k))).
Proof.
  intros HB Hg Hh. unfold rot_matmul, stack, lift2, tens.
  cbn [bind sequence].
  rewrite !select2_lift by (assumption || lia).
  cbn [bind]. map2_steps HB.
  rewrite !stack3_scalars. cbn [bind].
  rewrite stack3_rows by (intro; reflexivity).
  reflexivity.
Qed.

Lemma rot_vec_mul_lift B1 B2 B g v :
  bcompat B1 B2 B -> sized 9 g -> sized 3 v ->
  rot_vec_mul (lift B1 [3; 3]%nat g) (lift B2 [3%nat] v) =
  Ok (lift B [3%nat] (fun k => mat_vec (g k) (v k))).
Proof.
  intros HB Hg Hh. unfold rot_vec_mul, stack, lift2, tens.
  cbn [bind sequence].
  rewrite !select_lift by (assumption || lia).
  cbn [bind sequence].
  rewrite !select2_lift by (assumption || lia).
  cbn [bind]. map2_steps HB.
  rewrite !stack3_scalars.
  reflexivity.
Qed.

Lemma sized_mat_mul g h : sized 9 (fun k => mat_mul (g k) (h k)).
Proof. intro; reflexivity. Qed.

Lemma sized_mat_vec g v : sized 3 (fun k => mat_vec (g k) (v k)).
Proof. intro; reflexivity. Qed.

Lemma bcompat_absorb B1 B2 B :
  bcompat B1 B2 B ->
  bcompat B B1 B /\ bcompat B B2 B /\ bcompat B1 B B /\ bcompat B2 B B.
Proof. intros []; repeat split; constructor. Qed.

(** ** Construction *)

Lemma new_ok r t B :
  shape r = B ++ [3; 3]%nat -> shape t = B ++ [3%nat] ->
  T.new r t = Ok (T.mk r t).
Proof.
  intros Hr Ht. unfold T.new, T.__init__. cbn [bind T.rots T.trans].
  rewrite Hr, Ht.
  rewrite lastn2_app, lead2_app, lead1_app, rev_app_distr.
  simpl. now rewrite list_eqb_refl.
Qed.

Lemma new_tlift B1 B2 m v :
  B1 = B2 ->
  T.new (lift B1 [3; 3]%nat m) (lift B2 [3%nat] v) = Ok (tlift B1 m v).
Proof. intros <-. now apply new_ok with (B := B1). Qed.

Lemma valid_tlift B m v : sized 9 m -> sized 3 v -> valid B (tlift B m v).
Proof.
  intros Hm Hv. repeat split; simpl; try reflexivity; now apply wf_lift.
Qed.

Lemma valid_lift B t :
  valid B t ->
  exists m v,
    t = tlift B (fun k => matrix (m k)) (fun k => vector (v k)).
Proof.
  destruct t as [r t]. intros (Wr & Wt & Sr & St). simpl in *.
  exists (fun k i j => nth (k * 9 + (3 * i + j)) (data r) 0).
  exists (fun k i => nth (k * 3 + i) (data t) 0).
  unfold tlift.
  rewrite (lift_of r B [3; 3]%nat Wr Sr) at 1.
  rewrite (lift_of t B [3%nat] Wt St) at 1.
  reflexivity.
Qed.

Lemma mat_lift B m k :
  sized 9 m -> (k < numel B)%nat -> mat (lift B [3; 3]%nat m) k = m k.
Proof. intros Hm Hk. now apply (block_lift B [3; 3]%nat). Qed.

Lemma vec_lift B v k :
  sized 3 v -> (k < numel B)%nat -> vec (lift B [3%nat] v) k = v k.
Proof. intros Hv Hk. now apply (block_lift B [3%nat]). Qed.

(** ** The operations of [T] on batches *)

Section Operations.
Variables B1 B2 B : list nat.
Variables m1 v1 m2 v2 : nat -> list R.
Hypothesis HB : bcompat B1 B2 B.
Hypothesis Hm1 : sized 9 m1.
Hypothesis Hv1 : sized 3 v1.
Hypothesis Hm2 : sized 9 m2.
Hypothesis Hv2 : sized 3 v2.

Lemma compose_lift :
  T.compose (tlift B1 m1 v1) (tlift B2 m2 v2) =
  Ok (tlift B (fun k => mat_mul (m1 k) (m2 k))
            (fun k => zipWith Rplus (mat_vec (m1 k) (v2 k)) (v1 k))).
Proof.
  destruct (bcompat_absorb _ _ _ HB) as (A1 & A2 & A3 & A4).
  unfold T.compose, tlift, lift2, tens. cbn [T.rots T.trans bind].
  rewrite (rot_matmul_lift B1 B2 B) by assumption. cbn [bind].
  rewrite (rot_vec_mul_lift B1 B2 B) by assumption. cbn [bind].
  rewrite (map2_lift _ B B1 B) by (assumption || apply sized_mat_vec).
  cbn [bind]. now apply new_tlift.
Qed.

Lemma add_lift :
  T.add (tlift B1 m1 v1) (tlift B2 m2 v2) =
  Ok (tlift B (fun k => mat_mul (m1 k) (m2 k))
            (fun k => zipWith Rplus (v2 k) (v1 k))).
Proof.
  destruct (bcompat_absorb _ _ _ HB) as (A1 & A2 & A3 & A4).
  unfold T.add, tlift, lift2, tens. cbn [T.rots T.trans bind].
  rewrite (rot_matmul_lift B1 B2 B) by assumption. cbn [bind].
  assert (bcompat B2 B1 B) as HB' by (destruct HB; constructor).
  rewrite (map2_lift _ B2 B1 B) by assumption.
  cbn [bind]. now apply new_tlift.
Qed.

Lemma apply_lift :
  T.apply (tlift B1 m1 v1) (lift B2 [3%nat] v2) =
  Ok (lift B [3%nat]
        (fun k => zipWith Rplus (mat_vec (m1 k) (v2 k)) (v1 k))).
Proof.
  destruct (bcompat_absorb _ _ _ HB) as (A1 & A2 & A3 & A4).
  unfold T.apply, tlift, lift2, tens. cbn [T.rots T.trans bind].
  rewrite (rot_vec_mul_lift B1 B2 B) by assumption. cbn [bind].
  now rewrite (map2_lift _ B B1 B) by (assumption || apply sized_mat_vec).
Qed.

Lemma invert_apply_lift :
  T.invert_apply (tlift B1 m1 v1) (lift B2 [3%nat] v2) =
  Ok (lift B [3%nat]
        (fun k => mat_vec (mat_transpose (m1 k)) (zipWith Rminus (v2 k) (v1 k)))).
Proof.
  destruct (bcompat_absorb _ _ _ HB) as (A1 & A2 & A3 & A4).
  unfold T.invert_apply, tlift, lift2, tens. cbn [T.rots T.trans bind].
  assert (bcompat B2 B1 B) as HB' by (destruct HB; constructor).
  rewrite (map2_lift _ B2 B1 B) by assumption. cbn [bind].
  rewrite transpose_last2_lift by assumption. cbn [bind].
  rewrite (rot_vec_mul_lift B1 B B); try assumption; try reflexivity.
  - intro; reflexivity.
  - intro k. rewrite length_zipWith; now rewrite Hv2.
Qed.

Lemma invert_lift :
  T.invert (tlift B1 m1 v1) =
  Ok (tlift B1 (fun k => mat_transpose (m1 k))
            (fun k => map (Rmult (-1)) (mat_vec (mat_transpose (m1 k)) (v1 k)))).
Proof.
  unfold T.invert, tlift, lift1, tens. cbn [T.rots T.trans bind].
  rewrite transpose_last2_lift by assumption. cbn [bind].
  rewrite (rot_vec_mul_lift B1 B1 B1);
    try assumption; try constructor; try (intro; reflexivity).
  cbn [bind]. rewrite map1_lift. now apply new_tlift.
Qed.
End Operations.

(** ** Arithmetic of matrices and vectors *)

Ltac lists :=
  cbv [mat_mul mat_vec mat_transpose mat_id matrix vector entry coord sum3
       vec_add vec_sub vec_scale dot cross column det
       zipWith map nth Nat.mul Nat.add Nat.eqb].

Lemma cons_eq {A : Type} (x y : A) l l' :
  x = y -> l = l' -> x :: l = y :: l'.
Proof. congruence. Qed.

(** Two lists of the same length are equal when [tac] proves their
    elements equal. *)
Ltac each tac :=
  repeat (apply cons_eq; [tac|]); try reflexivity.

Lemma valid_quarter_turn : valid [] quarter_turn.
Proof. repeat split. Qed.

Lemma valid_two_turns : valid [2%nat] two_turns.
Proof. repeat split. Qed.

(** ** Composition *)

(** C2: for transforms [outer] and [inner] of the same batch shape,
    [compose] returns the transform whose rotation is the matrix product
    of the two rotations and whose translation is the rotation of [outer]
    applied to the translation of [inner], plus the translation of
    [outer]. *)
Theorem compose_rotation_translation B outer inner :
  valid B outer -> valid B inner ->
  exists r,
    T.compose outer inner = Ok r /\ valid B r /\
    forall k, (k < numel B)%nat ->
      mat (T.rots r) k =
        mat_mul (mat (T.rots outer) k) (mat (T.rots inner) k) /\
      vec (T.trans r) k =
        vec_add (mat_vec (mat (T.rots outer) k) (vec (T.trans inner) k))
                (vec (T.trans outer) k).
Proof.
  intros Ho Hi.
  destruct (valid_lift _ _ Ho) as (m1 & v1 & ->).
  destruct (valid_lift _ _ Hi) as (m2 & v2 & ->).
  eexists. split; [|split].
  - apply compose_lift; try constructor; intro; reflexivity.
  - apply valid_tlift; intro; reflexivity.
  - intros k Hk. unfold tlift. cbn [T.rots T.trans].
    rewrite !mat_lift, !vec_lift by (try assumption; intro; reflexivity).
    split; reflexivity.
Qed.

Lemma compose_rotation_translation_witness :
  valid [2%nat] two_turns /\
  exists r,
    T.compose two_turns two_turns = Ok r /\ valid [2%nat] r /\
    forall k, (k < numel [2%nat])%nat ->
      mat (T.rots r) k =
        mat_mul (mat (T.rots two_turns) k) (mat (T.rots two_turns) k) /\
      vec (T.trans r) k =
        vec_add (mat_vec (mat (T.rots two_turns) k)
                         (vec (T.trans two_turns) k))
                (vec (T.trans two_turns) k).
Proof.
  split; [exact valid_two_turns|].
  apply (compose_rotation_translation [2%nat] two_turns two_turns);
    exact valid_two_turns.
Defined.

(** ** Inversion *)

Lemma point_lift B p :
  wf p -> shape p = B ++ [3%nat] ->
  exists v, p = lift B [3%nat] (fun k => vector (v k)).
Proof.
  intros W S. exists (fun k i => nth (k * 3 + i) (data p) 0).
  rewrite (lift_of p B [3%nat] W S) at 1. reflexivity.
Qed.

(** C6: [invert_apply], which subtracts the translation and multiplies by
    the transposed rotation, gives the same point as applying the inverse
    transform. *)
Theorem invert_apply_is_apply_invert B t p :
  valid B t -> wf p -> shape p = B ++ [3%nat] ->
  exists ti q,
    T.invert t = Ok ti /\
    T.invert_apply t p = Ok q /\
    T.apply ti p = Ok q /\
    forall k, (k < numel B)%nat ->
      vec q k =
        mat_vec (mat_transpose (mat (T.rots t) k))
                (vec_sub (vec p k) (vec (T.trans t) k)).
Proof.
  intros Ht Wp Sp.
  destruct (valid_lift _ _ Ht) as (m & v & ->).
  destruct (point_lift _ _ Wp Sp) as (x & ->).
  do 2 eexists. split; [|split; [|split]].
  - apply invert_lift; intro; reflexivity.
  - apply (invert_apply_lift B B B); try constructor; intro; reflexivity.
  - rewrite (apply_lift B B B); try constructor; try (intro; reflexivity).
    f_equal. apply lift_ext. intros k _. lists. each ltac:(ring).
  - intros k Hk. unfold tlift. cbn [T.rots T.trans].
    rewrite mat_lift, !vec_lift by (try assumption; intro; reflexivity).
    reflexivity.
Qed.

Lemma invert_apply_is_apply_invert_witness :
  valid [] quarter_turn /\ wf point_123 /\
  shape point_123 = [] ++ [3%nat] /\
  exists ti q,
    T.invert quarter_turn = Ok ti /\
    T.invert_apply quarter_turn point_123 = Ok q /\
    T.apply ti point_123 = Ok q /\
    forall k, (k < numel [])%nat ->
      vec q k =
        mat_vec (mat_transpose (mat (T.rots quarter_turn) k))
                (vec_sub (vec point_123 k) (vec (T.trans quarter_turn) k)).
Proof.
  split; [exact valid_quarter_turn|].
  split; [reflexivity|]. split; [reflexivity|].
  apply (invert_apply_is_apply_invert [] quarter_turn point_123);
    [exact valid_quarter_turn | reflexivity | reflexivity].
Defined.

Lemma round_trip_entries (m : nat -> nat -> R) (v p : nat -> R) :
  mat_mul (mat_transpose (matrix m)) (matrix m) = mat_id ->
  zipWith Rplus
    (mat_vec (mat_transpose (matrix m))
       (zipWith Rplus (mat_vec (matrix m) (vector p)) (vector v)))
    (map (Rmult (-1)) (mat_vec (mat_transpose (matrix m)) (vector v))) =
  vector p.
Proof.
  lists. intros H.
  injection H as H00 H01 H02 H10 H11 H12 H20 H21 H22.
  each ltac:(nsatz).
Qed.

(** C1: the inverse of a transform has the transposed rotation and the
    translation [- transpose(rotation) . translation]; when the rotation is
    orthonormal, applying the transform and then its inverse gives the
    point back, exactly. *)
Theorem invert_round_trip B t p :
  valid B t ->
  (forall k, (k < numel B)%nat -> orthonormal (mat (T.rots t) k)) ->
  wf p -> shape p = B ++ [3%nat] ->
  exists ti q,
    T.invert t = Ok ti /\ valid B ti /\
    (forall k, (k < numel B)%nat ->
       mat (T.rots ti) k = mat_transpose (mat (T.rots t) k) /\
       vec (T.trans ti) k =
         vec_scale (-1)
           (mat_vec (mat_transpose (mat (T.rots t) k))
                    (vec (T.trans t) k))) /\
    T.apply t p = Ok q /\
    T.apply ti q = Ok p.
Proof.
  intros Ht Horth Wp Sp.
  destruct (valid_lift _ _ Ht) as (m & v & ->).
  destruct (point_lift _ _ Wp Sp) as (x & ->).
  do 2 eexists. split; [|split; [|split; [|split]]].
  - apply invert_lift; intro; reflexivity.
  - apply valid_tlift; intro; reflexivity.
  - intros k Hk. unfold tlift. cbn [T.rots T.trans].
    rewrite !mat_lift, !vec_lift by (try assumption; intro; reflexivity).
    split; reflexivity.
  - apply (apply_lift B B B); try constructor; intro; reflexivity.
  - rewrite (apply_lift B B B); try constructor; try (intro; reflexivity).
    f_equal. apply lift_ext. intros k Hk.
    apply round_trip_entries.
    specialize (Horth k Hk). unfold tlift in Horth. cbn [T.rots] in Horth.
    rewrite mat_lift in Horth by (try assumption; intro; reflexivity).
    apply Horth.
Qed.

Lemma orthonormal_quarter_turn k :
  (k < numel [])%nat -> orthonormal (mat (T.rots quarter_turn) k).
Proof.
  intros Hk. assert (k = 0%nat) as -> by (simpl in Hk; lia).
  split; cbv [quarter_turn T.rots mat block data seq]; lists;
    each ltac:(ring).
Qed.

Lemma invert_round_trip_witness :
  valid [] quarter_turn /\
  (forall k, (k < numel [])%nat ->
     orthonormal (mat (T.rots quarter_turn) k)) /\
  wf point_123 /\ shape point_123 = [] ++ [3%nat] /\
  exists ti q,
    T.invert quarter_turn = Ok ti /\ valid [] ti /\
    (forall k, (k < numel [])%nat ->
       mat (T.rots ti) k = mat_transpose (mat (T.rots quarter_turn) k) /\
       vec (T.trans ti) k =
         vec_scale (-1)
           (mat_vec (mat_transpose (mat (T.rots quarter_turn) k))
                    (vec (T.trans quarter_turn) k))) /\
    T.apply quarter_turn point_123 = Ok q /\
    T.apply ti q = Ok point_123.
Proof.
  split; [exact valid_quarter_turn|].
  split; [exact orthonormal_quarter_turn|].
  split; [reflexivity|]. split; [reflexivity|].
  apply (invert_round_trip [] quarter_turn point_123);
    [ exact valid_quarter_turn | exact orthonormal_quarter_turn
    | reflexivity | reflexivity ].
Defined.

(** ** [add] *)

Lemma lift_inj B K g h :
  sized (numel K) g -> sized (numel K) h ->
  lift B K g = lift B K h ->
  forall k, (k < numel B)%nat -> g k = h k.
Proof.
  intros Hg Hh E k Hk.
  rewrite <- (block_lift B K g k Hg Hk), E. now apply block_lift.
Qed.

(** C9: [add] multiplies the rotations as [compose] does but adds the two
    translations without rotating the second: its result is the result of
    [compose] exactly when the rotation of the first transform leaves the
    translation of the second unchanged. *)
Theorem add_translation_not_rotated B a b :
  valid B a -> valid B b ->
  exists r c Rb,
    T.add a b = Ok r /\ T.compose a b = Ok c /\
    rot_vec_mul (T.rots a) (T.trans b) = Ok Rb /\
    valid B r /\
    (forall k, (k < numel B)%nat ->
       mat (T.rots r) k = mat_mul (mat (T.rots a) k) (mat (T.rots b) k) /\
       vec (T.trans r) k = vec_add (vec (T.trans b) k) (vec (T.trans a) k)) /\
    T.rots r = T.rots c /\
    (r = c <-> Rb = T.trans b).
Proof.
  intros Ha Hb.
  destruct (valid_lift _ _ Ha) as (m1 & v1 & ->).
  destruct (valid_lift _ _ Hb) as (m2 & v2 & ->).
  do 3 eexists. split; [|split; [|split; [|split; [|split; [|split]]]]].
  - apply (add_lift B B B); try constructor; intro; reflexivity.
  - apply (compose_lift B B B); try constructor; intro; reflexivity.
  - apply (rot_vec_mul_lift B B B); try constructor; intro; reflexivity.
  - apply valid_tlift; intro; reflexivity.
  - intros k Hk. unfold tlift. cbn [T.rots T.trans].
    rewrite !mat_lift, !vec_lift by (try assumption; intro; reflexivity).
    split; reflexivity.
  - reflexivity.
  - unfold tlift. cbn [T.trans]. split; intros E.
    + apply (f_equal T.trans) in E. cbn [T.trans] in E.
      apply lift_ext. intros k Hk.
      apply (lift_inj B [3%nat]) with (k := k) in E;
        try assumption; try (intro; reflexivity).
      revert E. lists. intros E. injection E as E0 E1 E2.
      each ltac:(lra).
    + f_equal. apply lift_ext. intros k Hk.
      apply (lift_inj B [3%nat]) with (k := k) in E;
        try assumption; try (intro; reflexivity).
      revert E. lists. intros E. injection E as E0 E1 E2.
      each ltac:(lra).
Qed.

Lemma add_translation_not_rotated_witness :
  valid [] quarter_turn /\ valid [] quarter_turn /\
  exists r c Rb,
    T.add quarter_turn quarter_turn = Ok r /\
    T.compose quarter_turn quarter_turn = Ok c /\
    rot_vec_mul (T.rots quarter_turn) (T.trans quarter_turn) = Ok Rb /\
    valid [] r /\
    (forall k, (k < numel [])%nat ->
       mat (T.rots r) k =
         mat_mul (mat (T.rots quarter_turn) k)
                 (mat (T.rots quarter_turn) k) /\
       vec (T.trans r) k =
         vec_add (vec (T.trans quarter_turn) k)
                 (vec (T.trans quarter_turn) k)) /\
    T.rots r = T.rots c /\
    (r = c <-> Rb = T.trans quarter_turn).
Proof.
  split; [exact valid_quarter_turn|]. split; [exact valid_quarter_turn|].
  apply (add_translation_not_rotated [] quarter_turn quarter_turn);
    exact valid_quarter_turn.
Defined.

(** ** The identity transform *)

Lemma numel_ones n : numel (repeat 1%nat n) = 1%nat.
Proof. induction n; simpl; lia. Qed.

Lemma broadcast_rev_ones l :
  torch.broadcast_rev (repeat 1%nat (length l)) l = Some l.
Proof.
  induction l as [|b l IH]; simpl; [reflexivity|].
  rewrite IH. destruct b as [|[|b]]; reflexivity.
Qed.

Lemma broadcast_shapes_ones B K :
  torch.broadcast_shapes (repeat 1%nat (length B) ++ K) (B ++ K) =
  Some (B ++ K).
Proof.
  unfold torch.broadcast_shapes. rewrite !rev_app_distr, rev_repeat.
  assert (forall r l,
            torch.broadcast_rev (r ++ repeat 1%nat (length l)) (r ++ l) =
            Some (r ++ l)) as H.
  { induction r as [|a r IH]; intros l; simpl.
    - apply broadcast_rev_ones.
    - now rewrite IH, Nat.eqb_refl. }
  rewrite <- (length_rev B), H. simpl.
  now rewrite rev_app_distr, !rev_involutive.
Qed.

Lemma concat_repeat_mul {A : Type} (d : list A) n m :
  concat (repeat (concat (repeat d m)) n) = concat (repeat d (n * m)).
Proof.
  induction n as [|n IH]; simpl; [reflexivity|].
  now rewrite IH, repeat_app, concat_app.
Qed.

Lemma flat_map_const {A : Type} (d : list A) s n :
  flat_map (fun _ => d) (seq s n) = concat (repeat d n).
Proof. revert s; induction n; intros s; simpl; congruence. Qed.

Lemma chunks_one c (d : list R) :
  (0 < c)%nat -> length d = c -> chunks 0 c d = [d].
Proof.
  intros Hc Hd. unfold chunks. rewrite Hd, Nat.div_same by lia. simpl.
  rewrite block_first by lia. rewrite <- Hd. now rewrite firstn_all.
Qed.

Lemma expand_ones K d : forall B,
  (0 < numel K)%nat -> length d = numel K ->
  torch.expand (repeat 1%nat (length B) ++ K) (B ++ K) d =
  concat (repeat d (numel B)).
Proof.
  intros B Hc Hd. induction B as [|n B IH].
  - simpl. rewrite app_nil_r. now apply expand_same.
  - cbn [length repeat app torch.expand numel fold_right].
    destruct (Nat.eqb_spec 1 n) as [<-|Hn].
    + rewrite chunks_one by (rewrite numel_app, numel_ones; lia).
      cbn [flat_map]. rewrite IH, app_nil_r. f_equal. f_equal.
      change (fold_right Nat.mul 1%nat B) with (numel B). lia.
    + rewrite IH. apply concat_repeat_mul.
Qed.

Lemma identity_rot_lift B :
  T._identity_rot B = Ok (lift B [3; 3]%nat (fun _ => mat_id)).
Proof.
  unfold T._identity_rot, torch.view, torch.reshape.
  rewrite numel_app, numel_ones. cbn [numel fold_right Nat.mul Nat.add
    Nat.eqb torch.eye3 shape bind].
  unfold torch.expand_keep2, ndim. cbn [shape data].
  rewrite lastn2_app, !length_app, repeat_length, Nat.leb_refl.
  rewrite broadcast_shapes_ones, list_eqb_refl.
  unfold torch.expand_to, torch.pad. cbn [shape data].
  rewrite !length_app, repeat_length, Nat.sub_diag. cbn [repeat app].
  rewrite expand_ones by (simpl; lia).
  unfold lift. now rewrite flat_map_const.
Qed.

Lemma identity_trans_lift B :
  T._identity_trans B = Ok (lift B [3%nat] (fun _ => [0; 0; 0])).
Proof.
  unfold T._identity_trans, torch.zeros, lift. f_equal. f_equal.
  rewrite flat_map_const, numel_app.
  induction (numel B) as [|n IH]; simpl; [reflexivity|].
  simpl in IH. now rewrite IH.
Qed.

Lemma identity_lift B :
  T.identity B = Ok (tlift B (fun _ => mat_id) (fun _ => [0; 0; 0])).
Proof.
  unfold T.identity.
  rewrite identity_rot_lift, identity_trans_lift. cbn [bind].
  now apply new_tlift.
Qed.

Lemma shape_tlift B m v :
  T.shape (tlift B m v) = match B with [] => [1%nat] | _ => B end.
Proof.
  unfold T.shape, tlift, lift. cbn [T.rots shape]. rewrite lead2_app.
  now destruct B.
Qed.

Lemma eq_tlift B1 B2 B m1 v1 m2 v2 :
  bcompat B1 B2 B ->
  sized 9 m1 -> sized 3 v1 -> sized 9 m2 -> sized 3 v2 ->
  (forall k, (k < numel B)%nat -> m1 k = m2 k /\ v1 k = v2 k) ->
  T.__eq__ (tlift B1 m1 v1) (tlift B2 m2 v2) = Ok true.
Proof.
  intros HB Hm1 Hv1 Hm2 Hv2 E. unfold T.__eq__, tlift.
  cbn [T.rots T.trans].
  rewrite (all_eq_lift B1 B2 B [3; 3]%nat) by (auto; intros; now apply E).
  cbn [bind].
  apply (all_eq_lift B1 B2 B [3%nat]); auto. intros; now apply E.
Qed.

(** C7: composing a transform with the identity of its shape, on either
    side, gives a transform that [==] finds pointwise equal to it. *)
Theorem compose_identity B t :
  valid B t ->
  exists i r1 r2,
    T.identity (T.shape t) = Ok i /\
    T.compose t i = Ok r1 /\ T.__eq__ r1 t = Ok true /\
    T.compose i t = Ok r2 /\ T.__eq__ r2 t = Ok true.
Proof.
  intros Ht. destruct (valid_lift _ _ Ht) as (m & v & ->).
  rewrite shape_tlift.
  assert (exists B', bcompat B B' B' /\ bcompat B' B B' /\
                     numel B' = numel B /\
                     match B with [] => [1%nat] | _ => B end = B')
    as (B' & H1 & H2 & HN & ->).
  { destruct B as [|n B].
    - exists [1%nat]. repeat split; constructor.
    - exists (n :: B). repeat split; constructor. }
  do 3 eexists. split; [|split; [|split; [|split]]].
  - apply identity_lift.
  - apply (compose_lift B B' B'); try assumption; intro; reflexivity.
  - apply (eq_tlift B' B B'); try assumption; try (intro; reflexivity).
    intros k Hk. split; lists; each ltac:(ring).
  - apply (compose_lift B' B B'); try assumption; intro; reflexivity.
  - apply (eq_tlift B' B B'); try assumption; try (intro; reflexivity).
    intros k Hk. split; lists; each ltac:(ring).
Qed.

Lemma compose_identity_witness :
  valid [] quarter_turn /\
  exists i r1 r2,
    T.identity (T.shape quarter_turn) = Ok i /\
    T.compose quarter_turn i = Ok r1 /\
    T.__eq__ r1 quarter_turn = Ok true /\
    T.compose i quarter_turn = Ok r2 /\
    T.__eq__ r2 quarter_turn = Ok true.
Proof.
  split; [exact valid_quarter_turn|].
  apply (compose_identity [] quarter_turn). exact valid_quarter_turn.
Defined.

(** ** Indexing and the shape property *)

Lemma index_shape_slices j : forall s,
  (j <= length s)%nat ->
  torch.index_shape (repeat (torch.Slice None None) j) s = Ok s.
Proof.
  induction j as [|j IH]; intros s H; [now destruct s|].
  destruct s as [|n s]; [simpl in H; lia|].
  simpl. rewrite IH by (simpl in H; lia). simpl.
  now rewrite Nat.sub_0_r.
Qed.

Lemma index_shape_app idx : forall B r K j,
  torch.index_shape idx B = Ok r -> (j <= length K)%nat ->
  torch.index_shape (idx ++ repeat (torch.Slice None None) j) (B ++ K) =
  Ok (r ++ K).
Proof.
  induction idx as [|ix idx IH]; intros B r K j H Hj.
  - simpl in H. injection H as <-. simpl app.
    apply index_shape_slices. rewrite length_app. lia.
  - destruct B as [|n B]; [destruct ix; discriminate|].
    destruct ix as [i|a b]; simpl in *.
    + destruct (torch.in_range n i); [|discriminate]. now apply IH.
    + destruct (torch.index_shape idx B) as [r'|] eqn:E; [|discriminate].
      simpl in H. injection H as <-.
      now rewrite (IH B r' K j E Hj).
Qed.

Lemma index_data_length idx : forall s d r,
  length d = numel s -> torch.index_shape idx s = Ok r ->
  length (torch.index_data idx s d) = numel r.
Proof.
  induction idx as [|ix idx IH]; intros s d r Hd H.
  - simpl in H. injection H as <-. destruct s; exact Hd.
  - destruct s as [|n s]; [destruct ix; discriminate|].
    destruct ix as [i|a b]; simpl in H.
    + destruct (torch.in_range n i); [|discriminate].
      simpl. apply IH; [apply sized_block | exact H].
    + destruct (torch.index_shape idx s) as [r'|] eqn:E; [|discriminate].
      simpl in H. injection H as <-. simpl torch.index_data.
      rewrite (length_flat_map_seq (numel r')); [reflexivity|].
      intros k. apply IH; [apply sized_block | exact E].
Qed.

Lemma getitem_valid B B' t idx :
  valid B t -> torch.index_shape idx B = Ok B' ->
  exists r, T.__getitem__ t idx = Ok r /\ valid B' r.
Proof.
  intros (Wr & Wt & Sr & St) H. unfold T.__getitem__, torch.getitem.
  change [torch.Slice None None; torch.Slice None None]
    with (repeat (torch.Slice None None) 2).
  change [torch.Slice None None] with (repeat (torch.Slice None None) 1).
  rewrite Sr, St.
  rewrite (index_shape_app idx B B' [3; 3]%nat 2 H) by (simpl; lia).
  cbn [bind].
  rewrite (index_shape_app idx B B' [3%nat] 1 H) by (simpl; lia).
  cbn [bind]. eexists. split.
  - now apply new_ok with (B := B').
  - repeat split; cbn [T.rots T.trans shape data]; unfold wf;
      cbn [shape data].
    + apply index_data_length; [now rewrite <- Sr|].
      exact (index_shape_app idx B B' [3; 3]%nat 2 H ltac:(simpl; lia)).
    + apply index_data_length; [now rewrite <- St|].
      exact (index_shape_app idx B B' [3%nat] 1 H ltac:(simpl; lia)).
Qed.

Lemma shape_valid B t :
  valid B t -> T.shape t = match B with [] => [1%nat] | _ => B end.
Proof.
  intros (_ & _ & Sr & _). unfold T.shape. rewrite Sr, lead2_app.
  now destruct B.
Qed.

(** C10: [shape] returns the batch dimensions of a transform that has
    some, and the one-element shape [(1,)] for a transform without batch
    dimensions, such as the result of indexing all of them away. *)
Theorem shape_of_unbatched_is_one B t :
  valid B t ->
  (B <> [] -> T.shape t = B) /\
  (B = [] -> T.shape t = [1%nat]) /\
  forall idx,
    torch.index_shape idx B = Ok [] ->
    exists r, T.__getitem__ t idx = Ok r /\ valid [] r /\
              shape (T.rots r) = [3; 3]%nat /\
              shape (T.trans r) = [3%nat] /\
              T.shape r = [1%nat].
Proof.
  intros Ht. split; [|split].
  - intros HB. rewrite (shape_valid B t Ht). now destruct B.
  - intros ->. now rewrite (shape_valid [] t Ht).
  - intros idx H. destruct (getitem_valid B [] t idx Ht H) as (r & E & Hr).
    exists r. split; [exact E|]. split; [exact Hr|].
    destruct Hr as (W1 & W2 & S1 & S2).
    split; [exact S1|]. split; [exact S2|].
    now rewrite (shape_valid [] r) by (repeat split; assumption).
Qed.

Lemma shape_of_unbatched_is_one_witness :
  valid [2%nat] two_turns /\
  ([2%nat] <> [] -> T.shape two_turns = [2%nat]) /\
  ([2%nat] = [] -> T.shape two_turns = [1%nat]) /\
  forall idx,
    torch.index_shape idx [2%nat] = Ok [] ->
    exists r, T.__getitem__ two_turns idx = Ok r /\ valid [] r /\
              shape (T.rots r) = [3; 3]%nat /\
              shape (T.trans r) = [3%nat] /\
              T.shape r = [1%nat].
Proof.
  split; [exact valid_two_turns|].
  apply (shape_of_unbatched_is_one [2%nat] two_turns). exact valid_two_turns.
Defined.

(** Indexing the second transform of [two_turns] leaves no batch
    dimension, and the shape reported is [(1,)]. *)
Example shape_after_indexing :
  exists r, T.__getitem__ two_turns [torch.Int 1] = Ok r /\
            shape (T.rots r) = [3; 3]%nat /\ T.shape r = [1%nat].
Proof.
  destruct (getitem_valid [2%nat] [] two_turns [torch.Int 1]
              valid_two_turns eq_refl) as (r & E & Hr).
  exists r. split; [exact E|].
  split; [apply Hr | exact (shape_valid [] r Hr)].
Qed.

(** The example of the docstring of [__getitem__]: a transform of shape
    (10, 10) indexed by [3, 4:6] has shape (2,). *)
Example getitem_docstring_shape :
  torch.index_shape [torch.Int 3; torch.Slice (Some 4%Z) (Some 6%Z)]
    [10; 10]%nat = Ok [2%nat].
Proof. reflexivity. Qed.

(** ** Errors *)

Lemma lead_lastn {A : Type} k (l : list A) : lead k l ++ lastn k l = l.
Proof. apply firstn_skipn. Qed.

Lemma new_cases r t :
  shape t <> [] ->
  (T.new r t = Ok (T.mk r t) /\
   exists B, shape r = B ++ [3; 3]%nat /\ shape t = B ++ [3%nat]) \/
  (T.new r t = Raise (ValueError "Incorrectly shaped input") /\
   ~ exists B, shape r = B ++ [3; 3]%nat /\ shape t = B ++ [3%nat]).
Proof.
  intros Ht. unfold T.new, T.__init__. cbn [bind T.rots T.trans].
  destruct (list_eqb (lastn 2 (shape r)) [3; 3]%nat) eqn:E1; cbn [negb].
  - apply list_eqb_eq in E1.
    destruct (rev (shape t)) as [|n l] eqn:E2.
    { apply (f_equal (@rev nat)) in E2. rewrite rev_involutive in E2.
      contradiction. }
    assert (shape t = rev l ++ [n]) as St.
    { rewrite <- (rev_involutive (shape t)), E2. reflexivity. }
    destruct (Nat.eqb_spec n 3) as [->|Hn]; cbn [negb orb].
    + destruct (list_eqb (lead 2 (shape r)) (lead 1 (shape t))) eqn:E3;
        cbn [negb].
      * left. split; [reflexivity|]. apply list_eqb_eq in E3.
        exists (lead 1 (shape t)). split.
        -- rewrite <- E3, <- E1. symmetry. apply lead_lastn.
        -- rewrite St at 1. now rewrite St, lead1_app.
      * right. split; [reflexivity|]. intros (B & Sr & St').
        rewrite Sr, St', lead2_app, lead1_app, list_eqb_refl in E3.
        discriminate.
    + right. split; [reflexivity|]. intros (B & Sr & St').
      rewrite St' in St. apply app_inj_tail in St as [_ St]. congruence.
  - right. split; [reflexivity|]. intros (B & Sr & St').
    rewrite Sr, lastn2_app in E1. discriminate.
Qed.

Lemma unsqueeze_shape (s K : list nat) (d d' : Z) :
  (- (Z.of_nat (length s) + 1) <= d <= Z.of_nat (length s))%Z ->
  d' = (if (0 <=? d)%Z then d else d - Z.of_nat (length K))%Z ->
  forall x,
  exists p, (p <= length s)%nat /\
    torch.unsqueeze d' (mkTensor (s ++ K) x) =
    Ok (mkTensor ((firstn p s ++ 1%nat :: skipn p s) ++ K) x) /\
    p = Z.to_nat (if (0 <=? d)%Z then d else d + Z.of_nat (length s) + 1)%Z.
Proof.
  intros Hd -> x.
  exists (Z.to_nat (if (0 <=? d)%Z then d
                    else d + Z.of_nat (length s) + 1)%Z).
  assert (Z.to_nat (if (0 <=? d)%Z then d
                    else d + Z.of_nat (length s) + 1)%Z <= length s)%nat
    as Hp.
  { destruct (Z.leb_spec 0 d); lia. }
  split; [exact Hp|]. split; [|reflexivity].
  unfold torch.unsqueeze, ndim. cbn [shape data].
  rewrite length_app, Nat2Z.inj_add.
  set (n := Z.of_nat (length s)) in *. set (c := Z.of_nat (length K)).
  assert (0 <= c)%Z by (unfold c; lia).
  destruct (Z.leb_spec 0 d) as [H0|H0].
  -
    assert ((- (n + c + 1) <=? d)%Z && (d <=? n + c)%Z = true) as ->
      by (apply andb_true_iff; split; apply Z.leb_le; lia).
    assert ((0 <=? d)%Z = true) as -> by (apply Z.leb_le; lia).
    f_equal. f_equal.
    rewrite firstn_app, skipn_app.
    replace (Z.to_nat d - length s)%nat with 0%nat by lia.
    cbn [firstn skipn]. now rewrite app_nil_r, <- app_assoc.
  - assert ((- (n + c + 1) <=? d - c)%Z && (d - c <=? n + c)%Z = true) as ->
      by (apply andb_true_iff; split; apply Z.leb_le; lia).
    assert ((0 <=? d - c)%Z = false) as -> by (apply Z.leb_gt; lia).
    replace (d - c + (n + c) + 1)%Z with (d + n + 1)%Z by lia.
    f_equal. f_equal.
    rewrite firstn_app, skipn_app.
    replace (Z.to_nat (d + n + 1) - length s)%nat with 0%nat by lia.
    cbn [firstn skipn]. now rewrite app_nil_r, <- app_assoc.
Qed.

Lemma unsqueeze_invalid_dimension B t dim :
  valid B t -> (Z.of_nat (length (T.shape t)) <= dim)%Z ->
  T.unsqueeze t dim = Raise (ValueError "Invalid dimension").
Proof.
  intros _ H. unfold T.unsqueeze.
  apply Z.leb_le in H. now rewrite H.
Qed.

Lemma unsqueeze_returns B t dim :
  valid B t ->
  (- (Z.of_nat (length B) + 1) <= dim < Z.of_nat (length (T.shape t)))%Z ->
  returns (T.unsqueeze t dim).
Proof.
  intros Ht H. pose proof (shape_valid B t Ht) as Hs.
  destruct t as [r t]. destruct Ht as (Wr & Wt & Sr & St).
  cbn [T.rots T.trans] in *.
  assert (- (Z.of_nat (length B) + 1) <= dim <= Z.of_nat (length B))%Z
    as Hd by (rewrite Hs in H; destruct B; simpl length in *; lia).
  unfold T.unsqueeze.
  assert ((Z.of_nat (length (T.shape (T.mk r t))) <=? dim)%Z = false) as ->
    by (apply Z.leb_gt; lia).
  cbn [T.rots T.trans].
  destruct r as [sr dr], t as [st dt]. cbn [shape] in Sr, St. subst sr st.
  destruct (unsqueeze_shape B [3; 3]%nat dim
              (if (0 <=? dim)%Z then dim else (dim - 2)%Z) Hd eq_refl dr)
    as (p & Hp & -> & Ep).
  destruct (unsqueeze_shape B [3%nat] dim
              (if (0 <=? dim)%Z then dim else (dim - 1)%Z) Hd eq_refl dt)
    as (p' & Hp' & -> & Ep').
  cbn [bind]. rewrite <- Ep in Ep'. subst p'.
  eexists. now apply new_ok with (B := firstn p B ++ 1%nat :: skipn p B).
Qed.

(** ** Frames from three points *)

Lemma stack9_scalars B x1 x2 x3 x4 x5 x6 x7 x8 x9 :
  torch.stack 0
    [lift B [] (fun k => [x1 k]); lift B [] (fun k => [x2 k]);
     lift B [] (fun k => [x3 k]); lift B [] (fun k => [x4 k]);
     lift B [] (fun k => [x5 k]); lift B [] (fun k => [x6 k]);
     lift B [] (fun k => [x7 k]); lift B [] (fun k => [x8 k]);
     lift B [] (fun k => [x9 k])] =
  Ok (lift B [9%nat]
        (fun k => [x1 k; x2 k; x3 k; x4 k; x5 k; x6 k; x7 k; x8 k; x9 k])).
Proof.
  apply (stack_lift B [] (fun k => [x1 k])
           [fun k => [x2 k]; fun k => [x3 k]; fun k => [x4 k];
            fun k => [x5 k]; fun k => [x6 k]; fun k => [x7 k];
            fun k => [x8 k]; fun k => [x9 k]]).
  - repeat constructor.
  - simpl. lia.
Qed.

Lemma reshape9 B g :
  torch.reshape (lead 1 (shape (lift B [9%nat] g)) ++ [3; 3]%nat)
    (lift B [9%nat] g) = Ok (lift B [3; 3]%nat g).
Proof.
  unfold lift at 1. cbn [shape]. rewrite lead1_app.
  now apply reshape_lift.
Qed.

Ltac tensor_steps HB :=
  repeat
    (first
       [ erewrite map2_lift by side HB
       | rewrite map1_lift
       | rewrite stack9_scalars
       | rewrite stack3_scalars
       | rewrite reshape9
       | progress unfold sqrt_t, py_sum, stack, item
       | progress cbn [bind zipWith map sequence lift1 lift2 tens fold_left
                       concat zip3 app nth_error] ]).

Ltac frames :=
  cbv [frame_e0 frame_e1 frame_e2 of_columns normalize vec_div reject].

Lemma from_3_points_lift B a o c eps :
  sized 3 a -> sized 3 o -> sized 3 c ->
  T.from_3_points (lift B [3%nat] a) (lift B [3%nat] o) (lift B [3%nat] c)
    eps =
  Ok (tlift B
        (fun k => of_columns (frame_e0 eps (a k) (o k))
                             (frame_e1 eps (a k) (o k) (c k))
                             (frame_e2 eps (a k) (o k) (c k)))
        (fun k => vector (coord (o k)))).
Proof.
  intros Ha Ho Hc. unfold T.from_3_points.
  rewrite !unbind_lift by (assumption || lia).
  cbn [seq].
  tensor_steps (bc_same B).
  rewrite new_tlift by reflexivity. f_equal. unfold tlift. f_equal.
  apply lift_ext. intros k _. frames. lists.
  rewrite !Rplus_0_l. reflexivity.
Qed.

Lemma column_of_columns u v w :
  column (of_columns u v w) 0 = vector (coord u) /\
  column (of_columns u v w) 1 = vector (coord v) /\
  column (of_columns u v w) 2 = vector (coord w).
Proof. repeat split. Qed.

Lemma from_3_points_columns B a o c eps :
  wf a -> shape a = B ++ [3%nat] ->
  wf o -> shape o = B ++ [3%nat] ->
  wf c -> shape c = B ++ [3%nat] ->
  exists r,
    T.from_3_points a o c eps = Ok r /\ valid B r /\
    forall k, (k < numel B)%nat ->
      vec (T.trans r) k = vec o k /\
      column (mat (T.rots r) k) 0 = frame_e0 eps (vec a k) (vec o k) /\
      column (mat (T.rots r) k) 1 =
        frame_e1 eps (vec a k) (vec o k) (vec c k) /\
      column (mat (T.rots r) k) 2 =
        frame_e2 eps (vec a k) (vec o k) (vec c k).
Proof.
  intros Wa Sa Wo So Wc Sc.
  destruct (point_lift _ _ Wa Sa) as (xa & ->).
  destruct (point_lift _ _ Wo So) as (xo & ->).
  destruct (point_lift _ _ Wc Sc) as (xc & ->).
  eexists. split; [|split].
  - apply from_3_points_lift; intro; reflexivity.
  - apply valid_tlift; intro; reflexivity.
  - intros k Hk. unfold tlift. cbn [T.rots T.trans].
    rewrite mat_lift, !vec_lift by (try assumption; intro; reflexivity).
    repeat split.
Qed.

(** The frame of the points (1,0,0), (0,0,0), (0,1,0). *)
Lemma frame_of_example eps :
  0 <= eps ->
  frame_e0 eps [1; 0; 0] [0; 0; 0] = [- / sqrt (1 + eps); 0; 0] /\
  frame_e1 eps [1; 0; 0] [0; 0; 0] [0; 1; 0] = [0; / sqrt (1 + eps); 0] /\
  frame_e2 eps [1; 0; 0] [0; 0; 0] [0; 1; 0] =
    [0; 0; - (/ sqrt (1 + eps) * / sqrt (1 + eps))].
Proof.
  intros He.
  assert (frame_e0 eps [1; 0; 0] [0; 0; 0] = [- / sqrt (1 + eps); 0; 0])
    as E0.
  { frames. lists.
    replace ((0 - 1) * (0 - 1) + (0 - 0) * (0 - 0) + (0 - 0) * (0 - 0) + eps)
      with (1 + eps) by ring.
    each ltac:(unfold Rdiv; ring). }
  assert (frame_e1 eps [1; 0; 0] [0; 0; 0] [0; 1; 0] =
          [0; / sqrt (1 + eps); 0]) as E1.
  { unfold frame_e1. rewrite E0. frames. lists.
    match goal with
    | |- context [sqrt ?x] =>
        lazymatch x with
        | 1 + eps => fail
        | _ => replace x with (1 + eps) by ring
        end
    end.
    each ltac:(unfold Rdiv; ring). }
  split; [exact E0|]. split; [exact E1|].
  unfold frame_e2. rewrite E0, E1. lists. each ltac:(ring).
Qed.

Lemma sqrt_one_plus eps :
  0 <= eps ->
  1 <= sqrt (1 + eps) <= 1 + eps /\ sqrt (1 + eps) * sqrt (1 + eps) = 1 + eps.
Proof.
  intros He.
  assert (sqrt (1 + eps) * sqrt (1 + eps) = 1 + eps) as Hs
    by (apply sqrt_sqrt; lra).
  assert (0 <= sqrt (1 + eps)) as H0 by apply sqrt_pos.
  split; [|exact Hs]. split; nra.
Qed.

Lemma inv_sqrt_one_plus eps :
  0 <= eps ->
  1 - eps <= / sqrt (1 + eps) <= 1 /\
  / sqrt (1 + eps) * / sqrt (1 + eps) = / (1 + eps) /\
  1 - eps <= / (1 + eps) <= 1.
Proof.
  intros He. destruct (sqrt_one_plus eps He) as ((L & U) & Hs).
  set (s := sqrt (1 + eps)) in *.
  assert (s * / s = 1) as Hi by (apply Rinv_r; lra).
  assert (0 < / s) as Hp by (apply Rinv_0_lt_compat; lra).
  assert ((1 + eps) * / (1 + eps) = 1) as Hi' by (apply Rinv_r; lra).
  assert (0 < / (1 + eps)) as Hp' by (apply Rinv_0_lt_compat; lra).
  split; [split; nra|]. split; [|split; nra].
  rewrite <- Hs. rewrite Rinv_mult. reflexivity.
Qed.

Lemma from_3_points_example eps :
  0 <= eps ->
  exists r,
    T.from_3_points point_A point_B point_C eps = Ok r /\
    vec (T.trans r) 0 = [0; 0; 0] /\
    mat (T.rots r) 0 =
      of_columns [- / sqrt (1 + eps); 0; 0] [0; / sqrt (1 + eps); 0]
                 [0; 0; - (/ sqrt (1 + eps) * / sqrt (1 + eps))].
Proof.
  intros He.
  change point_A with (lift [] [3%nat] (fun _ => [1; 0; 0])).
  change point_B with (lift [] [3%nat] (fun _ => [0; 0; 0])).
  change point_C with (lift [] [3%nat] (fun _ => [0; 1; 0])).
  eexists. split; [|split].
  - apply from_3_points_lift; intro; reflexivity.
  - reflexivity.
  - unfold tlift. cbn [T.rots].
    rewrite mat_lift by (try (intro; reflexivity); simpl; lia).
    destruct (frame_of_example eps He) as (-> & -> & ->). reflexivity.
Qed.

(** C5: [from_3_points] returns the transform whose translation is
    [origin] and whose rotation has for columns the three vectors of the
    Gram-Schmidt frame.  For the points (1,0,0), (0,0,0), (0,1,0) and the
    default [eps], the translation is zero, the first basis vector is
    within [eps] of (-1,0,0), and the three basis vectors are orthogonal
    with squared norms within [2 eps] of 1; with [eps = 0] the matrix is
    exactly the rotation of columns (-1,0,0), (0,1,0), (0,0,-1). *)
Theorem from_3_points_frame B a o c eps :
  wf a -> shape a = B ++ [3%nat] ->
  wf o -> shape o = B ++ [3%nat] ->
  wf c -> shape c = B ++ [3%nat] ->
  (exists r,
     T.from_3_points a o c eps = Ok r /\ valid B r /\
     forall k, (k < numel B)%nat ->
       vec (T.trans r) k = vec o k /\
       column (mat (T.rots r) k) 0 = frame_e0 eps (vec a k) (vec o k) /\
       column (mat (T.rots r) k) 1 =
         frame_e1 eps (vec a k) (vec o k) (vec c k) /\
       column (mat (T.rots r) k) 2 =
         frame_e2 eps (vec a k) (vec o k) (vec c k)) /\
  (exists r e0 e1 e2,
     T.from_3_points point_A point_B point_C eps_default = Ok r /\
     vec (T.trans r) 0 = [0; 0; 0] /\
     e0 = column (mat (T.rots r) 0) 0 /\
     e1 = column (mat (T.rots r) 0) 1 /\
     e2 = column (mat (T.rots r) 0) 2 /\
     Rabs (coord e0 0 - -1) <= eps_default /\
     coord e0 1 = 0 /\ coord e0 2 = 0 /\
     dot e0 e1 = 0 /\ dot e0 e2 = 0 /\ dot e1 e2 = 0 /\
     Rabs (dot e0 e0 - 1) <= 2 * eps_default /\
     Rabs (dot e1 e1 - 1) <= 2 * eps_default /\
     Rabs (dot e2 e2 - 1) <= 2 * eps_default) /\
  (exists r,
     T.from_3_points point_A point_B point_C 0 = Ok r /\
     vec (T.trans r) 0 = [0; 0; 0] /\
     mat (T.rots r) 0 = [-1; 0; 0; 0; 1; 0; 0; 0; -1] /\
     rotation (mat (T.rots r) 0)).
Proof.
  intros Wa Sa Wo So Wc Sc.
  split; [now apply from_3_points_columns|]. split.
  - assert (0 <= eps_default) as He by (unfold eps_default; lra).
    assert (eps_default <= 1) as He1 by (unfold eps_default; lra).
    destruct (from_3_points_example eps_default He) as (r & E & Et & Em).
    destruct (inv_sqrt_one_plus eps_default He)
      as ((L & U) & Hq & (L' & U')).
    exists r. do 3 eexists.
    split; [exact E|]. split; [exact Et|].
    do 3 (split; [reflexivity|]).
    rewrite Em. frames. lists. set (q := / sqrt (1 + eps_default)) in *.
    set (w := / (1 + eps_default)) in *.
    assert (q * q * (q * q) = w * w) as Hq4 by (rewrite Hq; ring).
    repeat split; try ring; apply Rabs_le; split; nra.
  - destruct (from_3_points_example 0 (Rle_refl 0)) as (r & E & Et & Em).
    exists r. split; [exact E|]. split; [exact Et|].
    assert (mat (T.rots r) 0 = [-1; 0; 0; 0; 1; 0; 0; 0; -1]) as Em'.
    { rewrite Em, Rplus_0_r, sqrt_1, Rinv_1. frames. lists.
      each ltac:(ring). }
    split; [exact Em'|]. rewrite Em'.
    split; [split|]; lists; try ring; each ltac:(ring).
Qed.

Lemma from_3_points_frame_witness :
  wf point_A /\ shape point_A = [] ++ [3%nat] /\
  wf point_B /\ shape point_B = [] ++ [3%nat] /\
  wf point_C /\ shape point_C = [] ++ [3%nat] /\
  exists r,
    T.from_3_points point_A point_B point_C eps_default = Ok r /\
    valid [] r /\
    forall k, (k < numel [])%nat ->
      vec (T.trans r) k = vec point_B k /\
      column (mat (T.rots r) k) 0 =
        frame_e0 eps_default (vec point_A k) (vec point_B k) /\
      column (mat (T.rots r) k) 1 =
        frame_e1 eps_default (vec point_A k) (vec point_B k)
          (vec point_C k) /\
      column (mat (T.rots r) k) 2 =
        frame_e2 eps_default (vec point_A k) (vec point_B k)
          (vec point_C k).
Proof.
  do 6 (split; [reflexivity|]).
  apply (from_3_points_frame [] point_A point_B point_C eps_default);
    reflexivity.
Defined.

(** ** The transform of a reference backbone *)

Lemma zeros_3x3 B g :
  torch.zeros (shape (lift B [] g) ++ [3; 3]%nat) =
  lift B [3; 3]%nat (fun _ => [0; 0; 0; 0; 0; 0; 0; 0; 0]).
Proof.
  unfold torch.zeros, lift. cbn [shape]. rewrite app_nil_r. f_equal.
  rewrite flat_map_const, numel_app.
  induction (numel B) as [|n IH]; simpl; [reflexivity|].
  simpl in IH. now rewrite IH.
Qed.

Lemma set2_lift i j B x g :
  sized 9 g -> (i < 3)%nat -> (j < 3)%nat ->
  torch.set2 i j (lift B [] (fun k => [x k])) (lift B [3; 3]%nat g) =
  Ok (lift B [3; 3]%nat (fun k => upd (i * 3 + j) (x k) (g k))).
Proof.
  intros Hg Hi Hj. unfold torch.set2.
  assert (wf (lift B [] (fun k => [x k]))) as W
    by (apply wf_lift; intro; reflexivity).
  assert (shape (lift B [] (fun k => [x k])) = B) as S
    by (unfold lift; cbn [shape]; apply app_nil_r).
  assert (data (lift B [] (fun k => [x k])) = map x (seq 0 (numel B))) as D
    by (unfold lift; cbn [data]; apply flat_map_singleton).
  set (v := lift B [] (fun k => [x k])) in *.
  unfold lift. cbn [shape data].
  rewrite rev_app_distr. simpl rev at 1. simpl app at 1. cbv iota beta.
  apply Nat.ltb_lt in Hi as ->. apply Nat.ltb_lt in Hj as ->. cbn [andb].
  rewrite rev_involutive.
  rewrite S, broadcast_shapes_same, list_eqb_refl.
  rewrite expand_to_same by assumption.
  change (3 * 3)%nat with 9%nat.
  rewrite (chunks_flat_map 9 g Hg) by lia.
  rewrite D, zipWith_map.
  now rewrite <- flat_map_concat_map.
Qed.

Lemma fill2_lift i j B c g :
  sized 9 g -> (i < 3)%nat -> (j < 3)%nat ->
  torch.fill2 i j c (lift B [3; 3]%nat g) =
  Ok (lift B [3; 3]%nat (fun k => upd (i * 3 + j) c (g k))).
Proof.
  intros Hg Hi Hj. unfold torch.fill2.
  unfold lift at 1. cbn [shape].
  rewrite rev_app_distr. simpl rev at 1. simpl app at 1. cbv iota beta.
  apply Nat.ltb_lt in Hi as ->. apply Nat.ltb_lt in Hj as ->. cbn [andb].
  unfold lift. cbn [data shape]. change (3 * 3)%nat with 9%nat.
  rewrite (chunks_flat_map 9 g Hg) by lia.
  now rewrite flat_map_concat_map, map_map, <- flat_map_concat_map.
Qed.

Ltac sizes := first [ assumption | lia | (intro; reflexivity) ].

Ltac reference_steps B :=
  repeat
    (first
       [ erewrite map2_lift by side (bc_same B)
       | rewrite map1_lift
       | rewrite select_lift by sizes
       | rewrite zeros_3x3
       | rewrite set2_lift by sizes
       | rewrite fill2_lift by sizes
       | rewrite (rot_matmul_lift B B B) by side (bc_same B)
       | rewrite (rot_vec_mul_lift B B B) by side (bc_same B)
       | rewrite transpose_last2_lift by sizes
       | progress unfold sqrt_t
       | progress cbn [bind zipWith map lift1 lift2 tens upd
                       Nat.mul Nat.add] ]).

(** The third row of the matrix [c2_rots] built by
    [make_transform_from_reference] is never assigned: the two assignments
    that would fill it go to [c1_rots]. *)
Lemma make_transform_from_reference_lift B
    (n ca c : nat -> nat -> R) eps :
  exists N C1 c2 s2 V,
    T.make_transform_from_reference
      (lift B [3%nat] (fun k => vector (n k)))
      (lift B [3%nat] (fun k => vector (ca k)))
      (lift B [3%nat] (fun k => vector (c k))) eps =
    Ok (tlift B
          (fun k =>
             mat_transpose
               (mat_mul (N k)
                  (mat_mul [c2 k; 0; s2 k; 0; 1; 0; 0; 0; 0] (C1 k))))
          V) /\
    sized 3 V.
Proof.
  unfold T.make_transform_from_reference.
  do 5 eexists. split.
  - reference_steps B.
    rewrite new_tlift by reflexivity. reflexivity.
  - intro; reflexivity.
Qed.

(** ** Masks *)

Lemma gather_nil m : torch.gather m [] = [].
Proof. now destruct m. Qed.

Lemma gather_map f m : forall d,
  map f (torch.gather m d) = torch.gather m (map f d).
Proof.
  induction m as [|b m IH]; intros [|x d]; simpl; auto.
  destruct b; simpl; now rewrite IH.
Qed.

Lemma zipWith_nil_r {A B C : Type} (f : A -> B -> C) l :
  zipWith f l [] = [].
Proof. now destruct l. Qed.

Lemma gather_zipWith f m : forall d1 d2,
  zipWith f (torch.gather m d1) (torch.gather m d2) =
  torch.gather m (zipWith f d1 d2).
Proof.
  induction m as [|b m IH]; intros d1 d2.
  - reflexivity.
  - destruct d1 as [|x d1]; [reflexivity|].
    destruct d2 as [|y d2].
    + rewrite gather_nil. apply zipWith_nil_r.
    + simpl. destruct b; simpl; now rewrite IH.
Qed.

Lemma length_gather m : forall d,
  length m = length d ->
  length (torch.gather m d) = length (filter (fun b => b) m).
Proof.
  induction m as [|b m IH]; intros [|x d] H; simpl in *;
    try discriminate; auto.
  destruct b; simpl; rewrite IH; auto.
Qed.

Lemma scatter_gather m : forall w d,
  length m = length w -> length m = length d ->
  torch.scatter m (torch.gather m w) d = choose m w d.
Proof.
  induction m as [|b m IH]; intros [|x w] [|y d] Hw Hd; simpl in *;
    try discriminate; auto.
  destruct b; simpl; rewrite IH; auto.
Qed.

Lemma choose_map {E : Type} (b : E -> bool) (w d : E -> R) l :
  choose (map b l) (map w l) (map d l) =
  map (fun k => if b k then w k else d k) l.
Proof. induction l; simpl; congruence. Qed.

(** ** The errors of the class *)

(** C4 as the code has it: affine.py raises ValueError at construction,
    when both arguments are missing or when the shapes of a rotation and
    of a translation of at least one dimension are not [B + (3, 3)] and
    [B + (3,)], and in [unsqueeze], when the dimension is not below the
    length of the shape; [unsqueeze] with a dimension in range, [compose],
    [add], [apply], [invert_apply] and [invert] on transforms and points of
    one batch shape, [identity], [from_3_points] on points of one batch
    shape, and indexing by integers and slices that the batch shape
    admits, raise nothing. *)
Theorem errors_of_the_transform_class B a b p o c r t dim eps :
  valid B a -> valid B b -> wf p -> shape p = B ++ [3%nat] ->
  wf o -> shape o = B ++ [3%nat] -> wf c -> shape c = B ++ [3%nat] ->
  shape t <> [] ->
  T.__init__ None None =
    Raise (ValueError "Only one of rots and trans can be None") /\
  ((T.new r t = Ok (T.mk r t) /\
    exists B', shape r = B' ++ [3; 3]%nat /\ shape t = B' ++ [3%nat]) \/
   (T.new r t = Raise (ValueError "Incorrectly shaped input") /\
    ~ exists B', shape r = B' ++ [3; 3]%nat /\ shape t = B' ++ [3%nat])) /\
  ((Z.of_nat (length (T.shape a)) <= dim)%Z ->
   T.unsqueeze a dim = Raise (ValueError "Invalid dimension")) /\
  ((- (Z.of_nat (length B) + 1) <= dim < Z.of_nat (length (T.shape a)))%Z ->
   returns (T.unsqueeze a dim)) /\
  returns (T.compose a b) /\ returns (T.add a b) /\
  returns (T.apply a p) /\ returns (T.invert_apply a p) /\
  returns (T.invert a) /\ returns (T.identity B) /\
  returns (T.from_3_points p o c eps) /\
  (forall idx B', torch.index_shape idx B = Ok B' ->
                  returns (T.__getitem__ a idx)).
Proof.
  intros Ha Hb Wp Sp Wo So Wc Sc Ht.
  split; [reflexivity|]. split; [now apply new_cases|].
  split; [now apply unsqueeze_invalid_dimension with (B := B)|].
  split; [now apply unsqueeze_returns|].
  assert (returns (T.from_3_points p o c eps)) as Hf.
  { destruct (from_3_points_columns B p o c eps Wp Sp Wo So Wc Sc)
      as (f & E & _). now exists f. }
  assert (forall idx B', torch.index_shape idx B = Ok B' ->
                         returns (T.__getitem__ a idx)) as Hg.
  { intros idx B' H. destruct (getitem_valid B B' a idx Ha H) as (g & E & _).
    now exists g. }
  destruct (valid_lift _ _ Ha) as (m1 & v1 & ->).
  destruct (valid_lift _ _ Hb) as (m2 & v2 & ->).
  destruct (point_lift _ _ Wp Sp) as (x & ->).
  repeat split; try exact Hf; try exact Hg; eexists.
  - apply (compose_lift B B B); try constructor; intro; reflexivity.
  - apply (add_lift B B B); try constructor; intro; reflexivity.
  - apply (apply_lift B B B); try constructor; intro; reflexivity.
  - apply (invert_apply_lift B B B); try constructor; intro; reflexivity.
  - apply invert_lift; intro; reflexivity.
  - apply identity_lift.
Qed.

Lemma errors_of_the_transform_class_witness :
  valid [2%nat] two_turns /\ valid [2%nat] two_turns /\
  wf (T.trans two_turns) /\
  shape (T.trans two_turns) = [2%nat] ++ [3%nat] /\
  wf two_origins /\ shape two_origins = [2%nat] ++ [3%nat] /\
  wf two_points /\ shape two_points = [2%nat] ++ [3%nat] /\
  shape (T.trans two_turns) <> [] /\
  T.__init__ None None =
    Raise (ValueError "Only one of rots and trans can be None") /\
  ((T.new (T.rots two_turns) (T.trans two_turns) =
      Ok (T.mk (T.rots two_turns) (T.trans two_turns)) /\
    exists B', shape (T.rots two_turns) = B' ++ [3; 3]%nat /\
               shape (T.trans two_turns) = B' ++ [3%nat]) \/
   (T.new (T.rots two_turns) (T.trans two_turns) =
      Raise (ValueError "Incorrectly shaped input") /\
    ~ exists B', shape (T.rots two_turns) = B' ++ [3; 3]%nat /\
                 shape (T.trans two_turns) = B' ++ [3%nat])) /\
  ((Z.of_nat (length (T.shape two_turns)) <= 1)%Z ->
   T.unsqueeze two_turns 1 = Raise (ValueError "Invalid dimension")) /\
  ((- (Z.of_nat (length [2%nat]) + 1) <= 1
    < Z.of_nat (length (T.shape two_turns)))%Z ->
   returns (T.unsqueeze two_turns 1)) /\
  returns (T.compose two_turns two_turns) /\
  returns (T.add two_turns two_turns) /\
  returns (T.apply two_turns (T.trans two_turns)) /\
  returns (T.invert_apply two_turns (T.trans two_turns)) /\
  returns (T.invert two_turns) /\ returns (T.identity [2%nat]) /\
  returns (T.from_3_points (T.trans two_turns) two_origins two_points
             eps_default) /\
  (forall idx B', torch.index_shape idx [2%nat] = Ok B' ->
                  returns (T.__getitem__ two_turns idx)).
Proof.
  split; [exact valid_two_turns|]. split; [exact valid_two_turns|].
  split; [reflexivity|]. split; [reflexivity|].
  split; [reflexivity|]. split; [reflexivity|].
  split; [reflexivity|]. split; [reflexivity|]. split; [discriminate|].
  apply (errors_of_the_transform_class [2%nat] two_turns two_turns
           (T.trans two_turns) two_origins two_points
           (T.rots two_turns) (T.trans two_turns) 1%Z eps_default);
    [ exact valid_two_turns | exact valid_two_turns | reflexivity
    | reflexivity | reflexivity | reflexivity | reflexivity | reflexivity
    | discriminate ].
Defined.

(** C4 as stated fails: [unsqueeze], which is not a constructor, raises a
    ValueError of its own on a well-formed transform: the batch of two
    transforms has a shape of length 1, and dimension 1 is refused. *)
Lemma unsqueeze_raises_on_valid_transform :
  valid [2%nat] two_turns /\
  T.unsqueeze two_turns 1 = Raise (ValueError "Invalid dimension") /\
  ~ returns (T.unsqueeze two_turns 1).
Proof.
  split; [exact valid_two_turns|]. split; [reflexivity|].
  intros (r & E). discriminate E.
Qed.

(** ** Tensors selected by a mask *)

Lemma map2_same f a b :
  shape a = shape b -> wf a -> wf b ->
  torch.map2 f a b = Ok (mkTensor (shape a) (zipWith f (data a) (data b))).
Proof.
  intros S Wa Wb. unfold torch.map2.
  rewrite <- S, broadcast_shapes_same.
  now rewrite !expand_to_same.
Qed.

Lemma length_gather_eq m : forall w1 w2,
  length w1 = length w2 ->
  length (torch.gather m w1) = length (torch.gather m w2).
Proof.
  induction m as [|b m IH]; intros [|x w1] [|y w2] H; simpl in *;
    try discriminate; auto.
  destruct b; simpl; auto.
Qed.

Lemma wf_selected m w : wf (selected m w).
Proof. unfold wf, selected. simpl. lia. Qed.

Lemma masked_select_selected m t :
  torch.bshape m = shape t ->
  torch.masked_select m t = Ok (selected (torch.bdata m) (data t)).
Proof.
  intros S. unfold torch.masked_select. now rewrite S, list_eqb_refl.
Qed.

Lemma map1_selected f m w :
  torch.map1 f (selected m w) = selected m (map f w).
Proof.
  unfold torch.map1, selected. cbn [shape data]. f_equal.
  - f_equal. apply length_gather_eq. now rewrite length_map.
  - apply gather_map.
Qed.

Lemma map2_selected f m w1 w2 :
  length w1 = length w2 ->
  torch.map2 f (selected m w1) (selected m w2) =
  Ok (selected m (zipWith f w1 w2)).
Proof.
  intros H. rewrite map2_same; try apply wf_selected.
  - unfold selected. cbn [shape data].
    rewrite gather_zipWith. f_equal. f_equal. f_equal.
    rewrite <- gather_zipWith, length_zipWith; [reflexivity|].
    now apply length_gather_eq.
  - unfold selected. cbn [shape]. f_equal. now apply length_gather_eq.
Qed.

Lemma masked_assign_selected s mb w t :
  s = shape t ->
  length mb = length w ->
  length mb = length (data t) ->
  torch.masked_assign (torch.mkBool s mb) (selected mb w) t =
  Ok (mkTensor (shape t) (choose mb w (data t))).
Proof.
  intros S Hw Ht. unfold torch.masked_assign. cbn [torch.bshape torch.bdata].
  rewrite S, list_eqb_refl. unfold selected. cbn [shape data].
  rewrite length_gather by assumption. rewrite list_eqb_refl.
  now rewrite scatter_gather.
Qed.

Lemma lift_col B x : lift B [1%nat] (fun k => [x k]) = col B x.
Proof. unfold lift, col. now rewrite flat_map_singleton. Qed.

Lemma abs_lt_col B x c :
  torch.abs_lt (col B x) c =
  torch.mkBool (B ++ [1%nat])
    (map (fun k => if Rlt_dec (Rabs (x k)) c then true else false)
         (seq 0 (numel B))).
Proof. unfold torch.abs_lt, col. cbn [shape data]. now rewrite map_map. Qed.

(** ** Slices, norms and the last dimension *)

Lemma map1_col f B x : torch.map1 f (col B x) = col B (fun k => f (x k)).
Proof. unfold torch.map1, col. cbn [shape data]. now rewrite map_map. Qed.

Lemma empty_like_col junk B x : torch.empty_like junk (col B x) = col B junk.
Proof.
  unfold torch.empty_like, col. cbn [shape data].
  now rewrite length_map, length_seq.
Qed.

Lemma col_ext B x y :
  (forall k, (k < numel B)%nat -> x k = y k) -> col B x = col B y.
Proof.
  intros H. unfold col. f_equal. apply map_ext_in.
  intros k Hk. apply in_seq in Hk. apply H. lia.
Qed.

Lemma norm_last_lift n B g :
  sized n g -> (0 < n)%nat ->
  torch.norm_last (lift B [n] g) = Ok (col B (fun k => norm_of (g k))).
Proof.
  intros Hg Hn. unfold torch.norm_last. simpl shape.
  rewrite rev_app_distr. simpl rev. simpl app. cbv iota beta.
  unfold lift, col. rewrite rev_involutive. simpl data.
  rewrite (chunks_flat_map n g Hg) by lia.
  now rewrite map_map.
Qed.

Lemma slice_last_lift lo hi n B g :
  sized n g -> (0 < n)%nat ->
  torch.slice_last lo hi (lift B [n] g) =
  Ok (lift B [((match hi with None => n | Some h => Nat.min h n end)
               - Nat.min lo n)%nat]
        (fun k =>
           firstn ((match hi with None => n | Some h => Nat.min h n end)
                   - Nat.min lo n)
                  (skipn (Nat.min lo n) (g k)))).
Proof.
  intros Hg Hn. unfold torch.slice_last. simpl shape.
  rewrite rev_app_distr. simpl rev. simpl app. cbv iota beta zeta.
  unfold lift. rewrite rev_involutive. simpl data.
  rewrite (chunks_flat_map n g Hg) by lia.
  now rewrite flat_map_concat_map, map_map, <- flat_map_concat_map.
Qed.

Lemma cat_last_lift n1 n2 B g h :
  sized n1 g -> sized n2 h -> (0 < n1)%nat -> (0 < n2)%nat ->
  torch.cat_last (lift B [n1] g) (lift B [n2] h) =
  Ok (lift B [(n1 + n2)%nat] (fun k => g k ++ h k)).
Proof.
  intros Hg Hh H1 H2. unfold torch.cat_last. simpl shape.
  rewrite !rev_app_distr. simpl rev. simpl app. cbv iota beta.
  rewrite list_eqb_refl. unfold lift. rewrite rev_involutive. simpl data.
  rewrite (chunks_flat_map n1 g Hg), (chunks_flat_map n2 h Hh) by lia.
  now rewrite zipWith_map, <- flat_map_concat_map.
Qed.

Lemma expand_last_1_3 : forall B d,
  length d = numel B ->
  torch.expand (B ++ [1%nat]) (B ++ [3%nat]) d =
  flat_map (fun x => [x; x; x]) d.
Proof.
  induction B as [|n B IH]; intros d H.
  - destruct d as [|x [|y d]]; try discriminate. reflexivity.
  - cbn [app torch.expand]. rewrite Nat.eqb_refl.
    rewrite numel_app. cbn [numel fold_right]. rewrite Nat.mul_1_r.
    change (fold_right Nat.mul 1%nat B) with (numel B).
    cbn [numel fold_right] in H.
    change (fold_right Nat.mul 1%nat B) with (numel B) in H.
    destruct (Nat.eq_dec (numel B) 0) as [E|E].
    + rewrite E in *. rewrite Nat.mul_0_r in H.
      destruct d; [reflexivity | discriminate].
    + unfold chunks. rewrite H, Nat.div_mul by exact E.
      rewrite flat_map_concat_map, map_map.
      rewrite (map_ext _ (fun k => flat_map (fun x => [x; x; x])
                                    (block 0 (numel B) d k))).
      * transitivity (flat_map (fun x => [x; x; x])
                        (flat_map (block 0 (numel B) d) (seq 0 n)));
          [|now rewrite (flat_map_block (numel B) n d H)].
        induction (seq 0 n) as [|k l IHl]; simpl; [reflexivity|].
        now rewrite IHl, flat_map_app.
      * intros k. apply IH, sized_block.
Qed.

Lemma broadcast_shapes_last_1 B :
  torch.broadcast_shapes (B ++ [3%nat]) (B ++ [1%nat]) = Some (B ++ [3%nat]).
Proof.
  unfold torch.broadcast_shapes. rewrite !rev_app_distr. simpl.
  rewrite <- (app_nil_r (rev B)) at 2.
  rewrite broadcast_rev_prefix_r, app_nil_r. simpl.
  now rewrite rev_involutive.
Qed.

Lemma map2_last_1 f B g s :
  sized 3 g ->
  torch.map2 f (lift B [3%nat] g) (col B s) =
  Ok (lift B [3%nat] (fun k => zipWith f (g k) [s k; s k; s k])).
Proof.
  intros Hg. unfold torch.map2.
  assert (wf (lift B [3%nat] g)) as W by now apply wf_lift.
  change (shape (lift B [3%nat] g)) with (B ++ [3%nat]).
  change (shape (col B s)) with (B ++ [1%nat]).
  rewrite broadcast_shapes_last_1, expand_to_same by (auto; reflexivity).
  unfold torch.expand_to, torch.pad, col. cbn [shape data].
  rewrite !length_app, Nat.sub_diag. cbn [repeat app length].
  rewrite expand_last_1_3 by now rewrite length_map, length_seq.
  unfold lift. cbn [data]. f_equal. f_equal.
  rewrite (flat_map_concat_map (fun x : R => [x; x; x])), map_map.
  rewrite <- (flat_map_concat_map (fun k => [s k; s k; s k])).
  apply (zipWith_flat_map f 3); [exact Hg | intro; reflexivity].
Qed.

(** ** The two conversions on batches *)

Lemma data_col B x : data (col B x) = map x (seq 0 (numel B)).
Proof. reflexivity. Qed.

Lemma shape_col B x : shape (col B x) = B ++ [1%nat].
Proof. reflexivity. Qed.

Ltac mask_steps :=
  repeat
    (first
       [ rewrite masked_select_selected by reflexivity
       | rewrite map1_selected
       | rewrite map2_selected by now rewrite !length_map
       | rewrite masked_assign_selected
           by (try reflexivity; unfold col; cbn [data];
               now rewrite !length_map)
       | rewrite map1_col
       | rewrite abs_lt_col
       | rewrite empty_like_col
       | rewrite lift_col
       | rewrite data_col
       | rewrite shape_col
       | rewrite map_map
       | rewrite zipWith_map
       | rewrite choose_map
       | progress unfold torch.bnot
       | progress cbn [bind lift1 lift2 tens torch.bdata
                       torch.bshape shape data] ]).

Lemma axis_angle_to_quat_lift junk B (v : nat -> nat -> R) :
  axis_angle_to_quat junk (lift B [3%nat] (fun k => vector (v k))) =
  Ok (lift B [4%nat] (fun k => aa_to_quat (vector (v k)))).
Proof.
  unfold axis_angle_to_quat.
  rewrite norm_last_lift by (try (intro; reflexivity); lia).
  cbv zeta.
  mask_steps.
  match goal with
  | |- context [mkTensor (B ++ [1%nat]) (map ?f (seq 0 (numel B)))] =>
      change (mkTensor (B ++ [1%nat]) (map f (seq 0 (numel B))))
        with (col B f)
  end.
  rewrite map2_last_1 by (intro; reflexivity). cbn [bind].
  rewrite <- lift_col.
  rewrite cat_last_lift by (try (intro; reflexivity); lia).
  f_equal. apply lift_ext. intros k _.
  unfold aa_to_quat, sin_half_over. lists.
  destruct (Rlt_dec (Rabs (norm_of [v k 0%nat; v k 1%nat; v k 2%nat])) 1e-6);
    reflexivity.
Qed.

Lemma map2_col f B x y :
  torch.map2 f (col B x) (col B y) = Ok (col B (fun k => f (x k) (y k))).
Proof.
  rewrite <- !lift_col.
  rewrite (map2_lift f B B B [1%nat]);
    try constructor; try (intro; reflexivity).
Qed.

Lemma slice_tail_4 B (q : nat -> list R) :
  sized 4 q ->
  torch.slice_last 1 None (lift B [4%nat] q) =
  Ok (lift B [3%nat] (fun k => tl (q k))).
Proof.
  intros Hq. rewrite slice_last_lift by (assumption || lia).
  f_equal. apply lift_ext. intros k _.
  specialize (Hq k).
  destruct (q k) as [|a [|b [|c [|d [|e l]]]]]; try discriminate.
  reflexivity.
Qed.

Lemma slice_head_4 B (q : nat -> list R) :
  sized 4 q ->
  torch.slice_last 0 (Some 1%nat) (lift B [4%nat] q) =
  Ok (col B (fun k => hd 0 (q k))).
Proof.
  intros Hq. rewrite slice_last_lift by (assumption || lia).
  rewrite <- lift_col. f_equal. apply lift_ext. intros k _.
  specialize (Hq k).
  destruct (q k) as [|a [|b [|c [|d [|e l]]]]]; try discriminate.
  reflexivity.
Qed.

Lemma quat_to_axis_angle_lift junk B (q : nat -> list R) :
  sized 4 q ->
  quat_to_axis_angle junk (lift B [4%nat] q) =
  Ok (lift B [3%nat] (fun k => quat_to_aa (q k))).
Proof.
  intros Hq. unfold quat_to_axis_angle.
  assert (sized 3 (fun k => tl (q k))) as Ht.
  { intros k. specialize (Hq k).
    destruct (q k) as [|a [|b [|c [|d [|e l]]]]]; try discriminate.
    reflexivity. }
  rewrite !slice_tail_4, slice_head_4 by assumption. cbn [bind].
  rewrite norm_last_lift by (assumption || lia). cbn [bind lift2 tens].
  rewrite map2_col. cbv zeta.
  mask_steps.
  match goal with
  | |- context [mkTensor (B ++ [1%nat]) (map ?f (seq 0 (numel B)))] =>
      change (mkTensor (B ++ [1%nat]) (map f (seq 0 (numel B))))
        with (col B f)
  end.
  rewrite map2_last_1 by assumption.
  f_equal. apply lift_ext. intros k _.
  unfold quat_to_aa, sin_half_over.
  specialize (Hq k).
  destruct (q k) as [|a [|b [|c [|d [|e l]]]]]; try discriminate.
  cbn [tl hd zipWith map].
  destruct (Rlt_dec (Rabs (2 * atan2 (norm_of [b; c; d]) a)) 1e-6);
    reflexivity.
Qed.

(** ** Angles *)

Lemma sin_lower_bound y : 0 <= y -> y <= PI -> y - y * y * y / 6 <= sin y.
Proof.
  intros H0 H1. destruct (sin_bound y 0 H0 H1) as [H _].
  replace (y - y * y * y / 6) with (sin_approx y (2 * 0 + 1)); [exact H|].
  unfold sin_approx, sin_term. simpl. field.
Qed.

Lemma atan2_pos_x y x : 0 < x -> atan2 y x = atan (y / x).
Proof. intros H. unfold atan2. now destruct (Rlt_dec 0 x). Qed.

Lemma atan2_sin_cos y : 0 < y < PI -> atan2 (sin y) (cos y) = y.
Proof.
  intros [H0 H1]. unfold atan2.
  pose proof PI_RGT_0 as HPI.
  destruct (Rlt_dec 0 (cos y)) as [Hc|Hc].
  - (* y < PI / 2 *)
    assert (y < PI / 2) as Hy.
    { destruct (Rlt_dec y (PI / 2)) as [|Hn]; [assumption|].
      exfalso. apply Rnot_lt_le in Hn.
      destruct (Rle_lt_or_eq_dec _ _ Hn) as [Hlt|Heq].
      - pose proof (cos_lt_0 y Hlt ltac:(lra)). lra.
      - rewrite <- Heq, cos_PI2 in Hc. lra. }
    change (sin y / cos y) with (tan y). apply atan_tan. lra.
  - destruct (Rlt_dec (cos y) 0) as [Hc'|Hc'].
    + assert (PI / 2 < y) as Hy.
      { destruct (Rlt_dec (PI / 2) y) as [|Hn]; [assumption|].
        exfalso. apply Rnot_lt_le in Hn.
        destruct (Rle_lt_or_eq_dec _ _ Hn) as [Hlt|Heq].
        - pose proof (cos_gt_0 y ltac:(lra) Hlt). lra.
        - rewrite Heq, cos_PI2 in Hc'. lra. }
      pose proof (sin_gt_0 y H0 H1) as Hs.
      destruct (Rle_dec 0 (sin y)) as [_|Hn]; [|lra].
      assert (sin y / cos y = tan (y - PI)) as ->.
      { unfold tan.
        replace y with (y - PI + PI) at 1 2 by ring.
        rewrite neg_sin, neg_cos.
        assert (cos (y - PI) <> 0).
        { replace y with (y - PI + PI) in Hc' by ring.
          rewrite neg_cos in Hc'. lra. }
        field. assumption. }
      rewrite atan_tan by lra. ring.
    + assert (cos y = 0) as Hz by lra.
      pose proof (sin_gt_0 y H0 H1) as Hs.
      destruct (Rlt_dec 0 (sin y)) as [_|Hn]; [|lra].
      (* y = PI / 2 *)
      destruct (Rtotal_order y (PI / 2)) as [Hlt|[Heq|Hgt]].
      * pose proof (cos_gt_0 y ltac:(lra) Hlt). lra.
      * now symmetry.
      * pose proof (cos_lt_0 y Hgt ltac:(lra)). lra.
Qed.

Lemma atan_nonneg z : 0 <= z -> 0 <= atan z.
Proof.
  intros [H|<-].
  - rewrite <- atan_0. left. now apply atan_increasing.
  - rewrite atan_0. lra.
Qed.

Lemma atan_le z1 z2 : z1 <= z2 -> atan z1 <= atan z2.
Proof.
  intros [H|<-]; [left; now apply atan_increasing | lra].
Qed.

(** ** Norms *)

Lemma norm_of_3 a b c : norm_of [a; b; c] = sqrt (a * a + b * b + c * c).
Proof. unfold norm_of. simpl. f_equal. ring. Qed.

Lemma norm_of_nonneg v : 0 <= norm_of v.
Proof. apply sqrt_pos. Qed.

Lemma norm_of_square a b c :
  norm_of [a; b; c] * norm_of [a; b; c] = a * a + b * b + c * c.
Proof. rewrite norm_of_3. apply sqrt_sqrt. nra. Qed.

Lemma norm_of_scale a b c s :
  0 <= s -> norm_of [a * s; b * s; c * s] = norm_of [a; b; c] * s.
Proof.
  intros Hs. rewrite !norm_of_3.
  replace (a * s * (a * s) + b * s * (b * s) + c * s * (c * s))
    with ((a * a + b * b + c * c) * (s * s)) by ring.
  rewrite sqrt_mult by nra. now rewrite sqrt_square.
Qed.

Lemma coord_le_norm a b c :
  Rabs a <= norm_of [a; b; c] /\ Rabs b <= norm_of [a; b; c] /\
  Rabs c <= norm_of [a; b; c].
Proof.
  pose proof (norm_of_square a b c) as H.
  pose proof (norm_of_nonneg [a; b; c]) as H0.
  set (x := norm_of [a; b; c]) in *.
  repeat split; apply Rabs_le; split; nra.
Qed.

(** ** The round trip on one vector *)

Lemma sin_half_over_large half angle :
  1e-6 <= angle -> sin_half_over half angle = sin half / angle.
Proof.
  intros H. unfold sin_half_over.
  destruct (Rlt_dec (Rabs angle) 1e-6) as [Hs|_]; [|reflexivity].
  rewrite Rabs_pos_eq in Hs by lra. lra.
Qed.

Lemma sin_half_over_small half angle :
  0 <= angle < 1e-6 ->
  sin_half_over half angle = 0.5 - angle * angle / 48.
Proof.
  intros H. unfold sin_half_over.
  destruct (Rlt_dec (Rabs angle) 1e-6) as [_|Hs]; [reflexivity|].
  rewrite Rabs_pos_eq in Hs by lra. lra.
Qed.

Lemma round_trip_large a b c :
  1e-6 <= norm_of [a; b; c] < 2 * PI ->
  quat_to_aa (aa_to_quat [a; b; c]) = [a; b; c].
Proof.
  intros [Hl Hu]. unfold aa_to_quat, quat_to_aa. cbn [map tl hd].
  set (x := norm_of [a; b; c]) in *. set (h := x * 0.5).
  assert (0 < h < PI) as Hh by (unfold h; lra).
  pose proof (sin_gt_0 h (proj1 Hh) (proj2 Hh)) as Hs.
  rewrite (sin_half_over_large h x Hl).
  assert (0 < sin h / x) as Hpos
    by (apply Rdiv_lt_0_compat; lra).
  rewrite norm_of_scale by lra. fold x.
  replace (x * (sin h / x)) with (sin h) by (field; lra).
  rewrite atan2_sin_cos by exact Hh.
  rewrite sin_half_over_large by (unfold h; lra).
  replace (2 * h) with x by (unfold h; lra).
  each ltac:(field; split; lra).
Qed.

Lemma round_trip_small a b c :
  norm_of [a; b; c] < 1e-6 ->
  exists rho,
    quat_to_aa (aa_to_quat [a; b; c]) = [a * rho; b * rho; c * rho] /\
    1 - 1e-12 <= rho <= 1.
Proof.
  intros Hu. unfold aa_to_quat, quat_to_aa. cbn [map tl hd].
  pose proof (norm_of_nonneg [a; b; c]) as H0.
  set (x := norm_of [a; b; c]) in *. set (h := x * 0.5).
  pose proof PI2_1 as HPI.
  rewrite (sin_half_over_small h x) by lra.
  set (s := 0.5 - x * x / 48).
  assert (0.4 < s <= 0.5) as Hs by (unfold s; nra).
  rewrite norm_of_scale by lra. fold x.
  assert (0 < cos h) as Hc by (apply cos_gt_0; unfold h; lra).
  rewrite atan2_pos_x by exact Hc.
  assert (x * s <= sin h) as Hsin.
  { replace (x * s) with (h - h * h * h / 6) by (unfold s, h; nra).
    apply sin_lower_bound; unfold h; lra. }
  assert (0 <= x * s) as Hxs by nra.
  assert (0 <= atan (x * s / cos h) <= h) as Ha.
  { split.
    - apply atan_nonneg. unfold Rdiv. apply Rmult_le_pos; [lra|].
      left. now apply Rinv_0_lt_compat.
    - rewrite <- (atan_tan h) at 2 by (unfold h; lra).
      apply atan_le. unfold tan, Rdiv.
      apply Rmult_le_compat_r; [|exact Hsin].
      left. now apply Rinv_0_lt_compat. }
  set (h' := atan (x * s / cos h)) in *.
  rewrite (sin_half_over_small h' (2 * h')) by (unfold h in Ha; lra).
  set (s' := 0.5 - 2 * h' * (2 * h') / 48).
  assert (s <= s' <= 0.5) as Hs' by (unfold s, s'; unfold h in Ha; nra).
  assert (s' - s <= 1e-12 * s') as Hd by (unfold s, s'; unfold h in Ha; nra).
  exists (s / s').
  assert (s' * / s' = 1) as Hi by (apply Rinv_r; lra).
  assert (0 < / s') as Hp by (apply Rinv_0_lt_compat; lra).
  split.
  - each ltac:(unfold Rdiv; ring).
  - unfold Rdiv. split; nra.
Qed.

Lemma round_trip_small_tolerance a b c :
  norm_of [a; b; c] < 1e-6 ->
  exists a' b' c',
    quat_to_aa (aa_to_quat [a; b; c]) = [a'; b'; c'] /\
    Rabs (a' - a) <= 1e-18 /\ Rabs (b' - b) <= 1e-18 /\
    Rabs (c' - c) <= 1e-18.
Proof.
  intros Hu. destruct (round_trip_small a b c Hu) as (rho & E & Hr).
  destruct (coord_le_norm a b c) as (Ha & Hb & Hc).
  exists (a * rho), (b * rho), (c * rho). split; [exact E|].
  assert (forall u, Rabs u <= norm_of [a; b; c] ->
                    Rabs (u * rho - u) <= 1e-18) as H.
  { intros u Hu'. unfold Rabs in Hu'.
    destruct (Rcase_abs u) in Hu'; apply Rabs_le; split; nra. }
  auto.
Qed.

(** C8: the two conversions take the factor [sin(angle/2)/angle] from its
    Taylor series [1/2 - angle^2/48] exactly when the absolute value of the
    angle is below 1e-6, and converting an axis-angle vector to a
    quaternion and back gives the vector again: within 1e-18 in each
    coordinate for an angle below 1e-6, and exactly for an angle from 1e-6
    up to two whole turns (excluded), which covers the angles near PI. *)
Theorem axis_angle_quat_round_trip junk1 junk2 B v :
  wf v -> shape v = B ++ [3%nat] ->
  exists q w,
    axis_angle_to_quat junk1 v = Ok q /\
    quat_to_axis_angle junk2 q = Ok w /\
    shape q = B ++ [4%nat] /\ shape w = B ++ [3%nat] /\
    forall k, (k < numel B)%nat ->
      quat q k = aa_to_quat (vec v k) /\
      vec w k = quat_to_aa (quat q k) /\
      (norm_of (vec v k) < 1e-6 ->
       forall i, (i < 3)%nat ->
         Rabs (coord (vec w k) i - coord (vec v k) i) <= 1e-18) /\
      (1e-6 <= norm_of (vec v k) < 2 * PI -> vec w k = vec v k).
Proof.
  intros Wv Sv. destruct (point_lift _ _ Wv Sv) as (x & ->).
  do 2 eexists. split; [|split; [|split; [|split]]].
  - apply axis_angle_to_quat_lift.
  - apply quat_to_axis_angle_lift. intro; reflexivity.
  - reflexivity.
  - reflexivity.
  - intros k Hk.
    assert (quat (lift B [4%nat] (fun k => aa_to_quat (vector (x k)))) k =
            aa_to_quat (vector (x k))) as Eq
      by (apply (block_lift B [4%nat]); [intro; reflexivity | exact Hk]).
    assert (vec (lift B [3%nat]
                   (fun k => quat_to_aa (aa_to_quat (vector (x k))))) k =
            quat_to_aa (aa_to_quat (vector (x k)))) as Ew
      by (apply vec_lift; [intro; reflexivity | exact Hk]).
    rewrite Eq, Ew, vec_lift by (try (intro; reflexivity); exact Hk).
    split; [reflexivity|]. split; [reflexivity|].
    unfold vector. split.
    + intros Hs i Hi.
      destruct (round_trip_small_tolerance _ _ _ Hs)
        as (a' & b' & c' & -> & Ha & Hb & Hc).
      destruct i as [|[|[|i]]]; try lia; assumption.
    + intros Hl. now apply round_trip_large.
Qed.

Lemma axis_angle_quat_round_trip_witness :
  wf turn_3_radians /\ shape turn_3_radians = [] ++ [3%nat] /\
  exists q w,
    axis_angle_to_quat (fun _ => 0) turn_3_radians = Ok q /\
    quat_to_axis_angle (fun _ => 0) q = Ok w /\
    shape q = [] ++ [4%nat] /\ shape w = [] ++ [3%nat] /\
    forall k, (k < numel [])%nat ->
      quat q k = aa_to_quat (vec turn_3_radians k) /\
      vec w k = quat_to_aa (quat q k) /\
      (norm_of (vec turn_3_radians k) < 1e-6 ->
       forall i, (i < 3)%nat ->
         Rabs (coord (vec w k) i - coord (vec turn_3_radians k) i)
         <= 1e-18) /\
      (1e-6 <= norm_of (vec turn_3_radians k) < 2 * PI ->
       vec w k = vec turn_3_radians k).
Proof.
  split; [reflexivity|]. split; [reflexivity|].
  apply (axis_angle_quat_round_trip (fun _ => 0) (fun _ => 0) []
           turn_3_radians); reflexivity.
Defined.

(** The two sample rotations fall on the two sides of the threshold. *)
Lemma norm_turn_3_radians :
  1e-6 <= norm_of (vec turn_3_radians 0) < 2 * PI.
Proof.
  change (vec turn_3_radians 0) with [0; 0; 3].
  rewrite norm_of_3.
  replace (0 * 0 + 0 * 0 + 3 * 3) with (3 * 3) by ring.
  rewrite sqrt_square by lra. pose proof PI2_1. lra.
Qed.

Lemma norm_turn_tiny : norm_of (vec turn_tiny 0) < 1e-6.
Proof.
  change (vec turn_tiny 0) with [0; 0; 1 / 10 ^ 7].
  rewrite norm_of_3.
  replace (0 * 0 + 0 * 0 + 1 / 10 ^ 7 * (1 / 10 ^ 7))
    with (1 / 10 ^ 7 * (1 / 10 ^ 7)) by ring.
  rewrite sqrt_square by lra. lra.
Qed.

(** ** Rotations *)

Lemma det_transpose m : det (mat_transpose m) = det m.
Proof. lists. ring. Qed.

Lemma det_mat_mul a b : det (mat_mul a b) = det a * det b.
Proof. lists. ring. Qed.

Lemma det_zero_row a b c d e f :
  det [a; b; c; d; e; f; 0; 0; 0] = 0.
Proof. lists. ring. Qed.

Lemma rotation_det_one m : rotation m -> det m = 1.
Proof. now intros [_ H]. Qed.

Lemma mat_mul_assoc a b c :
  mat_mul (mat_mul a b) c = mat_mul a (mat_mul b c).
Proof. lists. each ltac:(ring). Qed.

Lemma mat_transpose_mul a b :
  mat_transpose (mat_mul a b) = mat_mul (mat_transpose b) (mat_transpose a).
Proof. lists. each ltac:(ring). Qed.

Lemma mat_mul_id_l m : mat_mul mat_id m = matrix (entry m).
Proof. lists. each ltac:(ring). Qed.

Lemma mat_mul_entries_r a b : mat_mul a (matrix (entry b)) = mat_mul a b.
Proof. reflexivity. Qed.

Lemma mat_mul_entries_l a b : mat_mul (matrix (entry a)) b = mat_mul a b.
Proof. reflexivity. Qed.

Lemma mat_transpose_involutive m :
  mat_transpose (mat_transpose m) = matrix (entry m).
Proof. reflexivity. Qed.

Lemma rotation_mat_id : rotation mat_id.
Proof. split; [split|]; lists; try ring; each ltac:(ring). Qed.

Lemma rotation_transpose m : rotation m -> rotation (mat_transpose m).
Proof.
  intros [[H1 H2] D]. split; [split|].
  - rewrite mat_transpose_involutive, mat_mul_entries_l. exact H2.
  - rewrite mat_transpose_involutive, mat_mul_entries_r. exact H1.
  - now rewrite det_transpose.
Qed.

Lemma rotation_mat_mul a b :
  rotation a -> rotation b -> rotation (mat_mul a b).
Proof.
  intros [[A1 A2] DA] [[B1 B2] DB]. split; [split|].
  - rewrite mat_transpose_mul, mat_mul_assoc.
    rewrite <- (mat_mul_assoc (mat_transpose a) a b), A1.
    now rewrite mat_mul_id_l, mat_mul_entries_r.
  - rewrite mat_transpose_mul, mat_mul_assoc.
    rewrite <- (mat_mul_assoc b (mat_transpose b) (mat_transpose a)), B2.
    now rewrite mat_mul_id_l, mat_mul_entries_r.
  - rewrite det_mat_mul, DA, DB. ring.
Qed.

(** X9: the other constructions of the class keep rotations: the
    identity, the inverse and the composition of transforms whose matrices
    are rotations have rotations for matrices. *)
Lemma identity_invert_compose_rotations B a b :
  valid B a -> valid B b ->
  (forall k, (k < numel B)%nat -> rotation (mat (T.rots a) k)) ->
  (forall k, (k < numel B)%nat -> rotation (mat (T.rots b) k)) ->
  exists i ai c,
    T.identity B = Ok i /\ T.invert a = Ok ai /\ T.compose a b = Ok c /\
    forall k, (k < numel B)%nat ->
      rotation (mat (T.rots i) k) /\ rotation (mat (T.rots ai) k) /\
      rotation (mat (T.rots c) k).
Proof.
  intros Ha Hb Ra Rb.
  destruct (valid_lift _ _ Ha) as (m1 & v1 & ->).
  destruct (valid_lift _ _ Hb) as (m2 & v2 & ->).
  do 3 eexists.
  split; [apply identity_lift|].
  split; [apply invert_lift; intro; reflexivity|].
  split; [apply (compose_lift B B B); try constructor; intro; reflexivity|].
  intros k Hk. specialize (Ra k Hk). specialize (Rb k Hk).
  unfold tlift in *. cbn [T.rots] in *.
  rewrite !mat_lift by (try (intro; reflexivity); exact Hk).
  rewrite mat_lift in Ra, Rb by (try (intro; reflexivity); exact Hk).
  split; [apply rotation_mat_id|].
  split; [now apply rotation_transpose|].
  now apply rotation_mat_mul.
Qed.

(** C3 fails on the code for [make_transform_from_reference]: whatever
    the backbone, the matrix it returns has determinant 0, because the
    third row of [c2_rots] stays zero (its two entries are assigned to
    [c1_rots]); the matrix is not a rotation. *)
Theorem make_transform_from_reference_not_rotation B n ca c eps :
  wf n -> shape n = B ++ [3%nat] ->
  wf ca -> shape ca = B ++ [3%nat] ->
  wf c -> shape c = B ++ [3%nat] ->
  exists r,
    T.make_transform_from_reference n ca c eps = Ok r /\ valid B r /\
    forall k, (k < numel B)%nat ->
      det (mat (T.rots r) k) = 0 /\ ~ rotation (mat (T.rots r) k).
Proof.
  intros Wn Sn Wca Sca Wc Sc.
  destruct (point_lift _ _ Wn Sn) as (xn & ->).
  destruct (point_lift _ _ Wca Sca) as (xca & ->).
  destruct (point_lift _ _ Wc Sc) as (xc & ->).
  destruct (make_transform_from_reference_lift B xn xca xc eps)
    as (N & C1 & c2 & s2 & V & E & HV).
  eexists. split; [exact E|]. split.
  - apply valid_tlift; [intro; reflexivity | exact HV].
  - intros k Hk. unfold tlift. cbn [T.rots].
    rewrite mat_lift by (try (intro; reflexivity); exact Hk).
    assert (det (mat_transpose
                   (mat_mul (N k)
                      (mat_mul [c2 k; 0; s2 k; 0; 1; 0; 0; 0; 0] (C1 k)))) = 0)
      as D.
    { rewrite det_transpose, !det_mat_mul, det_zero_row. ring. }
    split; [exact D|]. intros Hr. apply rotation_det_one in Hr. lra.
Qed.

(** The backbone N = (0,1,0), CA = (0,0,0), C = (1,0,0) with the default
    [eps] of [make_transform_from_reference]. *)
Lemma make_transform_from_reference_not_rotation_witness :
  wf point_C /\ shape point_C = [] ++ [3%nat] /\
  wf point_B /\ shape point_B = [] ++ [3%nat] /\
  wf point_A /\ shape point_A = [] ++ [3%nat] /\
  exists r,
    T.make_transform_from_reference point_C point_B point_A (1 / 10 ^ 20)
      = Ok r /\
    valid [] r /\
    forall k, (k < numel [])%nat ->
      det (mat (T.rots r) k) = 0 /\ ~ rotation (mat (T.rots r) k).
Proof.
  do 6 (split; [reflexivity|]).
  apply (make_transform_from_reference_not_rotation [] point_C point_B
           point_A (1 / 10 ^ 20)); reflexivity.
Defined.

(** ** The group of rigid transforms *)

Lemma tlift_ext B m v m' v' :
  (forall k, (k < numel B)%nat -> m k = m' k /\ v k = v' k) ->
  tlift B m v = tlift B m' v'.
Proof.
  intros H. unfold tlift. f_equal; apply lift_ext; intros k Hk; now apply H.
Qed.

Lemma orthonormal_rows B (m : nat -> nat -> nat -> R) v k :
  (k < numel B)%nat ->
  orthonormal (mat (T.rots (tlift B (fun k => matrix (m k)) v)) k) ->
  orthonormal (matrix (m k)).
Proof.
  intros Hk H. unfold tlift in H. cbn [T.rots] in H.
  rewrite mat_lift in H; [exact H | intro; reflexivity | exact Hk].
Qed.

Ltac sizes9 := first [ assumption | constructor | (intro; reflexivity) ].

(** X1: [compose] is associative: for three transforms of one batch
    shape, composing the first two and then the third gives the same
    transform as composing the first with the composition of the other
    two. *)
Theorem compose_associative B a b c :
  valid B a -> valid B b -> valid B c ->
  exists ab bc r,
    T.compose a b = Ok ab /\ T.compose b c = Ok bc /\
    T.compose ab c = Ok r /\ T.compose a bc = Ok r /\ valid B r.
Proof.
  intros Ha Hb Hc.
  destruct (valid_lift _ _ Ha) as (m1 & v1 & ->).
  destruct (valid_lift _ _ Hb) as (m2 & v2 & ->).
  destruct (valid_lift _ _ Hc) as (m3 & v3 & ->).
  do 3 eexists.
  split; [apply (compose_lift B B B); sizes9|].
  split; [apply (compose_lift B B B); sizes9|].
  split; [apply (compose_lift B B B); sizes9|].
  split; [|apply valid_tlift; intro; reflexivity].
  rewrite (compose_lift B B B) by sizes9.
  f_equal. apply tlift_ext. intros k Hk. split.
  - symmetry. apply mat_mul_assoc.
  - lists. each ltac:(ring).
Qed.

Lemma compose_associative_witness :
  valid [2%nat] two_turns /\
  exists ab bc r,
    T.compose two_turns two_turns = Ok ab /\
    T.compose two_turns two_turns = Ok bc /\
    T.compose ab two_turns = Ok r /\ T.compose two_turns bc = Ok r /\
    valid [2%nat] r.
Proof.
  split; [exact valid_two_turns|].
  apply (compose_associative [2%nat] two_turns two_turns two_turns);
    exact valid_two_turns.
Defined.

(** X2: applying a composition is applying its two parts one after the
    other, the inner transform first:
    [compose(a, b).apply(p) = a.apply(b.apply(p))]. *)
Theorem apply_compose B a b p :
  valid B a -> valid B b -> wf p -> shape p = B ++ [3%nat] ->
  exists c q r,
    T.compose a b = Ok c /\ T.apply b p = Ok q /\
    T.apply a q = Ok r /\ T.apply c p = Ok r.
Proof.
  intros Ha Hb Wp Sp.
  destruct (valid_lift _ _ Ha) as (m1 & v1 & ->).
  destruct (valid_lift _ _ Hb) as (m2 & v2 & ->).
  destruct (point_lift _ _ Wp Sp) as (x & ->).
  do 3 eexists.
  split; [apply (compose_lift B B B); sizes9|].
  split; [apply (apply_lift B B B); sizes9|].
  split; [apply (apply_lift B B B); sizes9|].
  rewrite (apply_lift B B B) by sizes9.
  f_equal. apply lift_ext. intros k Hk.
  lists. each ltac:(ring).
Qed.

Lemma apply_compose_witness :
  valid [] quarter_turn /\ wf point_123 /\
  shape point_123 = [] ++ [3%nat] /\
  exists c q r,
    T.compose quarter_turn quarter_turn = Ok c /\
    T.apply quarter_turn point_123 = Ok q /\
    T.apply quarter_turn q = Ok r /\ T.apply c point_123 = Ok r.
Proof.
  split; [exact valid_quarter_turn|].
  split; [reflexivity|]. split; [reflexivity|].
  apply (apply_compose [] quarter_turn quarter_turn point_123);
    [ exact valid_quarter_turn | exact valid_quarter_turn
    | reflexivity | reflexivity ].
Defined.

Lemma inverse_entries (m : nat -> nat -> R) (v : nat -> R) :
  mat_mul (matrix m) (mat_transpose (matrix m)) = mat_id ->
  zipWith Rplus
    (mat_vec (matrix m)
       (map (Rmult (-1)) (mat_vec (mat_transpose (matrix m)) (vector v))))
    (vector v) = [0; 0; 0].
Proof.
  lists. intros H.
  injection H as H00 H01 H02 H10 H11 H12 H20 H21 H22.
  each ltac:(nsatz).
Qed.

(** X3: a transform whose rotations are orthonormal composed with its
    inverse, on either side, is the identity transform of its batch
    shape. *)
Theorem compose_invert_identity B t :
  valid B t ->
  (forall k, (k < numel B)%nat -> orthonormal (mat (T.rots t) k)) ->
  exists ti i,
    T.invert t = Ok ti /\ T.identity B = Ok i /\
    T.compose t ti = Ok i /\ T.compose ti t = Ok i.
Proof.
  intros Ht Horth.
  destruct (valid_lift _ _ Ht) as (m & v & ->).
  do 2 eexists.
  split; [apply invert_lift; intro; reflexivity|].
  split; [apply identity_lift|].
  split.
  - rewrite (compose_lift B B B) by sizes9.
    f_equal. apply tlift_ext. intros k Hk.
    destruct (orthonormal_rows _ _ _ _ Hk (Horth k Hk))
      as [H1 H2].
    split; [exact H2|]. now apply inverse_entries.
  - rewrite (compose_lift B B B) by sizes9.
    f_equal. apply tlift_ext. intros k Hk.
    destruct (orthonormal_rows _ _ _ _ Hk (Horth k Hk))
      as [H1 H2].
    split; [exact H1|]. lists. each ltac:(ring).
Qed.

Lemma compose_invert_identity_witness :
  valid [] quarter_turn /\
  (forall k, (k < numel [])%nat ->
     orthonormal (mat (T.rots quarter_turn) k)) /\
  exists ti i,
    T.invert quarter_turn = Ok ti /\ T.identity [] = Ok i /\
    T.compose quarter_turn ti = Ok i /\ T.compose ti quarter_turn = Ok i.
Proof.
  split; [exact valid_quarter_turn|].
  split; [exact orthonormal_quarter_turn|].
  apply (compose_invert_identity [] quarter_turn);
    [ exact valid_quarter_turn | exact orthonormal_quarter_turn ].
Defined.

Lemma double_inverse_entries (m : nat -> nat -> R) (v : nat -> R) :
  mat_mul (matrix m) (mat_transpose (matrix m)) = mat_id ->
  map (Rmult (-1))
    (mat_vec (mat_transpose (mat_transpose (matrix m)))
       (map (Rmult (-1)) (mat_vec (mat_transpose (matrix m)) (vector v)))) =
  vector v.
Proof.
  lists. intros H.
  injection H as H00 H01 H02 H10 H11 H12 H20 H21 H22.
  each ltac:(nsatz).
Qed.

(** X4: inverting twice gives the transform back, when its rotations
    are orthonormal. *)
Theorem invert_involutive B t :
  valid B t ->
  (forall k, (k < numel B)%nat -> orthonormal (mat (T.rots t) k)) ->
  exists ti, T.invert t = Ok ti /\ valid B ti /\ T.invert ti = Ok t.
Proof.
  intros Ht Horth.
  destruct (valid_lift _ _ Ht) as (m & v & ->).
  eexists.
  split; [apply invert_lift; intro; reflexivity|].
  split; [apply valid_tlift; intro; reflexivity|].
  rewrite invert_lift by (intro; reflexivity).
  f_equal. apply tlift_ext. intros k Hk.
  destruct (orthonormal_rows _ _ _ _ Hk (Horth k Hk))
    as [H1 H2].
  split; [reflexivity|]. now apply double_inverse_entries.
Qed.

Lemma invert_involutive_witness :
  valid [] quarter_turn /\
  (forall k, (k < numel [])%nat ->
     orthonormal (mat (T.rots quarter_turn) k)) /\
  exists ti,
    T.invert quarter_turn = Ok ti /\ valid [] ti /\
    T.invert ti = Ok quarter_turn.
Proof.
  split; [exact valid_quarter_turn|].
  split; [exact orthonormal_quarter_turn|].
  apply (invert_involutive [] quarter_turn);
    [ exact valid_quarter_turn | exact orthonormal_quarter_turn ].
Defined.

Lemma invert_compose_entries (a b : nat -> nat -> R) (u w : nat -> R) :
  mat_mul (mat_transpose (matrix a)) (matrix a) = mat_id ->
  map (Rmult (-1))
    (mat_vec (mat_transpose (mat_mul (matrix a) (matrix b)))
       (zipWith Rplus (mat_vec (matrix a) (vector w)) (vector u))) =
  zipWith Rplus
    (mat_vec (mat_transpose (matrix b))
       (map (Rmult (-1)) (mat_vec (mat_transpose (matrix a)) (vector u))))
    (map (Rmult (-1)) (mat_vec (mat_transpose (matrix b)) (vector w))).
Proof.
  lists. intros H.
  injection H as H00 H01 H02 H10 H11 H12 H20 H21 H22.
  each ltac:(nsatz).
Qed.

(** X5: the inverse of a composition is the composition of the
    inverses in the other order,
    [invert(compose(a, b)) = compose(invert(b), invert(a))], when the
    rotations of [a] are orthonormal. *)
Theorem invert_compose B a b :
  valid B a -> valid B b ->
  (forall k, (k < numel B)%nat -> orthonormal (mat (T.rots a) k)) ->
  exists ab ai bi r,
    T.compose a b = Ok ab /\ T.invert a = Ok ai /\ T.invert b = Ok bi /\
    T.invert ab = Ok r /\ T.compose bi ai = Ok r.
Proof.
  intros Ha Hb Horth.
  destruct (valid_lift _ _ Ha) as (m1 & v1 & ->).
  destruct (valid_lift _ _ Hb) as (m2 & v2 & ->).
  do 4 eexists.
  split; [apply (compose_lift B B B); sizes9|].
  split; [apply invert_lift; intro; reflexivity|].
  split; [apply invert_lift; intro; reflexivity|].
  split; [apply invert_lift; intro; reflexivity|].
  rewrite (compose_lift B B B) by sizes9.
  f_equal. apply tlift_ext. intros k Hk.
  destruct (orthonormal_rows _ _ _ _ Hk (Horth k Hk))
    as [H1 H2].
  split; [symmetry; apply mat_transpose_mul|].
  symmetry. now apply invert_compose_entries.
Qed.

Lemma invert_compose_witness :
  valid [] quarter_turn /\ valid [] quarter_turn /\
  (forall k, (k < numel [])%nat ->
     orthonormal (mat (T.rots quarter_turn) k)) /\
  exists ab ai bi r,
    T.compose quarter_turn quarter_turn = Ok ab /\
    T.invert quarter_turn = Ok ai /\ T.invert quarter_turn = Ok bi /\
    T.invert ab = Ok r /\ T.compose bi ai = Ok r.
Proof.
  split; [exact valid_quarter_turn|].
  split; [exact valid_quarter_turn|].
  split; [exact orthonormal_quarter_turn|].
  apply (invert_compose [] quarter_turn quarter_turn);
    [ exact valid_quarter_turn | exact valid_quarter_turn
    | exact orthonormal_quarter_turn ].
Defined.

Lemma apply_invert_apply_entries (m : nat -> nat -> R) (v p : nat -> R) :
  mat_mul (matrix m) (mat_transpose (matrix m)) = mat_id ->
  zipWith Rplus
    (mat_vec (matrix m)
       (mat_vec (mat_transpose (matrix m))
          (zipWith Rminus (vector p) (vector v))))
    (vector v) = vector p.
Proof.
  lists. intros H.
  injection H as H00 H01 H02 H10 H11 H12 H20 H21 H22.
  each ltac:(nsatz).
Qed.

Lemma invert_apply_apply_entries (m : nat -> nat -> R) (v p : nat -> R) :
  mat_mul (mat_transpose (matrix m)) (matrix m) = mat_id ->
  mat_vec (mat_transpose (matrix m))
    (zipWith Rminus
       (zipWith Rplus (mat_vec (matrix m) (vector p)) (vector v))
       (vector v)) = vector p.
Proof.
  lists. intros H.
  injection H as H00 H01 H02 H10 H11 H12 H20 H21 H22.
  each ltac:(nsatz).
Qed.

(** X6: [apply] and [invert_apply] of a transform whose rotations are
    orthonormal undo each other, in both orders. *)
Theorem apply_invert_apply_inverse B t p :
  valid B t ->
  (forall k, (k < numel B)%nat -> orthonormal (mat (T.rots t) k)) ->
  wf p -> shape p = B ++ [3%nat] ->
  exists q r,
    T.apply t p = Ok q /\ T.invert_apply t q = Ok p /\
    T.invert_apply t p = Ok r /\ T.apply t r = Ok p.
Proof.
  intros Ht Horth Wp Sp.
  destruct (valid_lift _ _ Ht) as (m & v & ->).
  destruct (point_lift _ _ Wp Sp) as (x & ->).
  do 2 eexists.
  split; [apply (apply_lift B B B); sizes9|].
  split; [|split; [apply (invert_apply_lift B B B); sizes9|]].
  - rewrite (invert_apply_lift B B B) by sizes9.
    f_equal. apply lift_ext. intros k Hk.
    destruct (orthonormal_rows _ _ _ _ Hk (Horth k Hk)) as [H1 H2].
    now apply invert_apply_apply_entries.
  - rewrite (apply_lift B B B) by sizes9.
    f_equal. apply lift_ext. intros k Hk.
    destruct (orthonormal_rows _ _ _ _ Hk (Horth k Hk)) as [H1 H2].
    now apply apply_invert_apply_entries.
Qed.

Lemma apply_invert_apply_inverse_witness :
  valid [] quarter_turn /\
  (forall k, (k < numel [])%nat ->
     orthonormal (mat (T.rots quarter_turn) k)) /\
  wf point_123 /\ shape point_123 = [] ++ [3%nat] /\
  exists q r,
    T.apply quarter_turn point_123 = Ok q /\
    T.invert_apply quarter_turn q = Ok point_123 /\
    T.invert_apply quarter_turn point_123 = Ok r /\
    T.apply quarter_turn r = Ok point_123.
Proof.
  split; [exact valid_quarter_turn|].
  split; [exact orthonormal_quarter_turn|].
  split; [reflexivity|]. split; [reflexivity|].
  apply (apply_invert_apply_inverse [] quarter_turn point_123);
    [ exact valid_quarter_turn | exact orthonormal_quarter_turn
    | reflexivity | reflexivity ].
Defined.

Lemma distance_entries (m : nat -> nat -> R) (v p q : nat -> R) :
  mat_mul (mat_transpose (matrix m)) (matrix m) = mat_id ->
  norm_of
    (vec_sub (zipWith Rplus (mat_vec (matrix m) (vector p)) (vector v))
             (zipWith Rplus (mat_vec (matrix m) (vector q)) (vector v))) =
  norm_of (vec_sub (vector p) (vector q)).
Proof.
  lists. intros H. rewrite !norm_of_3. f_equal.
  injection H as H00 H01 H02 H10 H11 H12 H20 H21 H22.
  nsatz.
Qed.

(** X7: a transform whose rotations are orthonormal keeps the distance
    between two points. *)
Theorem apply_preserves_distances B t p q :
  valid B t ->
  (forall k, (k < numel B)%nat -> orthonormal (mat (T.rots t) k)) ->
  wf p -> shape p = B ++ [3%nat] -> wf q -> shape q = B ++ [3%nat] ->
  exists p' q',
    T.apply t p = Ok p' /\ T.apply t q = Ok q' /\
    forall k, (k < numel B)%nat ->
      norm_of (vec_sub (vec p' k) (vec q' k)) =
      norm_of (vec_sub (vec p k) (vec q k)).
Proof.
  intros Ht Horth Wp Sp Wq Sq.
  destruct (valid_lift _ _ Ht) as (m & v & ->).
  destruct (point_lift _ _ Wp Sp) as (x & ->).
  destruct (point_lift _ _ Wq Sq) as (y & ->).
  do 2 eexists.
  split; [apply (apply_lift B B B); sizes9|].
  split; [apply (apply_lift B B B); sizes9|].
  intros k Hk.
  rewrite !vec_lift by (try exact Hk; intro; reflexivity).
  destruct (orthonormal_rows _ _ _ _ Hk (Horth k Hk)) as [H1 H2].
  now apply distance_entries.
Qed.

Lemma apply_preserves_distances_witness :
  valid [] quarter_turn /\
  (forall k, (k < numel [])%nat ->
     orthonormal (mat (T.rots quarter_turn) k)) /\
  wf point_123 /\ shape point_123 = [] ++ [3%nat] /\
  wf point_A /\ shape point_A = [] ++ [3%nat] /\
  exists p' q',
    T.apply quarter_turn point_123 = Ok p' /\
    T.apply quarter_turn point_A = Ok q' /\
    forall k, (k < numel [])%nat ->
      norm_of (vec_sub (vec p' k) (vec q' k)) =
      norm_of (vec_sub (vec point_123 k) (vec point_A k)).
Proof.
  split; [exact valid_quarter_turn|].
  split; [exact orthonormal_quarter_turn|].
  split; [reflexivity|]. split; [reflexivity|].
  split; [reflexivity|]. split; [reflexivity|].
  apply (apply_preserves_distances [] quarter_turn point_123 point_A);
    [ exact valid_quarter_turn | exact orthonormal_quarter_turn
    | reflexivity | reflexivity | reflexivity | reflexivity ].
Defined.

(** X8: the identity transform leaves every point where it is, by
    [apply] and by [invert_apply], and is its own inverse. *)
Theorem identity_neutral B p :
  wf p -> shape p = B ++ [3%nat] ->
  exists i,
    T.identity B = Ok i /\ valid B i /\
    T.apply i p = Ok p /\ T.invert_apply i p = Ok p /\ T.invert i = Ok i.
Proof.
  intros Wp Sp.
  destruct (point_lift _ _ Wp Sp) as (x & ->).
  eexists.
  split; [apply identity_lift|].
  split; [apply valid_tlift; intro; reflexivity|].
  split; [|split].
  - rewrite (apply_lift B B B) by sizes9.
    f_equal. apply lift_ext. intros k Hk. lists. each ltac:(ring).
  - rewrite (invert_apply_lift B B B) by sizes9.
    f_equal. apply lift_ext. intros k Hk. lists. each ltac:(ring).
  - rewrite invert_lift by (intro; reflexivity).
    f_equal. apply tlift_ext. intros k Hk. split; [reflexivity|].
    lists. each ltac:(ring).
Qed.

Lemma identity_neutral_witness :
  wf point_123 /\ shape point_123 = [] ++ [3%nat] /\
  exists i,
    T.identity [] = Ok i /\ valid [] i /\
    T.apply i point_123 = Ok point_123 /\
    T.invert_apply i point_123 = Ok point_123 /\ T.invert i = Ok i.
Proof.
  split; [reflexivity|]. split; [reflexivity|].
  apply (identity_neutral [] point_123); reflexivity.
Defined.

Lemma rotation_two_turns k :
  (k < numel [2%nat])%nat -> rotation (mat (T.rots two_turns) k).
Proof.
  intros Hk.
  assert (k = 0%nat \/ k = 1%nat) as [-> | ->] by (simpl in Hk; lia);
    (split; [split|]); cbv [two_turns T.rots mat block data seq]; lists;
    try ring; each ltac:(ring).
Qed.

Lemma identity_invert_compose_rotations_witness :
  valid [2%nat] two_turns /\ valid [2%nat] two_turns /\
  (forall k, (k < numel [2%nat])%nat ->
     rotation (mat (T.rots two_turns) k)) /\
  (forall k, (k < numel [2%nat])%nat ->
     rotation (mat (T.rots two_turns) k)) /\
  exists i ai c,
    T.identity [2%nat] = Ok i /\ T.invert two_turns = Ok ai /\
    T.compose two_turns two_turns = Ok c /\
    forall k, (k < numel [2%nat])%nat ->
      rotation (mat (T.rots i) k) /\ rotation (mat (T.rots ai) k) /\
      rotation (mat (T.rots c) k).
Proof.
  split; [exact valid_two_turns|]. split; [exact valid_two_turns|].
  split; [exact rotation_two_turns|]. split; [exact rotation_two_turns|].
  apply (identity_invert_compose_rotations [2%nat] two_turns two_turns);
    [ exact valid_two_turns | exact valid_two_turns
    | exact rotation_two_turns | exact rotation_two_turns ].
Defined.

(** ** Construction with a missing argument *)

(** X10: the constructor fills in the argument that is [None]: a
    transform built from translations alone has the identity matrix for
    every rotation, and one built from rotations alone has the translation
    zero; of a translation without dimension and no rotation it raises
    IndexError, since the last size of the translation is read after the
    rotation is made. *)
Theorem init_missing_argument B r t :
  wf r -> shape r = B ++ [3; 3]%nat -> wf t -> shape t = B ++ [3%nat] ->
  (exists a,
     T.__init__ None (Some t) = Ok a /\ valid B a /\ T.trans a = t /\
     forall k, (k < numel B)%nat -> mat (T.rots a) k = mat_id) /\
  (exists b,
     T.__init__ (Some r) None = Ok b /\ valid B b /\ T.rots b = r /\
     forall k, (k < numel B)%nat -> vec (T.trans b) k = [0; 0; 0]) /\
  (forall s, shape s = [] -> T.__init__ None (Some s) = Raise IndexError).
Proof.
  intros Wr Sr Wt St. split; [|split].
  - exists (T.mk (lift B [3; 3]%nat (fun _ => mat_id)) t).
    split; [|split; [|split]].
    + unfold T.__init__. rewrite St, lead1_app, identity_rot_lift.
      cbn [bind]. apply (new_ok _ _ B); [reflexivity | exact St].
    + repeat split; cbn [T.rots T.trans]; try assumption.
      apply wf_lift. intro; reflexivity.
    + reflexivity.
    + intros k Hk. cbn [T.rots]. apply mat_lift; [intro; reflexivity|exact Hk].
  - exists (T.mk r (lift B [3%nat] (fun _ => [0; 0; 0]))).
    split; [|split; [|split]].
    + unfold T.__init__. rewrite Sr, lead2_app, identity_trans_lift.
      cbn [bind]. apply (new_ok _ _ B); [exact Sr | reflexivity].
    + repeat split; cbn [T.rots T.trans]; try assumption.
      apply wf_lift. intro; reflexivity.
    + reflexivity.
    + intros k Hk. cbn [T.trans]. apply vec_lift; [intro; reflexivity|exact Hk].
  - intros s Hs. unfold T.__init__. rewrite Hs.
    change (lead 1 []) with (@nil nat). rewrite identity_rot_lift.
    cbn [bind T.rots T.trans]. rewrite Hs. reflexivity.
Qed.

Lemma init_missing_argument_witness :
  wf (T.rots two_turns) /\ shape (T.rots two_turns) = [2%nat] ++ [3; 3]%nat /\
  wf (T.trans two_turns) /\ shape (T.trans two_turns) = [2%nat] ++ [3%nat] /\
  (exists a,
     T.__init__ None (Some (T.trans two_turns)) = Ok a /\
     valid [2%nat] a /\ T.trans a = T.trans two_turns /\
     forall k, (k < numel [2%nat])%nat -> mat (T.rots a) k = mat_id) /\
  (exists b,
     T.__init__ (Some (T.rots two_turns)) None = Ok b /\
     valid [2%nat] b /\ T.rots b = T.rots two_turns /\
     forall k, (k < numel [2%nat])%nat -> vec (T.trans b) k = [0; 0; 0]) /\
  (forall s, shape s = [] -> T.__init__ None (Some s) = Raise IndexError).
Proof.
  split; [reflexivity|]. split; [reflexivity|].
  split; [reflexivity|]. split; [reflexivity|].
  apply (init_missing_argument [2%nat] (T.rots two_turns)
           (T.trans two_turns)); reflexivity.
Defined.

(** ** The dimension added by [unsqueeze] *)

Lemma unsqueeze_too_negative (s : list nat) (d : Z) x :
  (d < - (Z.of_nat (length s) + 1))%Z ->
  torch.unsqueeze d (mkTensor s x) = Raise IndexError.
Proof.
  intros H. unfold torch.unsqueeze, ndim. cbn [shape].
  assert ((- (Z.of_nat (length s) + 1) <=? d)%Z = false) as ->
    by (apply Z.leb_gt; lia).
  reflexivity.
Qed.

(** X11: [unsqueeze] with a dimension [dim] between [-(len(B) + 1)] and
    the length of the shape (left out) returns the same rotations and
    translations under the batch shape [B] with a 1 put in at position
    [dim], counted from the end when [dim] is negative, so that -1 adds
    the dimension after the last; below [-(len(B) + 1)] the tensor
    library raises IndexError. *)
Theorem unsqueeze_inserts_dimension B t dim :
  valid B t ->
  ((- (Z.of_nat (length B) + 1) <= dim < Z.of_nat (length (T.shape t)))%Z ->
   exists r,
     T.unsqueeze t dim = Ok r /\
     (let p := Z.to_nat (if (0 <=? dim)%Z then dim
                         else dim + Z.of_nat (length B) + 1)%Z in
      valid (firstn p B ++ 1%nat :: skipn p B) r) /\
     data (T.rots r) = data (T.rots t) /\
     data (T.trans r) = data (T.trans t)) /\
  ((dim < - (Z.of_nat (length B) + 1))%Z ->
   T.unsqueeze t dim = Raise IndexError).
Proof.
  intros Ht. pose proof (shape_valid B t Ht) as Hs.
  destruct t as [r t]. destruct Ht as (Wr & Wt & Sr & St).
  cbn [T.rots T.trans] in *.
  destruct r as [sr dr], t as [st dt]. cbn [shape] in Sr, St. subst sr st.
  split.
  - intros H.
    assert (- (Z.of_nat (length B) + 1) <= dim <= Z.of_nat (length B))%Z
      as Hd by (rewrite Hs in H; destruct B; simpl length in *; lia).
    unfold T.unsqueeze.
    match goal with |- context [(?a <=? dim)%Z] =>
      assert ((a <=? dim)%Z = false) as -> by (apply Z.leb_gt; lia) end.
    cbn [T.rots T.trans].
    destruct (unsqueeze_shape B [3; 3]%nat dim
                (if (0 <=? dim)%Z then dim else (dim - 2)%Z) Hd eq_refl dr)
      as (p & Hp & -> & Ep).
    destruct (unsqueeze_shape B [3%nat] dim
                (if (0 <=? dim)%Z then dim else (dim - 1)%Z) Hd eq_refl dt)
      as (p' & Hp' & -> & Ep').
    cbn [bind]. rewrite <- Ep in Ep'. subst p'. rewrite <- Ep.
    eexists. split;
      [now apply new_ok with (B := firstn p B ++ 1%nat :: skipn p B)|].
    cbn [T.rots T.trans data]. split; [|split; reflexivity].
    cbv zeta. unfold wf in *. cbn [shape data] in *.
    assert (numel (firstn p B ++ 1%nat :: skipn p B) = numel B) as E.
    { rewrite <- (firstn_skipn p B) at 3. rewrite !numel_app.
      simpl numel. lia. }
    repeat split; unfold wf; cbn [T.rots T.trans shape data].
    + rewrite Wr, (numel_app B),
        (numel_app (firstn p B ++ 1%nat :: skipn p B)), E. reflexivity.
    + rewrite Wt, (numel_app B),
        (numel_app (firstn p B ++ 1%nat :: skipn p B)), E. reflexivity.
  - intros H. unfold T.unsqueeze.
    match goal with |- context [(?a <=? dim)%Z] =>
      assert ((a <=? dim)%Z = false) as -> by (apply Z.leb_gt; lia) end.
    cbn [T.rots T.trans].
    assert ((0 <=? dim)%Z = false) as -> by (apply Z.leb_gt; lia).
    rewrite unsqueeze_too_negative; [reflexivity|].
    rewrite length_app. simpl length. lia.
Qed.

Lemma unsqueeze_inserts_dimension_witness :
  valid [2%nat] two_turns /\
  (- (Z.of_nat (length [2%nat]) + 1) <= -1
   < Z.of_nat (length (T.shape two_turns)))%Z /\
  (exists r,
     T.unsqueeze two_turns (-1) = Ok r /\
     (let p := Z.to_nat (if (0 <=? -1)%Z then -1
                         else -1 + Z.of_nat (length [2%nat]) + 1)%Z in
      valid (firstn p [2%nat] ++ 1%nat :: skipn p [2%nat]) r) /\
     data (T.rots r) = data (T.rots two_turns) /\
     data (T.trans r) = data (T.trans two_turns)) /\
  (-3 < - (Z.of_nat (length [2%nat]) + 1))%Z /\
  T.unsqueeze two_turns (-3) = Raise IndexError.
Proof.
  split; [exact valid_two_turns|].
  split; [simpl; lia|].
  split.
  - apply (unsqueeze_inserts_dimension [2%nat] two_turns (-1));
      [exact valid_two_turns | simpl; lia].
  - split; [simpl; lia|].
    apply (unsqueeze_inserts_dimension [2%nat] two_turns (-3));
      [exact valid_two_turns | simpl; lia].
Defined.

(** ** The elements that indexing selects *)

Lemma index_data_slices j : forall s d,
  length d = numel s -> (j <= length s)%nat ->
  torch.index_data (repeat (torch.Slice None None) j) s d = d.
Proof.
  induction j as [|j IH]; intros s d Hd Hj; [now destruct s|].
  destruct s as [|n s]; [simpl in Hj; lia|].
  cbn [repeat torch.index_data torch.slice_lo torch.slice_hi].
  rewrite Nat.sub_0_r.
  rewrite (flat_map_ext _ (block 0 (numel s) d)).
  - apply flat_map_block. exact Hd.
  - intros k. apply IH; [apply sized_block | simpl in Hj; lia].
Qed.

Lemma nth_block c (d : list R) j q :
  (q < c)%nat -> nth q (block 0 c d j) 0 = nth (j * c + q) d 0.
Proof.
  intros Hq. unfold block.
  rewrite (nth_indep _ 0 ((fun p => nth (j * c + p) d 0) 0%nat))
    by now rewrite length_map, length_seq.
  rewrite (map_nth (fun p => nth (j * c + p) d 0)), seq_nth by exact Hq.
  reflexivity.
Qed.

Lemma block_block c N (d : list R) j k :
  (k < N)%nat ->
  block 0 c (block 0 (N * c) d j) k = block 0 c d (j * N + k).
Proof.
  intros Hk. unfold block at 1 3. apply map_ext_in. intros p Hp.
  apply in_seq in Hp. rewrite nth_block by nia. f_equal. nia.
Qed.

Lemma index_shape_too_many idx : forall s,
  (length s < length idx)%nat ->
  torch.index_shape idx s = Raise IndexError.
Proof.
  induction idx as [|ix idx IH]; intros s H; [simpl in H; lia|].
  destruct s as [|n s]; [now destruct ix|].
  destruct ix as [i|a b]; simpl.
  - destruct (torch.in_range n i); [|reflexivity].
    apply IH. simpl in H. lia.
  - rewrite IH by (simpl in H; lia). reflexivity.
Qed.

(** X12: indexing a batch of transforms by an integer [i] in range gives
    the transforms at position [i] of the first batch dimension, counted
    from the end when [i] is negative. *)
Theorem getitem_integer n B t i :
  valid (n :: B) t -> torch.in_range n i = true ->
  exists r,
    T.__getitem__ t [torch.Int i] = Ok r /\ valid B r /\
    forall k, (k < numel B)%nat ->
      mat (T.rots r) k = mat (T.rots t) (torch.position n i * numel B + k) /\
      vec (T.trans r) k = vec (T.trans t) (torch.position n i * numel B + k).
Proof.
  intros Ht Hi.
  assert (torch.index_shape [torch.Int i] (n :: B) = Ok B) as HB
    by (simpl; now rewrite Hi).
  destruct (getitem_valid _ _ _ _ Ht HB) as (r & Hr & Vr).
  exists r. split; [exact Hr|]. split; [exact Vr|].
  destruct Ht as (Wr & Wt & Sr & St).
  unfold T.__getitem__, torch.getitem in Hr.
  rewrite Sr, St in Hr. cbn [app] in Hr.
  change [torch.Slice None None; torch.Slice None None]
    with (repeat (torch.Slice None None) 2) in Hr.
  change [torch.Slice None None]
    with (repeat (torch.Slice None None) 1) in Hr.
  cbn [torch.index_shape] in Hr. rewrite Hi in Hr.
  rewrite (index_shape_slices 2), (index_shape_slices 1) in Hr
    by (rewrite length_app; simpl; lia).
  cbn [bind torch.index_data] in Hr.
  rewrite (index_data_slices 2), (index_data_slices 1) in Hr
    by (try apply sized_block; rewrite length_app; simpl; lia).
  rewrite (new_ok _ _ B) in Hr by reflexivity.
  injection Hr as <-. cbn [T.rots T.trans]. intros k Hk.
  unfold mat, vec. cbn [data]. rewrite !numel_app.
  change (numel [3; 3]%nat) with 9%nat. change (numel [3%nat]) with 3%nat.
  split; now apply block_block.
Qed.

Lemma getitem_integer_witness :
  valid [2%nat] two_turns /\ torch.in_range 2 (-1) = true /\
  exists r,
    T.__getitem__ two_turns [torch.Int (-1)] = Ok r /\ valid [] r /\
    forall k, (k < numel [])%nat ->
      mat (T.rots r) k =
        mat (T.rots two_turns) (torch.position 2 (-1) * numel [] + k) /\
      vec (T.trans r) k =
        vec (T.trans two_turns) (torch.position 2 (-1) * numel [] + k).
Proof.
  split; [exact valid_two_turns|]. split; [reflexivity|].
  apply (getitem_integer 2 [] two_turns (-1));
    [exact valid_two_turns | reflexivity].
Defined.

(** X13: indexing raises IndexError when there are more indices than
    batch dimensions, as for any index of a transform without batch
    dimension, whose shape reads (1,), and when the first index is an
    integer out of range. *)
Theorem getitem_index_error B t idx :
  valid B t ->
  (length B < length idx)%nat \/
  (exists n B' i idx',
     B = n :: B' /\ idx = torch.Int i :: idx' /\
     torch.in_range n i = false) ->
  T.__getitem__ t idx = Raise IndexError.
Proof.
  intros (Wr & Wt & Sr & St) H. unfold T.__getitem__, torch.getitem.
  rewrite Sr. destruct H as [H | (n & B' & i & idx' & -> & -> & Hi)].
  - rewrite index_shape_too_many; [reflexivity|].
    rewrite !length_app. simpl. lia.
  - simpl. now rewrite Hi.
Qed.

Lemma getitem_index_error_witness :
  valid [] quarter_turn /\
  ((length (@nil nat) < length [torch.Int 0])%nat \/
   (exists n B' i idx',
      [] = n :: B' /\ [torch.Int 0] = torch.Int i :: idx' /\
      torch.in_range n i = false)) /\
  T.shape quarter_turn = [1%nat] /\
  T.__getitem__ quarter_turn [torch.Int 0] = Raise IndexError.
Proof.
  split; [exact valid_quarter_turn|].
  split; [left; simpl; lia|].
  split; [reflexivity|].
  apply (getitem_index_error [] quarter_turn [torch.Int 0]);
    [exact valid_quarter_turn | left; simpl; lia].
Defined.

(** ** The orientation of the frame of three points *)

Lemma det_of_columns_cross x y :
  det (of_columns x y (cross x y)) = dot (cross x y) (cross x y).
Proof. unfold of_columns. lists. ring. Qed.

Lemma dot_self_nonneg x : 0 <= dot x x.
Proof. lists. nra. Qed.

Lemma rotation_of_frame x y :
  dot x x = 1 -> dot y y = 1 -> dot x y = 0 ->
  rotation (of_columns x y (cross x y)).
Proof.
  unfold rotation, orthonormal, of_columns. lists.
  set (x0 := nth 0 x 0). set (x1 := nth 1 x 0). set (x2 := nth 2 x 0).
  set (y0 := nth 0 y 0). set (y1 := nth 1 y 0). set (y2 := nth 2 y 0).
  intros Hx Hy Hxy.
  split; [split|]; [each ltac:(nsatz) | each ltac:(nsatz) | nsatz].
Qed.

Lemma sq_pos z : z <> 0 -> 0 < z * z.
Proof. intros H. destruct (Rtotal_order z 0) as [L | [E | G]]; nra. Qed.

Lemma frame_dots (u0 u1 u2 w0 w1 w2 : R) :
  [u1 * w2 - u2 * w1; u2 * w0 - u0 * w2; u0 * w1 - u1 * w0] <> [0; 0; 0] ->
  let n0 := sqrt (u0 * u0 + u1 * u1 + u2 * u2 + 0) in
  let x0 := u0 / n0 in let x1 := u1 / n0 in let x2 := u2 / n0 in
  let d := x0 * w0 + x1 * w1 + x2 * w2 in
  let r0 := w0 - x0 * d in let r1 := w1 - x1 * d in let r2 := w2 - x2 * d in
  let n1 := sqrt (r0 * r0 + r1 * r1 + r2 * r2 + 0) in
  x0 * x0 + x1 * x1 + x2 * x2 = 1 /\
  r0 / n1 * (r0 / n1) + r1 / n1 * (r1 / n1) + r2 / n1 * (r2 / n1) = 1 /\
  x0 * (r0 / n1) + x1 * (r1 / n1) + x2 * (r2 / n1) = 0.
Proof.
  intros Hc.
  assert (0 < (u1 * w2 - u2 * w1) * (u1 * w2 - u2 * w1)
              + (u2 * w0 - u0 * w2) * (u2 * w0 - u0 * w2)
              + (u0 * w1 - u1 * w0) * (u0 * w1 - u1 * w0)) as HC.
  { generalize dependent (u1 * w2 - u2 * w1).
    generalize dependent (u2 * w0 - u0 * w2).
    generalize dependent (u0 * w1 - u1 * w0).
    intros p q s Hc.
    pose proof (Rle_0_sqr p) as Hp. pose proof (Rle_0_sqr q) as Hq.
    pose proof (Rle_0_sqr s) as Hs. unfold Rsqr in *.
    destruct (Req_dec s 0) as [E0|N0];
      [destruct (Req_dec q 0) as [E1|N1];
        [destruct (Req_dec p 0) as [E2|N2]|]|].
    - exfalso. apply Hc. now rewrite E0, E1, E2.
    - pose proof (sq_pos _ N2). lra.
    - pose proof (sq_pos _ N1). lra.
    - pose proof (sq_pos _ N0). lra. }
  assert (0 < u0 * u0 + u1 * u1 + u2 * u2) as HU.
  { destruct (Req_dec (u0 * u0 + u1 * u1 + u2 * u2) 0) as [E|N]; [|nra].
    assert (u0 = 0) by nra. assert (u1 = 0) by nra. assert (u2 = 0) by nra.
    subst. lra. }
  intros n0.
  assert (n0 * n0 = u0 * u0 + u1 * u1 + u2 * u2) as Hn0.
  { unfold n0. rewrite Rplus_0_r. apply sqrt_sqrt. lra. }
  assert (0 < n0) as Pn0.
  { unfold n0. rewrite Rplus_0_r. now apply sqrt_lt_R0. }
  intros x0 x1 x2.
  assert (x0 * x0 + x1 * x1 + x2 * x2 = 1) as Hx.
  { unfold x0, x1, x2. field_simplify_eq; [lra | lra]. }
  intros d r0 r1 r2.
  assert (x0 * r0 + x1 * r1 + x2 * r2 = 0) as Hxr.
  { unfold r0, r1, r2, d. clearbody x0 x1 x2. clear - Hx. nsatz. }
  assert ((r0 * r0 + r1 * r1 + r2 * r2) * (n0 * n0) =
          (u1 * w2 - u2 * w1) * (u1 * w2 - u2 * w1)
          + (u2 * w0 - u0 * w2) * (u2 * w0 - u0 * w2)
          + (u0 * w1 - u1 * w0) * (u0 * w1 - u1 * w0)) as Hr.
  { assert (x0 * n0 = u0) as E0 by (unfold x0; field; lra).
    assert (x1 * n0 = u1) as E1 by (unfold x1; field; lra).
    assert (x2 * n0 = u2) as E2 by (unfold x2; field; lra).
    rewrite <- E0, <- E1, <- E2. unfold r0, r1, r2, d.
    clearbody x0 x1 x2. clear - Hx. nsatz. }
  assert (0 < r0 * r0 + r1 * r1 + r2 * r2) as HR.
  { assert (0 < n0 * n0) by nra. clearbody r0 r1 r2. nra. }
  intros n1.
  assert (n1 * n1 = r0 * r0 + r1 * r1 + r2 * r2) as Hn1.
  { unfold n1. rewrite Rplus_0_r. apply sqrt_sqrt. lra. }
  assert (0 < n1) as Pn1.
  { unfold n1. rewrite Rplus_0_r. now apply sqrt_lt_R0. }
  clearbody n1 r0 r1 r2 x0 x1 x2.
  split; [exact Hx|]. split.
  - field_simplify_eq; [lra | lra].
  - field_simplify_eq; [lra | lra].
Qed.

Lemma frame_rotation (a o c : nat -> R) :
  cross (vec_sub (vector o) (vector a)) (vec_sub (vector c) (vector o))
    <> [0; 0; 0] ->
  rotation (of_columns (frame_e0 0 (vector a) (vector o))
              (frame_e1 0 (vector a) (vector o) (vector c))
              (frame_e2 0 (vector a) (vector o) (vector c))).
Proof.
  intros H. unfold frame_e2. 
  pose proof (frame_dots (o 0%nat - a 0%nat) (o 1%nat - a 1%nat)
                (o 2%nat - a 2%nat) (c 0%nat - o 0%nat)
                (c 1%nat - o 1%nat) (c 2%nat - o 2%nat) H) as (H1 & H2 & H3).
  apply rotation_of_frame.
  - exact H1.
  - exact H2.
  - exact H3.
Qed.

Lemma vec_vector B (v : nat -> nat -> R) k :
  (k < numel B)%nat ->
  vec (lift B [3%nat] (fun k => vector (v k))) k = vector (v k).
Proof. intros Hk. apply vec_lift; [intro; reflexivity | exact Hk]. Qed.

Lemma det_sum_squares x y : 0 <= det (of_columns x y (cross x y)).
Proof. rewrite det_of_columns_cross. apply dot_self_nonneg. Qed.

(** X14: the matrix that [from_3_points] returns never has a negative
    determinant, whatever the points and [eps], its third column being
    the cross product of the other two; with [eps = 0] and three points
    that are not on one line it is a rotation matrix, exactly. *)
Theorem from_3_points_orientation B a o c eps :
  wf a -> shape a = B ++ [3%nat] ->
  wf o -> shape o = B ++ [3%nat] ->
  wf c -> shape c = B ++ [3%nat] ->
  exists r,
    T.from_3_points a o c eps = Ok r /\
    forall k, (k < numel B)%nat ->
      0 <= det (mat (T.rots r) k) /\
      (eps = 0 ->
       cross (vec_sub (vec o k) (vec a k)) (vec_sub (vec c k) (vec o k))
         <> [0; 0; 0] ->
       rotation (mat (T.rots r) k)).
Proof.
  intros Wa Sa Wo So Wc Sc.
  destruct (point_lift _ _ Wa Sa) as (a' & ->).
  destruct (point_lift _ _ Wo So) as (o' & ->).
  destruct (point_lift _ _ Wc Sc) as (c' & ->).
  eexists. split; [apply from_3_points_lift; intro; reflexivity|].
  intros k Hk. unfold tlift. cbn [T.rots].
  rewrite mat_lift by (try exact Hk; intro; reflexivity).
  split; [apply det_sum_squares|].
  intros -> H. rewrite !vec_vector in H by exact Hk.
  now apply frame_rotation.
Qed.

Lemma from_3_points_orientation_witness :
  wf point_A /\ shape point_A = [] ++ [3%nat] /\
  wf point_B /\ shape point_B = [] ++ [3%nat] /\
  wf point_C /\ shape point_C = [] ++ [3%nat] /\
  exists r,
    T.from_3_points point_A point_B point_C 0 = Ok r /\
    forall k, (k < numel [])%nat ->
      0 <= det (mat (T.rots r) k) /\
      (0 = 0 ->
       cross (vec_sub (vec point_B k) (vec point_A k))
             (vec_sub (vec point_C k) (vec point_B k)) <> [0; 0; 0] ->
       rotation (mat (T.rots r) k)).
Proof.
  split; [reflexivity|]. split; [reflexivity|].
  split; [reflexivity|]. split; [reflexivity|].
  split; [reflexivity|]. split; [reflexivity|].
  apply (from_3_points_orientation [] point_A point_B point_C 0);
    reflexivity.
Defined.

(** ** Broadcasting inside the elements of a batch *)

Lemma broadcast_rev_length r1 : forall r2 o,
  length r1 = length r2 -> torch.broadcast_rev r1 r2 = Some o ->
  length o = length r1.
Proof.
  induction r1 as [|a r1 IH]; intros [|b r2] o H E; try discriminate.
  - now injection E as <-.
  - simpl in E. destruct (torch.broadcast_rev r1 r2) as [r|] eqn:E'; 
      [|discriminate].
    assert (length r = length r1) as L
      by (apply (IH r2 r); [simpl in H; lia | exact E']).
    destruct (a =? b)%nat; [injection E as <-; simpl; lia|].
    destruct (a =? 1)%nat; [injection E as <-; simpl; lia|].
    destruct (b =? 1)%nat; [injection E as <-; simpl; lia|discriminate].
Qed.

Lemma broadcast_rev_tail r1 : forall r2 o t,
  length r1 = length r2 -> torch.broadcast_rev r1 r2 = Some o ->
  torch.broadcast_rev (r1 ++ t) (r2 ++ t) = Some (o ++ t).
Proof.
  induction r1 as [|a r1 IH]; intros [|b r2] o t H E; try discriminate.
  - injection E as <-. simpl.
    rewrite <- (app_nil_r t) at 2. now rewrite broadcast_rev_prefix_r, app_nil_r.
  - simpl in E. simpl app. cbn [torch.broadcast_rev].
    destruct (torch.broadcast_rev r1 r2) as [r|] eqn:E'; [|discriminate].
    rewrite (IH r2 r t) by first [exact E' | simpl in H; lia].
    destruct (a =? b)%nat; [now injection E as <-|].
    destruct (a =? 1)%nat; [now injection E as <-|].
    destruct (b =? 1)%nat; [now injection E as <-|discriminate].
Qed.

Lemma broadcast_shapes_batch B s1 s2 o :
  length s1 = length s2 -> torch.broadcast_shapes s1 s2 = Some o ->
  torch.broadcast_shapes (B ++ s1) (B ++ s2) = Some (B ++ o) /\
  length o = length s1.
Proof.
  unfold torch.broadcast_shapes. intros H E.
  destruct (torch.broadcast_rev (rev s1) (rev s2)) as [r|] eqn:E';
    [|discriminate].
  simpl in E. injection E as <-.
  rewrite !rev_app_distr.
  rewrite (broadcast_rev_tail _ _ r (rev B)) by (rewrite ?length_rev; auto).
  simpl. rewrite rev_app_distr, rev_involutive. split; [reflexivity|].
  assert (length (rev s1) = length (rev s2)) as H'
    by (rewrite !length_rev; exact H).
  rewrite length_rev, (broadcast_rev_length _ _ _ H' E').
  apply length_rev.
Qed.

Lemma flat_map_seq_shift {A : Type} (F : nat -> list A) s N :
  flat_map F (seq s N) = flat_map (fun k => F (s + k)%nat) (seq 0 N).
Proof.
  rewrite <- (Nat.add_0_r s) at 1. generalize 0%nat as z.
  induction N as [|N IH]; intros z; [reflexivity|].
  simpl. f_equal. rewrite <- IH. now rewrite Nat.add_succ_r.
Qed.

Lemma flat_map_seq_mul {A : Type} (F : nat -> list A) N n :
  flat_map (fun j => flat_map (fun k => F (j * N + k)%nat) (seq 0 N))
           (seq 0 n) =
  flat_map F (seq 0 (n * N)).
Proof.
  induction n as [|n IH]; [reflexivity|].
  replace (S n * N)%nat with (n * N + N)%nat by lia.
  rewrite seq_S, flat_map_app, IH. cbn [flat_map Nat.add].
  rewrite app_nil_r, seq_app, flat_map_app. cbn [Nat.add].
  now rewrite (flat_map_seq_shift F (n * N) N).
Qed.

Lemma flat_map_seq_ext {A : Type} (F G : nat -> list A) N :
  (forall k, (k < N)%nat -> F k = G k) ->
  flat_map F (seq 0 N) = flat_map G (seq 0 N).
Proof.
  intros H. rewrite !flat_map_concat_map. f_equal.
  apply map_ext_in. intros k Hk. apply in_seq in Hk. apply H. lia.
Qed.

Lemma expand_batch s o : forall B d,
  (0 < numel s)%nat -> length d = (numel B * numel s)%nat ->
  torch.expand (B ++ s) (B ++ o) d =
  flat_map (fun k => torch.expand s o (block 0 (numel s) d k))
           (seq 0 (numel B)).
Proof.
  intros B. induction B as [|n B IH]; intros d Hs Hd.
  - simpl. rewrite app_nil_r. simpl in Hd. rewrite Nat.add_0_r in Hd.
    rewrite block_first by lia. now rewrite <- Hd, firstn_all.
  - cbn [app torch.expand]. rewrite Nat.eqb_refl.
    rewrite numel_app. cbn [numel fold_right] in *.
    change (fold_right Nat.mul 1%nat B) with (numel B) in *.
    change (fold_right Nat.mul 1%nat s) with (numel s) in *.
    destruct (Nat.eq_dec (numel B) 0) as [E|E].
    + rewrite E in *. simpl Nat.mul. rewrite Nat.mul_0_r.
      unfold chunks. simpl. reflexivity.
    + unfold chunks.
      replace (length d / (numel B * numel s))%nat with n
        by (rewrite Hd, <- Nat.mul_assoc, Nat.div_mul; lia).
      rewrite flat_map_concat_map, map_map, <- flat_map_concat_map.
      rewrite <- flat_map_seq_mul.
      apply flat_map_seq_ext. intros j Hj.
      rewrite IH by (try exact Hs; apply sized_block).
      apply flat_map_seq_ext. intros k Hk.
      now rewrite block_block.
Qed.

Lemma map2_lift_gen f B s1 s2 o g h :
  length s1 = length s2 -> torch.broadcast_shapes s1 s2 = Some o ->
  (0 < numel s1)%nat -> (0 < numel s2)%nat ->
  sized (numel s1) g -> sized (numel s2) h ->
  sized (numel o) (fun k => torch.expand s1 o (g k)) ->
  sized (numel o) (fun k => torch.expand s2 o (h k)) ->
  torch.map2 f (lift B s1 g) (lift B s2 h) =
  Ok (lift B o (fun k => zipWith f (torch.expand s1 o (g k))
                                   (torch.expand s2 o (h k)))).
Proof.
  intros HL HS P1 P2 Hg Hh Eg Eh. unfold torch.map2.
  change (shape (lift B s1 g)) with (B ++ s1).
  change (shape (lift B s2 h)) with (B ++ s2).
  destruct (broadcast_shapes_batch B s1 s2 o HL HS) as [-> Lo].
  unfold torch.expand_to, torch.pad.
  change (shape (lift B s1 g)) with (B ++ s1).
  change (shape (lift B s2 h)) with (B ++ s2).
  rewrite !length_app, Lo, <- HL, Nat.sub_diag. cbn [repeat app].
  unfold lift. cbn [data]. f_equal. f_equal.
  rewrite (expand_batch s1 o B), (expand_batch s2 o B)
    by first [ assumption
             | now rewrite (length_flat_map_seq _ _ Hg)
             | now rewrite (length_flat_map_seq _ _ Hh) ].
  rewrite (flat_map_seq_ext _ (fun k => torch.expand s1 o (g k))).
  2:{ intros k Hk. now rewrite (block_flat_map _ _ Hg). }
  rewrite (flat_map_seq_ext
             (fun k => torch.expand s2 o (block 0 (numel s2) _ k))
             (fun k => torch.expand s2 o (h k))).
  2:{ intros k Hk. now rewrite (block_flat_map _ _ Hh). }
  apply (zipWith_flat_map f (numel o)); assumption.
Qed.

Lemma new_axes_lift k B g :
  torch.new_axes k (lift B [] g) = lift B (repeat 1%nat k) g.
Proof.
  unfold torch.new_axes, lift. cbn [shape data]. now rewrite app_nil_r.
Qed.

Lemma scalar_lift B t :
  wf t -> shape t = B ->
  t = lift B [] (fun k => [nth k (data t) 0]).
Proof.
  intros W S. rewrite (lift_of t B []) at 1;
    [|exact W | now rewrite app_nil_r].
  apply lift_ext. intros k Hk. unfold block. simpl.
  now rewrite Nat.mul_1_r, Nat.add_0_r.
Qed.

(** ** Scaling: [scale_translation] and the product with a tensor *)

Lemma scale_translation_lift B m v c :
  T.scale_translation (tlift B m v) c =
  Ok (tlift B m (fun k => map (fun x => x * c) (v k))).
Proof.
  unfold T.scale_translation, tlift. cbn [T.rots T.trans lift1 tens bind].
  rewrite map1_lift. now apply new_tlift.
Qed.

(** X15: [scale_translation] keeps the rotations and multiplies every
    coordinate of every translation by the factor; scaling by [c] and then
    by [c'] is scaling by [c * c']. *)
Theorem scale_translation_scales B t c c' :
  valid B t ->
  exists r r',
    T.scale_translation t c = Ok r /\ valid B r /\
    T.rots r = T.rots t /\
    (forall k, (k < numel B)%nat ->
       vec (T.trans r) k = map (fun x => x * c) (vec (T.trans t) k)) /\
    T.scale_translation r c' = Ok r' /\
    T.scale_translation t (c * c') = Ok r'.
Proof.
  intros Ht. destruct (valid_lift _ _ Ht) as (m & v & ->).
  do 2 eexists.
  split; [apply scale_translation_lift|].
  split; [apply valid_tlift; intro; reflexivity|].
  split; [reflexivity|].
  split; [|split; [apply scale_translation_lift|]].
  - intros k Hk. unfold tlift. cbn [T.trans].
    now rewrite !vec_lift by (try exact Hk; intro; reflexivity).
  - rewrite scale_translation_lift. f_equal. apply tlift_ext.
    intros k Hk. split; [reflexivity|]. lists. each ltac:(ring).
Qed.

Lemma scale_translation_scales_witness :
  valid [2%nat] two_turns /\
  exists r r',
    T.scale_translation two_turns 2 = Ok r /\ valid [2%nat] r /\
    T.rots r = T.rots two_turns /\
    (forall k, (k < numel [2%nat])%nat ->
       vec (T.trans r) k =
         map (fun x => x * 2) (vec (T.trans two_turns) k)) /\
    T.scale_translation r 3 = Ok r' /\
    T.scale_translation two_turns (2 * 3) = Ok r'.
Proof.
  split; [exact valid_two_turns|].
  apply (scale_translation_scales [2%nat] two_turns 2 3).
  exact valid_two_turns.
Defined.

Lemma mul_lift B (m : nat -> nat -> nat -> R) (v : nat -> nat -> R) x :
  T.__mul__ (tlift B (fun k => matrix (m k)) (fun k => vector (v k)))
    (lift B [] (fun k => [x k])) =
  Ok (tlift B (fun k => map (fun e => e * x k) (matrix (m k)))
              (fun k => map (fun e => e * x k) (vector (v k)))).
Proof.
  unfold T.__mul__, tlift. cbn [T.rots T.trans lift2 tens bind].
  rewrite !new_axes_lift. cbn [repeat].
  rewrite (map2_lift_gen Rmult B [3; 3]%nat [1; 1]%nat [3; 3]%nat)
    by first [ reflexivity | simpl; lia | (intro; reflexivity) ].
  cbn [bind].
  rewrite (map2_lift_gen Rmult B [3%nat] [1%nat] [3%nat])
    by first [ reflexivity | simpl; lia | (intro; reflexivity) ].
  cbn [bind]. now apply new_tlift.
Qed.

(** X16: the product of a transform with a tensor of its batch shape
    multiplies the nine entries of the [k]-th rotation and the three
    coordinates of the [k]-th translation by the [k]-th element of the
    tensor, on the left as on the right; the determinant is multiplied
    by the cube of that element, so that the product of a rotation is a
    rotation only where the tensor holds 1. *)
Theorem mul_scales_entries B t right :
  valid B t -> wf right -> shape right = B ->
  exists r,
    T.__mul__ t right = Ok r /\ T.__rmul__ t right = Ok r /\ valid B r /\
    forall k, (k < numel B)%nat ->
      let c := nth k (data right) 0 in
      mat (T.rots r) k = map (fun e => e * c) (mat (T.rots t) k) /\
      vec (T.trans r) k = map (fun e => e * c) (vec (T.trans t) k) /\
      det (mat (T.rots r) k) = c * c * c * det (mat (T.rots t) k) /\
      (rotation (mat (T.rots t) k) -> rotation (mat (T.rots r) k) -> c = 1).
Proof.
  intros Ht Wr Sr. destruct (valid_lift _ _ Ht) as (m & v & ->).
  rewrite (scalar_lift B right Wr Sr). 
  eexists. split; [apply mul_lift|]. split; [apply mul_lift|].
  split; [apply valid_tlift; intro; reflexivity|].
  intros k Hk. cbv zeta. unfold tlift. cbn [T.rots T.trans].
  rewrite !mat_lift, !vec_lift by (try exact Hk; intro; reflexivity).
  rewrite <- (scalar_lift B right Wr Sr).
  set (c := nth k (data right) 0).
  split; [reflexivity|]. split; [reflexivity|].
  assert (det (map (fun e => e * c) (matrix (m k))) =
          c * c * c * det (matrix (m k))) as D by (lists; ring).
  split; [exact D|].
  intros [_ D1] [_ D2]. rewrite D, D1, Rmult_1_r in D2.
  assert ((c - 1) * (c * c + c + 1) = 0) as E by nra.
  apply Rmult_integral in E. destruct E as [E|E]; [lra|nra].
Qed.

Lemma mul_scales_entries_witness :
  valid [2%nat] two_turns /\ wf (mkTensor [2%nat] [1; 0]) /\
  shape (mkTensor [2%nat] [1; 0]) = [2%nat] /\
  exists r,
    T.__mul__ two_turns (mkTensor [2%nat] [1; 0]) = Ok r /\
    T.__rmul__ two_turns (mkTensor [2%nat] [1; 0]) = Ok r /\
    valid [2%nat] r /\
    forall k, (k < numel [2%nat])%nat ->
      let c := nth k (data (mkTensor [2%nat] [1; 0])) 0 in
      mat (T.rots r) k = map (fun e => e * c) (mat (T.rots two_turns) k) /\
      vec (T.trans r) k = map (fun e => e * c) (vec (T.trans two_turns) k) /\
      det (mat (T.rots r) k) = c * c * c * det (mat (T.rots two_turns) k) /\
      (rotation (mat (T.rots two_turns) k) ->
       rotation (mat (T.rots r) k) -> c = 1).
Proof.
  split; [exact valid_two_turns|]. split; [reflexivity|].
  split; [reflexivity|].
  apply (mul_scales_entries [2%nat] two_turns (mkTensor [2%nat] [1; 0]));
    [exact valid_two_turns | reflexivity | reflexivity].
Defined.

(** ** Homogeneous matrices: [to_4x4] and [from_4x4] *)

Lemma get_block_lift B g :
  sized 16 g ->
  torch.get_block 3 3 (lift B [4; 4]%nat g) =
  Ok (lift B [3; 3]%nat
        (fun k => [nth 0 (g k) 0; nth 1 (g k) 0; nth 2 (g k) 0;
                   nth 4 (g k) 0; nth 5 (g k) 0; nth 6 (g k) 0;
                   nth 8 (g k) 0; nth 9 (g k) 0; nth 10 (g k) 0])).
Proof.
  intros Hg. unfold torch.get_block.
  change (shape (lift B [4; 4]%nat g)) with (B ++ [4; 4]%nat).
  rewrite rev_app_distr. simpl rev at 1. simpl app at 1. cbv iota beta.
  rewrite rev_involutive.
  change (4 * 4)%nat with 16%nat.
  unfold lift. cbn [data]. f_equal. f_equal.
  apply flat_map_seq_ext. intros k Hk.
  rewrite (block_flat_map 16 g Hg) by exact Hk.
  reflexivity.
Qed.

Lemma get_col_lift B g :
  sized 16 g ->
  torch.get_col 3 3 (lift B [4; 4]%nat g) =
  Ok (lift B [3%nat]
        (fun k => [nth 3 (g k) 0; nth 7 (g k) 0; nth 11 (g k) 0])).
Proof.
  intros Hg. unfold torch.get_col.
  change (shape (lift B [4; 4]%nat g)) with (B ++ [4; 4]%nat).
  rewrite rev_app_distr. simpl rev at 1. simpl app at 1. cbv iota beta.
  rewrite rev_involutive.
  change (3 <? 4)%nat with true. cbv iota.
  change (4 * 4)%nat with 16%nat.
  unfold lift. cbn [data]. f_equal. f_equal.
  apply flat_map_seq_ext. intros k Hk.
  rewrite (block_flat_map 16 g Hg) by exact Hk.
  reflexivity.
Qed.

Lemma from_4x4_lift B g :
  sized 16 g ->
  T.from_4x4 (lift B [4; 4]%nat g) =
  Ok (tlift B
        (fun k => [nth 0 (g k) 0; nth 1 (g k) 0; nth 2 (g k) 0;
                   nth 4 (g k) 0; nth 5 (g k) 0; nth 6 (g k) 0;
                   nth 8 (g k) 0; nth 9 (g k) 0; nth 10 (g k) 0])
        (fun k => [nth 3 (g k) 0; nth 7 (g k) 0; nth 11 (g k) 0])).
Proof.
  intros Hg. unfold T.from_4x4.
  rewrite get_block_lift, get_col_lift by exact Hg. cbn [bind].
  now apply new_tlift.
Qed.

Lemma set_block_lift B1 B m g :
  bcompat B1 B B -> sized 9 m -> sized 16 g ->
  torch.set_block 3 3 (lift B1 [3; 3]%nat m) (lift B [4; 4]%nat g) =
  Ok (lift B [4; 4]%nat
        (fun k =>
           [nth 0 (m k) 0; nth 1 (m k) 0; nth 2 (m k) 0; nth 3 (g k) 0;
            nth 3 (m k) 0; nth 4 (m k) 0; nth 5 (m k) 0; nth 7 (g k) 0;
            nth 6 (m k) 0; nth 7 (m k) 0; nth 8 (m k) 0; nth 11 (g k) 0;
            nth 12 (g k) 0; nth 13 (g k) 0; nth 14 (g k) 0;
            nth 15 (g k) 0])).
Proof.
  intros HB Hm Hg. unfold torch.set_block.
  change (shape (lift B [4; 4]%nat g)) with (B ++ [4; 4]%nat).
  change (shape (lift B1 [3; 3]%nat m)) with (B1 ++ [3; 3]%nat).
  rewrite rev_app_distr. simpl rev at 1. simpl app at 1. cbv iota beta zeta.
  rewrite rev_involutive.
  change (Nat.min 3 4) with 3%nat.
  destruct (broadcast_lift B1 B B [3; 3]%nat m m HB Hm Hm) as (-> & -> & _).
  rewrite list_eqb_refl.
  change (4 * 4)%nat with 16%nat.
  change (3 * 3)%nat with 9%nat.
  unfold lift. cbn [data]. f_equal. f_equal.
  apply flat_map_seq_ext. intros k Hk.
  rewrite (block_flat_map 9 m Hm), (block_flat_map 16 g Hg) by exact Hk.
  reflexivity.
Qed.

Lemma set_col_lift B1 B v g :
  bcompat B1 B B -> sized 3 v -> sized 16 g ->
  torch.set_col 3 3 (lift B1 [3%nat] v) (lift B [4; 4]%nat g) =
  Ok (lift B [4; 4]%nat
        (fun k =>
           [nth 0 (g k) 0; nth 1 (g k) 0; nth 2 (g k) 0; nth 0 (v k) 0;
            nth 4 (g k) 0; nth 5 (g k) 0; nth 6 (g k) 0; nth 1 (v k) 0;
            nth 8 (g k) 0; nth 9 (g k) 0; nth 10 (g k) 0; nth 2 (v k) 0;
            nth 12 (g k) 0; nth 13 (g k) 0; nth 14 (g k) 0;
            nth 15 (g k) 0])).
Proof.
  intros HB Hv Hg. unfold torch.set_col.
  change (shape (lift B [4; 4]%nat g)) with (B ++ [4; 4]%nat).
  change (shape (lift B1 [3%nat] v)) with (B1 ++ [3%nat]).
  rewrite rev_app_distr. simpl rev at 1. simpl app at 1. cbv iota beta zeta.
  rewrite rev_involutive.
  change (3 <? 4)%nat with true. cbv iota.
  change (Nat.min 3 4) with 3%nat.
  destruct (broadcast_lift B1 B B [3%nat] v v HB Hv Hv) as (-> & -> & _).
  rewrite list_eqb_refl.
  change (4 * 4)%nat with 16%nat.
  unfold lift. cbn [data]. f_equal. f_equal.
  apply flat_map_seq_ext. intros k Hk.
  rewrite (block_flat_map 3 v Hv), (block_flat_map 16 g Hg) by exact Hk.
  reflexivity.
Qed.

Lemma fill_corner_lift B g :
  sized 16 g ->
  torch.fill2 3 3 1 (lift B [4; 4]%nat g) =
  Ok (lift B [4; 4]%nat (fun k => upd 15 1 (g k))).
Proof.
  intros Hg. unfold torch.fill2.
  unfold lift at 1. cbn [shape].
  rewrite rev_app_distr. simpl rev at 1. simpl app at 1. cbv iota beta.
  change ((3 <? 4)%nat && (3 <? 4)%nat) with true. cbv iota.
  unfold lift. cbn [data shape]. change (4 * 4)%nat with 16%nat.
  rewrite (chunks_flat_map 16 g Hg) by lia.
  now rewrite flat_map_concat_map, map_map, <- flat_map_concat_map.
Qed.

Lemma zeros_lift B K :
  torch.zeros (B ++ K) = lift B K (fun _ => repeat 0 (numel K)).
Proof.
  unfold torch.zeros, lift. f_equal. rewrite numel_app.
  induction (numel B) as [|n IH]; [reflexivity|].
  rewrite seq_S, flat_map_app. simpl flat_map. rewrite app_nil_r, <- IH.
  now rewrite <- repeat_app, Nat.add_comm.
Qed.

(** The shape that [shape] reports for a batch shape [B]. *)
Lemma bcompat_shape B :
  bcompat B (match B with [] => [1%nat] | _ => B end)
            (match B with [] => [1%nat] | _ => B end).
Proof. destruct B; constructor. Qed.

Lemma numel_shape B :
  numel (match B with [] => [1%nat] | _ => B end) = numel B.
Proof. now destruct B. Qed.

Lemma to_4x4_lift B (m : nat -> nat -> nat -> R) (v : nat -> nat -> R) :
  T.to_4x4 (tlift B (fun k => matrix (m k)) (fun k => vector (v k))) =
  Ok (lift (match B with [] => [1%nat] | _ => B end) [4; 4]%nat
        (fun k => homogeneous (matrix (m k)) (vector (v k)))).
Proof.
  unfold T.to_4x4. rewrite shape_tlift, zeros_lift.
  unfold tlift. cbn [T.rots T.trans].
  rewrite set_block_lift
    by first [apply bcompat_shape | (intro; reflexivity)].
  cbn [bind].
  rewrite set_col_lift
    by first [apply bcompat_shape | (intro; reflexivity)].
  cbn [bind].
  rewrite fill_corner_lift by (intro; reflexivity).
  reflexivity.
Qed.

Lemma to_4x4_sized B m v :
  sized 9 m -> sized 3 v ->
  T.to_4x4 (tlift B m v) =
  Ok (lift (match B with [] => [1%nat] | _ => B end) [4; 4]%nat
        (fun k => homogeneous (m k) (v k))).
Proof.
  intros Hm Hv. unfold T.to_4x4. rewrite shape_tlift, zeros_lift.
  unfold tlift. cbn [T.rots T.trans].
  rewrite set_block_lift
    by first [apply bcompat_shape | assumption | (intro; reflexivity)].
  cbn [bind].
  rewrite set_col_lift
    by first [apply bcompat_shape | assumption | (intro; reflexivity)].
  cbn [bind].
  rewrite fill_corner_lift by (intro; reflexivity).
  reflexivity.
Qed.

Lemma mat4_lift B g k :
  sized 16 g -> (k < numel B)%nat -> mat4 (lift B [4; 4]%nat g) k = g k.
Proof. intros Hg Hk. now apply (block_lift B [4; 4]%nat). Qed.

(** X17: [to_4x4] returns, for every element of the batch, the matrix
    that has the rotation and the translation side by side above the row
    (0, 0, 0, 1); its batch shape is the one [shape] reports, so that the
    matrix of a transform without batch dimension has the shape
    (1, 4, 4). *)
Theorem to_4x4_homogeneous B t :
  valid B t ->
  exists h,
    T.to_4x4 t = Ok h /\ wf h /\ shape h = T.shape t ++ [4; 4]%nat /\
    forall k, (k < numel B)%nat ->
      mat4 h k = homogeneous (mat (T.rots t) k) (vec (T.trans t) k).
Proof.
  intros Ht. destruct (valid_lift _ _ Ht) as (m & v & ->).
  eexists. split; [apply to_4x4_sized; intro; reflexivity|].
  split; [apply wf_lift; intro; reflexivity|].
  split; [now rewrite shape_tlift|].
  intros k Hk. unfold tlift. cbn [T.rots T.trans].
  rewrite mat4_lift, mat_lift, vec_lift
    by (try exact Hk; try (intro; reflexivity); now rewrite numel_shape).
  reflexivity.
Qed.

Lemma to_4x4_homogeneous_witness :
  valid [] quarter_turn /\
  exists h,
    T.to_4x4 quarter_turn = Ok h /\ wf h /\
    shape h = T.shape quarter_turn ++ [4; 4]%nat /\
    forall k, (k < numel [])%nat ->
      mat4 h k = homogeneous (mat (T.rots quarter_turn) k)
                             (vec (T.trans quarter_turn) k).
Proof.
  split; [exact valid_quarter_turn|].
  apply (to_4x4_homogeneous [] quarter_turn). exact valid_quarter_turn.
Defined.

Lemma homogeneous_mul (a b : nat -> nat -> R) (u w : nat -> R) :
  homogeneous (mat_mul (matrix a) (matrix b))
    (zipWith Rplus (mat_vec (matrix a) (vector w)) (vector u)) =
  mat4_mul (homogeneous (matrix a) (vector u))
           (homogeneous (matrix b) (vector w)).
Proof.
  unfold homogeneous, mat4_mul, matrix4, sum4, entry4. lists.
  each ltac:(ring).
Qed.

(** X18: in homogeneous coordinates [compose] is the product of
    matrices: the matrix of [compose a b] is the 4x4 product of the
    matrices of [a] and of [b], for every element of the batch. *)
Theorem to_4x4_compose B a b :
  valid B a -> valid B b ->
  exists c ha hb hc,
    T.compose a b = Ok c /\ T.to_4x4 a = Ok ha /\ T.to_4x4 b = Ok hb /\
    T.to_4x4 c = Ok hc /\
    forall k, (k < numel B)%nat ->
      mat4 hc k = mat4_mul (mat4 ha k) (mat4 hb k).
Proof.
  intros Ha Hb.
  destruct (valid_lift _ _ Ha) as (m1 & v1 & ->).
  destruct (valid_lift _ _ Hb) as (m2 & v2 & ->).
  do 4 eexists.
  split; [apply (compose_lift B B B); sizes9|].
  split; [apply to_4x4_sized; intro; reflexivity|].
  split; [apply to_4x4_sized; intro; reflexivity|].
  split; [apply to_4x4_sized; intro; reflexivity|].
  intros k Hk.
  rewrite !mat4_lift
    by (try (intro; reflexivity); now rewrite numel_shape).
  apply homogeneous_mul.
Qed.

Lemma to_4x4_compose_witness :
  valid [2%nat] two_turns /\
  exists c ha hb hc,
    T.compose two_turns two_turns = Ok c /\
    T.to_4x4 two_turns = Ok ha /\ T.to_4x4 two_turns = Ok hb /\
    T.to_4x4 c = Ok hc /\
    forall k, (k < numel [2%nat])%nat ->
      mat4 hc k = mat4_mul (mat4 ha k) (mat4 hb k).
Proof.
  split; [exact valid_two_turns|].
  apply (to_4x4_compose [2%nat] two_turns two_turns);
    exact valid_two_turns.
Defined.

Lemma data_lift_shape B K g :
  data (lift (match B with [] => [1%nat] | _ => B end) K g) =
  data (lift B K g).
Proof. unfold lift. cbn [data]. now rewrite numel_shape. Qed.

(** X19: a transform comes back from its 4x4 matrix, by [from_4x4] as by
    [from_tensor]: the entries are those of the transform, which the
    result equals when the transform has batch dimensions; the result for
    a transform without batch dimension has the batch shape (1,), and
    [==] holds between the two. *)
Theorem from_4x4_to_4x4 B t :
  valid B t ->
  exists h r,
    T.to_4x4 t = Ok h /\ T.from_4x4 h = Ok r /\ T.from_tensor h = Ok r /\
    valid (T.shape t) r /\
    data (T.rots r) = data (T.rots t) /\
    data (T.trans r) = data (T.trans t) /\
    (B <> [] -> r = t) /\
    T.__eq__ r t = Ok true.
Proof.
  intros Ht. destruct (valid_lift _ _ Ht) as (m & v & ->).
  do 2 eexists.
  split; [apply to_4x4_sized; intro; reflexivity|].
  split; [apply from_4x4_lift; intro; reflexivity|].
  split; [apply from_4x4_lift; intro; reflexivity|].
  rewrite shape_tlift.
  split; [apply valid_tlift; intro; reflexivity|].
  unfold tlift at 1 3. cbn [T.rots T.trans].
  split; [apply data_lift_shape|]. split; [apply data_lift_shape|].
  split.
  - intros HB. destruct B; [congruence|reflexivity].
  - apply (eq_tlift _ B (match B with [] => [1%nat] | _ => B end));
      try (intro; reflexivity).
    + destruct B; constructor.
    + intros k Hk. split; reflexivity.
Qed.

Lemma from_4x4_to_4x4_witness :
  valid [] quarter_turn /\
  exists h r,
    T.to_4x4 quarter_turn = Ok h /\ T.from_4x4 h = Ok r /\
    T.from_tensor h = Ok r /\
    valid (T.shape quarter_turn) r /\
    data (T.rots r) = data (T.rots quarter_turn) /\
    data (T.trans r) = data (T.trans quarter_turn) /\
    ((@nil nat) <> [] -> r = quarter_turn) /\
    T.__eq__ r quarter_turn = Ok true.
Proof.
  split; [exact valid_quarter_turn|].
  apply (from_4x4_to_4x4 [] quarter_turn). exact valid_quarter_turn.
Defined.



(** ** Concatenation *)

Lemma block_whole (d : list R) c : length d = c -> block 0 c d 0 = d.
Proof.
  intros H. rewrite block_first by lia. subst c. apply firstn_all.
Qed.

Lemma flat_map_one {A C : Type} (F : A -> list C) x :
  flat_map F [x] = F x.
Proof. simpl. apply app_nil_r. Qed.

Lemma cat_first_sizes K ns ts :
  Forall2 (fun n t => wf t /\ shape t = n :: K) ns ts ->
  list_sum (map (fun t => nth 0 (shape t) 0%nat) ts) = list_sum ns.
Proof.
  induction 1 as [|n t ns' ts1 [_ S1] HF' IH]; [reflexivity|].
  cbn [map]. rewrite S1. unfold list_sum in *. cbn [fold_right nth].
  now rewrite IH.
Qed.

Lemma cat_first_data K ns ts :
  Forall2 (fun n t => wf t /\ shape t = n :: K) ns ts ->
  flat_map (fun t => block 0 (nth 0 (shape t) 0%nat * numel K) (data t) 0)
           ts = concat (map data ts).
Proof.
  induction 1 as [|n t ns' ts1 [W1 S1] HF' IH]; [reflexivity|].
  cbn [flat_map map concat]. rewrite IH. f_equal.
  apply block_whole. rewrite W1, S1. reflexivity.
Qed.

Lemma cat_first_shapes K ns ts :
  Forall2 (fun n t => wf t /\ shape t = n :: K) ns ts ->
  forallb (fun t => list_eqb [] [] && list_eqb (skipn 1 (shape t)) K
                    && (0 <? ndim t)%nat) ts = true.
Proof.
  induction 1 as [|n t ns' ts1 [_ S1] HF' IH]; [reflexivity|].
  cbn [forallb]. unfold ndim at 1. rewrite S1, IH.
  cbn [skipn length list_eqb andb]. now rewrite list_eqb_refl.
Qed.

Lemma cat_first K ns ts :
  Forall2 (fun n t => wf t /\ shape t = n :: K) ns ts ->
  ts <> [] ->
  torch.cat 0 ts =
  Ok (mkTensor (list_sum ns :: K) (concat (map data ts))).
Proof.
  intros HF Hne. unfold torch.cat.
  pose proof (cat_first_sizes K ns ts HF) as E1.
  pose proof (cat_first_data K ns ts HF) as E2.
  pose proof (cat_first_shapes K ns ts HF) as E3.
  destruct ts as [|t0 ts']; [congruence|].
  assert (exists n0, shape t0 = n0 :: K) as (n0 & S0).
  { inversion HF as [|n1 t1 ns' ts1 [_ S1] HF']; subst. now exists n1. }
  assert (ndim t0 = S (length K)) as N by (unfold ndim; now rewrite S0).
  cbv zeta. rewrite !N. cbn [Nat.eqb].
  assert ((- Z.of_nat (S (length K)) <=? 0)%Z
          && (0 <? Z.of_nat (S (length K)))%Z = true) as ->
    by (apply andb_true_iff; split; [apply Z.leb_le | apply Z.ltb_lt]; lia).
  change (0 <=? 0)%Z with true. cbv iota. change (Z.to_nat 0) with 0%nat.
  rewrite S0.
  change (firstn 0 (n0 :: K)) with (@nil nat).
  change (skipn 1 (n0 :: K)) with K.
  change (forallb
      (fun t : Tensor =>
       list_eqb (firstn 0 (shape t)) [] && list_eqb (skipn 1 (shape t)) K &&
       (0 <? ndim t)%nat) (t0 :: ts'))
    with (forallb
      (fun t : Tensor =>
       list_eqb [] [] && list_eqb (skipn 1 (shape t)) K &&
       (0 <? ndim t)%nat) (t0 :: ts')).
  rewrite E3, E1. cbn [app numel fold_right seq].
  now rewrite flat_map_one, E2.
Qed.

Lemma length_concat_data K ns ts :
  Forall2 (fun n t => wf t /\ shape t = n :: K) ns ts ->
  length (concat (map data ts)) = (list_sum ns * numel K)%nat.
Proof.
  induction 1 as [|n t ns' ts1 [W1 S1] HF' IH]; [reflexivity|].
  cbn [map concat]. rewrite length_app, IH, W1, S1.
  unfold list_sum. cbn [numel fold_right].
  change (fold_right Nat.mul 1%nat K) with (numel K). lia.
Qed.

Lemma Forall2_valid_rots B ns ts :
  Forall2 (fun n t => valid (n :: B) t) ns ts ->
  Forall2 (fun n t => wf t /\ shape t = n :: (B ++ [3; 3]%nat))
          ns (map T.rots ts) /\
  Forall2 (fun n t => wf t /\ shape t = n :: (B ++ [3%nat]))
          ns (map T.trans ts).
Proof.
  induction 1 as [|n t ns' ts1 (Wr & Wt & Sr & St) HF' [IH1 IH2]];
    split; constructor; auto.
Qed.

(** X21: [concat] of a list of transforms along dimension 0 joins them
    along their first batch dimension, which exists already: for batch
    shapes [n1 :: B], [n2 :: B], ... the result has the batch shape
    [(n1 + n2 + ...) :: B] and holds the rotations and the translations
    of the transforms one after the other. *)
Theorem concat_first_dimension B ns ts :
  ts <> [] ->
  Forall2 (fun n t => valid (n :: B) t) ns ts ->
  exists r,
    T.concat ts 0 = Ok r /\ valid (list_sum ns :: B) r /\
    data (T.rots r) = concat (map (fun t => data (T.rots t)) ts) /\
    data (T.trans r) = concat (map (fun t => data (T.trans t)) ts).
Proof.
  intros Hne HF. destruct (Forall2_valid_rots B ns ts HF) as [HR HT].
  unfold T.concat. cbn [Z.leb Z.compare].
  assert (map T.rots ts <> []) as N1 by (destruct ts; [congruence | discriminate]).
  assert (map T.trans ts <> []) as N2 by (destruct ts; [congruence | discriminate]).
  rewrite (cat_first (B ++ [3; 3]%nat) ns _ HR N1).
  rewrite (cat_first (B ++ [3%nat]) ns _ HT N2).
  cbn [bind]. eexists.
  split; [now apply (new_ok _ _ (list_sum ns :: B))|].
  split; [|split; cbn [T.rots T.trans data]; now rewrite map_map].
  repeat split; unfold wf; cbn [T.rots T.trans shape data].
  - now rewrite (length_concat_data (B ++ [3; 3]%nat) ns _ HR).
  - now rewrite (length_concat_data (B ++ [3%nat]) ns _ HT).
Qed.

Lemma concat_first_dimension_witness :
  [two_turns; two_turns] <> [] /\
  Forall2 (fun n t => valid (n :: []) t) [2%nat; 2%nat]
          [two_turns; two_turns] /\
  exists r,
    T.concat [two_turns; two_turns] 0 = Ok r /\
    valid (list_sum [2%nat; 2%nat] :: []) r /\
    data (T.rots r) =
      concat (map (fun t => data (T.rots t)) [two_turns; two_turns]) /\
    data (T.trans r) =
      concat (map (fun t => data (T.trans t)) [two_turns; two_turns]).
Proof.
  assert (Forall2 (fun n t => valid (n :: []) t) [2%nat; 2%nat]
                  [two_turns; two_turns]) as H
    by (repeat constructor).
  split; [discriminate|]. split; [exact H|].
  apply (concat_first_dimension [] [2%nat; 2%nat] [two_turns; two_turns]);
    [discriminate | exact H].
Defined.

Lemma Forall2_unbatched l :
  Forall (valid []) l ->
  Forall2 (fun n t => wf t /\ shape t = n :: [3%nat])
          (repeat 3%nat (length l)) (map T.rots l) /\
  Forall2 (fun n t => wf t /\ shape t = n :: [])
          (repeat 3%nat (length l)) (map T.trans l).
Proof.
  induction 1 as [|t l' (Wr & Wt & Sr & St) HF' [IH1 IH2]];
    split; constructor; auto.
Qed.

(** X22: transforms without batch dimension cannot be concatenated: for
    two or more of them [concat] along dimension 0 raises the ValueError
    of the constructor, since the rotations joined have the shape
    (3 n, 3), and [concat] along dimension -1 raises IndexError. *)
Theorem concat_unbatched a b ts :
  Forall (valid []) (a :: b :: ts) ->
  T.concat (a :: b :: ts) 0 =
    Raise (ValueError "Incorrectly shaped input") /\
  T.concat (a :: b :: ts) (-1) = Raise IndexError.
Proof.
  intros HF. split.
  - destruct (Forall2_unbatched _ HF) as [HR HT].
    unfold T.concat. cbn [Z.leb Z.compare].
    rewrite (cat_first [3%nat] _ _ HR ltac:(discriminate)).
    rewrite (cat_first [] _ _ HT ltac:(discriminate)).
    cbn [bind]. unfold T.new, T.__init__. cbn [bind T.rots T.trans shape].
    cbn [length repeat]. unfold list_sum. cbn [fold_right].
    unfold lastn. cbn [length Nat.sub skipn list_eqb].
    match goal with |- context [(?x =? 3)%nat] =>
      replace (x =? 3)%nat with false
        by (symmetry; apply Nat.eqb_neq; lia) end.
    reflexivity.
  - inversion HF as [|? ? (Wr & Wt & Sr & St) HF']; subst.
    unfold T.concat, torch.cat. cbn [Z.leb Z.compare map].
    unfold ndim. rewrite Sr. reflexivity.
Qed.

Lemma concat_unbatched_witness :
  Forall (valid []) [quarter_turn; quarter_turn] /\
  T.concat [quarter_turn; quarter_turn] 0 =
    Raise (ValueError "Incorrectly shaped input") /\
  T.concat [quarter_turn; quarter_turn] (-1) = Raise IndexError.
Proof.
  assert (Forall (valid []) [quarter_turn; quarter_turn]) as H
    by (repeat constructor).
  split; [exact H|].
  apply (concat_unbatched quarter_turn quarter_turn []). exact H.
Defined.

(** ** Functions mapped over the entries *)





(** ** Quaternions and rotation matrices *)

Lemma sum_last_lift n B g :
  sized n g ->
  torch.sum_last (lift B [n] g) =
  Ok (lift B [] (fun k => [fold_left Rplus (g k) 0])).
Proof.
  intros Hg. unfold torch.sum_last.
  change (shape (lift B [n] g)) with (B ++ [n]).
  rewrite rev_app_distr. simpl rev at 1. simpl app at 1. cbv iota beta.
  rewrite rev_involutive. unfold lift. cbn [data].
  rewrite app_nil_r. f_equal. f_equal.
  rewrite flat_map_singleton. apply map_ext_in. intros k Hk.
  apply in_seq in Hk. rewrite (block_flat_map n g Hg) by lia. reflexivity.
Qed.

Lemma quat_form B q :
  wf q -> shape q = B ++ [4%nat] ->
  exists f, q = lift B [4%nat] (fun k => quaternion (f k)).
Proof.
  intros W S. exists (fun k i => nth (k * 4 + i) (data q) 0).
  now rewrite (lift_of q B [4%nat] W S) at 1.
Qed.

Lemma quat_lift B q k :
  sized 4 q -> (k < numel B)%nat -> quat (lift B [4%nat] q) k = q k.
Proof. intros Hq Hk. now apply (block_lift B [4%nat]). Qed.

Lemma quat_to_matrix_lift B (f : nat -> nat -> R) :
  quat_to_matrix (lift B [4%nat] (fun k => quaternion (f k))) =
  Ok (lift B [3; 3]%nat (fun k => quat_matrix (quaternion (f k)))).
Proof.
  unfold quat_to_matrix.
  rewrite (unbind_lift 4) by first [lia | (intro; reflexivity)].
  cbn [bind seq map]. cbv iota beta. unfold sum_t.
  cbn [lift2 tens bind].
  rewrite (map2_lift Rmult B B B [4%nat]) by side (bc_same B).
  cbn [bind lift1].
  rewrite (sum_last_lift 4) by (intro; reflexivity).
  tensor_steps (bc_same B).
  change (shape (lift B [4%nat] (fun k => quaternion (f k))))
    with (B ++ [4%nat]).
  rewrite lead1_app, (reshape_lift B [9%nat] [3; 3]%nat) by reflexivity.
  reflexivity.
Qed.

Lemma quaternion_eta (l : list R) :
  length l = 4%nat -> l = quaternion (fun i => nth i l 0).
Proof.
  destruct l as [|a [|b [|c [|d [|e l]]]]]; try discriminate. reflexivity.
Qed.

Lemma quat_to_matrix_sized B g :
  sized 4 g ->
  quat_to_matrix (lift B [4%nat] g) =
  Ok (lift B [3; 3]%nat (fun k => quat_matrix (g k))).
Proof.
  intros Hg.
  rewrite (lift_ext B [4%nat] g
             (fun k => quaternion (fun i => nth i (g k) 0)))
    by (intros k _; apply quaternion_eta, Hg).
  rewrite quat_to_matrix_lift. f_equal. apply lift_ext. intros k _.
  now rewrite <- (quaternion_eta (g k) (Hg k)).
Qed.

Lemma quat_nonzero (r i j k : R) :
  [r; i; j; k] <> [0; 0; 0; 0] ->
  0 + r * r + i * i + j * j + k * k <> 0.
Proof.
  intros H E. apply H.
  assert (r = 0) by nra. assert (i = 0) by nra.
  assert (j = 0) by nra. assert (k = 0) by nra. now subst.
Qed.

Lemma quat_matrix_rotation (r i j k : R) :
  0 + r * r + i * i + j * j + k * k <> 0 ->
  rotation (quat_matrix [r; i; j; k]).
Proof.
  intros HN. unfold quat_matrix.
  cbn [nth zipWith fold_left].
  set (N := 0 + r * r + i * i + j * j + k * k) in *.
  assert (2 / N * N = 2) as Hs by (field; exact HN).
  set (s := 2 / N) in *. unfold N in Hs. clearbody s. clear HN N.
  unfold rotation, orthonormal. lists.
  split; [split|]; [each ltac:(nsatz) | each ltac:(nsatz) | nsatz].
Qed.

Lemma quat_matrix_scale (c r i j k : R) :
  c <> 0 -> 0 + r * r + i * i + j * j + k * k <> 0 ->
  quat_matrix (map (Rmult c) [r; i; j; k]) = quat_matrix [r; i; j; k].
Proof.
  intros Hc HN. unfold quat_matrix. cbn [map nth zipWith fold_left].
  assert (0 + c * r * (c * r) + c * i * (c * i) + c * j * (c * j)
            + c * k * (c * k) <> 0) as HN'.
  { replace (0 + c * r * (c * r) + c * i * (c * i) + c * j * (c * j)
             + c * k * (c * k))
      with (c * c * (0 + r * r + i * i + j * j + k * k)) by ring.
    apply Rmult_integral_contrapositive_currified; [|exact HN].
    apply Rmult_integral_contrapositive_currified; exact Hc. }
  rewrite Rplus_0_l in HN, HN'.
  each ltac:(field; split; assumption).
Qed.

Lemma quat_cases (q : list R) :
  length q = 4%nat ->
  exists r i j k, q = [r; i; j; k].
Proof.
  destruct q as [|a [|b [|c [|d [|e l]]]]]; try discriminate.
  intros _. now exists a, b, c, d.
Qed.

(** X24: [quat_to_matrix] returns a rotation matrix, orthonormal and of
    determinant 1, for every quaternion that is not zero, whatever its
    norm: the factor [2 / (q . q)] normalises it. *)
Theorem quat_to_matrix_rotation B q :
  wf q -> shape q = B ++ [4%nat] ->
  exists m,
    quat_to_matrix q = Ok m /\ wf m /\ shape m = B ++ [3; 3]%nat /\
    forall k, (k < numel B)%nat ->
      mat m k = quat_matrix (quat q k) /\
      (quat q k <> [0; 0; 0; 0] -> rotation (mat m k)).
Proof.
  intros W S. rewrite (lift_of q B [4%nat] W S).
  eexists. split; [apply quat_to_matrix_sized, sized_block|].
  split; [apply wf_lift; intro; reflexivity|]. split; [reflexivity|].
  intros k Hk.
  rewrite mat_lift, quat_lift
    by (try exact Hk; try apply sized_block; intro; reflexivity).
  split; [reflexivity|].
  destruct (quat_cases (block 0 (numel [4%nat]) (data q) k)
              (sized_block _ _ k)) as (r & i & j & k' & ->).
  intros HN. now apply quat_matrix_rotation, quat_nonzero.
Qed.

(** X25: a quaternion and its multiples by a number that is not zero, its
    opposite among them, give the same matrix. *)
Theorem quat_to_matrix_scale B q q' :
  wf q -> shape q = B ++ [4%nat] -> wf q' -> shape q' = B ++ [4%nat] ->
  (forall k, (k < numel B)%nat ->
     quat q k <> [0; 0; 0; 0] /\
     exists c, c <> 0 /\ quat q' k = map (Rmult c) (quat q k)) ->
  exists m, quat_to_matrix q = Ok m /\ quat_to_matrix q' = Ok m.
Proof.
  intros W S W' S' H.
  rewrite (lift_of q B [4%nat] W S), (lift_of q' B [4%nat] W' S').
  eexists. split; [apply quat_to_matrix_sized, sized_block|].
  rewrite quat_to_matrix_sized by apply sized_block.
  f_equal. apply lift_ext. intros k Hk.
  destruct (H k Hk) as (HN & c & Hc & E). unfold quat in *.
  change (numel [4%nat]) with 4%nat. rewrite E.
  destruct (quat_cases (block 0 4 (data q) k) (sized_block _ _ k))
    as (r & i & j & k' & Eq).
  rewrite Eq in *. now apply quat_matrix_scale, quat_nonzero.
Qed.

Lemma unbind_count n B (q : Tensor) :
  shape q = B ++ [n] ->
  exists l, torch.unbind q = Ok l /\ length l = n.
Proof.
  intros S. unfold torch.unbind. rewrite S, rev_app_distr.
  simpl rev at 1. simpl app at 1. cbv iota beta.
  eexists. split; [reflexivity|]. now rewrite length_map, length_seq.
Qed.

(** X27: [quat_to_matrix] takes the four components of the last
    dimension apart, and a last dimension of another size makes that
    raise ValueError, with the message of Python for too few or too many
    values. *)
Theorem quat_to_matrix_wrong_size B n q :
  shape q = B ++ [n] ->
  ((n < 4)%nat ->
   quat_to_matrix q =
   Raise (ValueError
            ("not enough values to unpack (expected 4, got "
             ++ str_nat n ++ ")")%string)) /\
  ((4 < n)%nat ->
   quat_to_matrix q =
   Raise (ValueError "too many values to unpack (expected 4)")).
Proof.
  intros S. destruct (unbind_count n B q S) as (l & E & L).
  unfold quat_to_matrix. rewrite E. cbn [bind]. split; intros H.
  - destruct l as [|a [|b [|c [|d [|e l]]]]]; simpl in L; try lia;
      subst n; reflexivity.
  - destruct l as [|a [|b [|c [|d [|e l]]]]]; simpl in L; try lia.
    unfold unpack_error.
    assert ((length (a :: b :: c :: d :: e :: l) <? 4)%nat = false) as ->
      by (apply Nat.ltb_ge; simpl; lia).
    reflexivity.
Qed.

Lemma quat_to_matrix_wrong_size_witness :
  shape point_123 = [] ++ [3%nat] /\ (3 < 4)%nat /\
  quat_to_matrix point_123 =
  Raise (ValueError "not enough values to unpack (expected 4, got 3)").
Proof.
  split; [reflexivity|]. split; [lia|].
  apply (proj1 (quat_to_matrix_wrong_size [] 3 point_123 eq_refl)). lia.
Defined.

Lemma aa_to_quat_nonzero a b c :
  aa_to_quat [a; b; c] <> [0; 0; 0; 0].
Proof.
  unfold aa_to_quat. cbn [map].
  set (x := norm_of [a; b; c]). set (h := x * 0.5).
  pose proof (norm_of_nonneg [a; b; c]) as Hx. fold x in Hx.
  intros E. injection E as Ec Ea Eb Ecc.
  destruct (Rlt_dec x 1e-6) as [Hs|Hl].
  - pose proof PI2_1 as HPI.
    assert (0 < cos h) as Hc by (apply cos_gt_0; unfold h; lra). lra.
  - apply Rnot_lt_le in Hl.
    rewrite (sin_half_over_large h x Hl) in Ea, Eb, Ecc.
    assert (sin h / x <> 0) as Hsx.
    { intros E0. pose proof (sin2_cos2 h) as P. unfold Rsqr in P.
      assert (sin h = 0) as S0.
      { replace (sin h) with (sin h / x * x) by (field; lra).
        rewrite E0. ring. }
      rewrite S0, Ec in P. lra. }
    assert (a = 0) as -> by (apply Rmult_integral in Ea; tauto).
    assert (b = 0) as -> by (apply Rmult_integral in Eb; tauto).
    assert (c = 0) as -> by (apply Rmult_integral in Ecc; tauto).
    pose proof (norm_of_square 0 0 0) as Q. fold x in Q. nra.
Qed.

Lemma sized_aa_to_quat (v : nat -> nat -> R) :
  sized 4 (fun k => aa_to_quat (vector (v k))).
Proof. intro. reflexivity. Qed.

(** X26: [axis_angle_to_matrix] returns a rotation matrix for every
    axis-angle vector: also below the angle 1e-6, where the quaternion
    built from the series is not of norm 1, since [quat_to_matrix]
    normalises. *)
Theorem axis_angle_to_matrix_rotation junk B v :
  wf v -> shape v = B ++ [3%nat] ->
  exists m,
    axis_angle_to_matrix junk v = Ok m /\ wf m /\
    shape m = B ++ [3; 3]%nat /\
    forall k, (k < numel B)%nat ->
      mat m k = quat_matrix (aa_to_quat (vec v k)) /\ rotation (mat m k).
Proof.
  intros W S. destruct (point_lift _ _ W S) as (x & ->).
  unfold axis_angle_to_matrix. rewrite axis_angle_to_quat_lift. cbn [bind].
  rewrite quat_to_matrix_sized by apply sized_aa_to_quat.
  eexists. split; [reflexivity|].
  split; [apply wf_lift; intro; reflexivity|]. split; [reflexivity|].
  intros k Hk.
  rewrite mat_lift, vec_vector by (try exact Hk; intro; reflexivity).
  split; [reflexivity|].
  pose proof (aa_to_quat_nonzero (x k 0%nat) (x k 1%nat) (x k 2%nat)) as HN.
  destruct (quat_cases (aa_to_quat (vector (x k))) eq_refl)
    as (r & i & j & k' & E).
  unfold vector in *. rewrite E in *.
  now apply quat_matrix_rotation, quat_nonzero.
Qed.

Lemma axis_angle_to_matrix_rotation_witness :
  wf turn_tiny /\ shape turn_tiny = [] ++ [3%nat] /\
  exists m,
    axis_angle_to_matrix (fun _ => 0) turn_tiny = Ok m /\ wf m /\
    shape m = [] ++ [3; 3]%nat /\
    forall k, (k < numel [])%nat ->
      mat m k = quat_matrix (aa_to_quat (vec turn_tiny k)) /\
      rotation (mat m k).
Proof.
  split; [reflexivity|]. split; [reflexivity|].
  apply (axis_angle_to_matrix_rotation (fun _ => 0) [] turn_tiny);
    reflexivity.
Defined.

Lemma nonzero_two_quats k :
  (k < numel [2%nat])%nat ->
  quat two_quats k <> [0; 0; 0; 0] /\
  exists c, c <> 0 /\ quat two_quats_scaled k = map (Rmult c) (quat two_quats k).
Proof.
  intros Hk.
  assert (k = 0%nat \/ k = 1%nat) as [-> | ->] by (simpl in Hk; lia).
  - split.
    + cbv [two_quats quat block data seq map nth Nat.mul Nat.add].
      intros E. injection E as E. lra.
    + exists (-1). split; [lra|].
      cbv [two_quats two_quats_scaled quat block data seq map nth
           Nat.mul Nat.add].
      each ltac:(ring).
  - split.
    + cbv [two_quats quat block data seq map nth Nat.mul Nat.add].
      intros E. injection E as E _. lra.
    + exists 2. split; [lra|].
      cbv [two_quats two_quats_scaled quat block data seq map nth
           Nat.mul Nat.add].
      each ltac:(ring).
Qed.

Lemma quat_to_matrix_rotation_witness :
  wf two_quats /\ shape two_quats = [2%nat] ++ [4%nat] /\
  exists m,
    quat_to_matrix two_quats = Ok m /\ wf m /\
    shape m = [2%nat] ++ [3; 3]%nat /\
    forall k, (k < numel [2%nat])%nat ->
      mat m k = quat_matrix (quat two_quats k) /\
      (quat two_quats k <> [0; 0; 0; 0] -> rotation (mat m k)).
Proof.
  split; [reflexivity|]. split; [reflexivity|].
  apply (quat_to_matrix_rotation [2%nat] two_quats); reflexivity.
Defined.

Lemma quat_to_matrix_scale_witness :
  wf two_quats /\ shape two_quats = [2%nat] ++ [4%nat] /\
  wf two_quats_scaled /\ shape two_quats_scaled = [2%nat] ++ [4%nat] /\
  (forall k, (k < numel [2%nat])%nat ->
     quat two_quats k <> [0; 0; 0; 0] /\
     exists c, c <> 0 /\
       quat two_quats_scaled k = map (Rmult c) (quat two_quats k)) /\
  exists m,
    quat_to_matrix two_quats = Ok m /\
    quat_to_matrix two_quats_scaled = Ok m.
Proof.
  split; [reflexivity|]. split; [reflexivity|].
  split; [reflexivity|]. split; [reflexivity|].
  split; [exact nonzero_two_quats|].
  apply (quat_to_matrix_scale [2%nat] two_quats two_quats_scaled);
    [ reflexivity | reflexivity | reflexivity | reflexivity
    | exact nonzero_two_quats ].
Defined.

(** ** From rotation matrices to quaternions *)

Lemma repeat_map_const {A : Type} (c : R) (l : list A) :
  repeat c (length l) = map (fun _ => c) l.
Proof. induction l; simpl; congruence. Qed.

Lemma sqrt_positive_part_map t :
  wf t -> _sqrt_positive_part t = Ok (torch.map1 sqrt_positive t).
Proof.
  intros W. unfold _sqrt_positive_part, torch.zeros_like, torch.gt, sqrt_t.
  rewrite masked_select_selected by reflexivity.
  cbn [bind lift1 tens torch.bdata]. rewrite map1_selected.
  rewrite masked_assign_selected.
  - unfold torch.zeros, torch.map1. cbn [shape data]. f_equal. f_equal.
    rewrite <- W, repeat_map_const.
    rewrite <- (map_id (data t)) at 2.
    rewrite !map_map, choose_map. apply map_ext. intros x.
    unfold sqrt_positive. now destruct (Rlt_dec 0 x).
  - reflexivity.
  - now rewrite !length_map.
  - unfold torch.zeros. cbn [data]. now rewrite length_map, repeat_length.
Qed.

Lemma sqrt_positive_part_lift B K g :
  sized (numel K) g ->
  _sqrt_positive_part (lift B K g) =
  Ok (lift B K (fun k => map sqrt_positive (g k))).
Proof.
  intros Hg. rewrite sqrt_positive_part_map by now apply wf_lift.
  now rewrite map1_lift.
Qed.

Lemma size_at_last B m n x :
  torch.size_at (-1) (mkTensor (B ++ [m; n]) x) = Ok n /\
  torch.size_at (-2) (mkTensor (B ++ [m; n]) x) = Ok m.
Proof.
  unfold torch.size_at, ndim. cbn [shape]. rewrite length_app.
  cbn [length]. rewrite Nat2Z.inj_add.
  set (b := Z.of_nat (length B)).
  assert (0 <= b)%Z by (unfold b; lia).
  change (Z.of_nat 2) with 2%Z.
  split.
  - assert ((- (b + 2) <=? -1)%Z && (-1 <? b + 2)%Z = true) as ->
      by (apply andb_true_iff; split; [apply Z.leb_le | apply Z.ltb_lt]; lia).
    change (0 <=? -1)%Z with false. cbv iota.
    replace (Z.to_nat (-1 + (b + 2))) with (length B + 1)%nat
      by (unfold b; lia).
    rewrite app_nth2_plus. reflexivity.
  - assert ((- (b + 2) <=? -2)%Z && (-2 <? b + 2)%Z = true) as ->
      by (apply andb_true_iff; split; [apply Z.leb_le | apply Z.ltb_lt]; lia).
    change (0 <=? -2)%Z with false. cbv iota.
    replace (Z.to_nat (-2 + (b + 2))) with (length B + 0)%nat
      by (unfold b; lia).
    rewrite app_nth2_plus. reflexivity.
Qed.

Lemma stack4_scalars B x1 x2 x3 x4 :
  torch.stack 0
    [lift B [] (fun k => [x1 k]); lift B [] (fun k => [x2 k]);
     lift B [] (fun k => [x3 k]); lift B [] (fun k => [x4 k])] =
  Ok (lift B [4%nat] (fun k => [x1 k; x2 k; x3 k; x4 k])).
Proof.
  apply (stack_lift B [] (fun k => [x1 k])
           [fun k => [x2 k]; fun k => [x3 k]; fun k => [x4 k]]).
  - repeat constructor.
  - simpl. lia.
Qed.

Lemma stack4_rows B r1 r2 r3 r4 :
  sized 4 r1 -> sized 4 r2 -> sized 4 r3 -> sized 4 r4 ->
  torch.stack 1 [lift B [4%nat] r1; lift B [4%nat] r2; lift B [4%nat] r3;
                 lift B [4%nat] r4] =
  Ok (lift B [4; 4]%nat (fun k => r1 k ++ r2 k ++ r3 k ++ r4 k)).
Proof.
  intros H1 H2 H3 H4.
  etransitivity.
  - apply (stack_lift B [4%nat] r1 [r2; r3; r4]).
    + repeat constructor; assumption.
    + simpl. lia.
  - f_equal. apply lift_ext. intros k _. simpl. now rewrite app_nil_r.
Qed.

Lemma zipWith_const_r (f : R -> R -> R) c : forall d n,
  length d = n ->
  zipWith f d (concat (repeat [c] n)) = map (fun x => f x c) d.
Proof.
  induction d as [|x d IH]; intros n H; [now subst|].
  destruct n as [|n]; [discriminate|]. simpl. f_equal. apply IH.
  simpl in H. lia.
Qed.

(** An operation with a tensor without dimension, such as
    [torch.tensor(0.1)], is the operation with its one element. *)
Lemma map2_scalar_r f t c :
  wf t ->
  torch.map2 f t (mkTensor [] [c]) = Ok (torch.map1 (fun x => f x c) t).
Proof.
  intros W. unfold torch.map2. cbn [shape].
  assert (torch.broadcast_shapes (shape t) [] = Some (shape t)) as ->.
  { unfold torch.broadcast_shapes. cbn [rev].
    destruct (rev (shape t)) eqn:E; cbn [torch.broadcast_rev option_map].
    - rewrite <- (rev_involutive (shape t)), E. reflexivity.
    - rewrite <- E, rev_involutive. reflexivity. }
  rewrite expand_to_same by auto.
  unfold torch.expand_to, torch.pad. cbn [shape data length].
  rewrite Nat.sub_0_r, app_nil_r.
  pose proof (expand_ones [] [c] (shape t) ltac:(simpl; lia) eq_refl) as E.
  rewrite !app_nil_r in E. rewrite E.
  unfold torch.map1. f_equal. f_equal. now apply zipWith_const_r.
Qed.

Lemma new_axes_one B K g :
  torch.new_axes 1 (lift B K g) = lift B (K ++ [1%nat]) g.
Proof.
  unfold torch.new_axes, lift. cbn [shape data repeat].
  now rewrite <- app_assoc.
Qed.

Lemma argmax_from_spec l : forall pre best ibest,
  (ibest < length pre)%nat -> nth ibest pre 0 = best ->
  (forall y, In y pre -> y <= best) ->
  (torch.argmax_from best ibest (length pre) l < length (pre ++ l))%nat /\
  forall y, In y (pre ++ l) ->
    y <= nth (torch.argmax_from best ibest (length pre) l) (pre ++ l) 0.
Proof.
  induction l as [|x l IH]; intros pre best ibest Hi Hb Hmax.
  - cbn [torch.argmax_from]. rewrite app_nil_r. split; [exact Hi|].
    intros y Hy. rewrite Hb. now apply Hmax.
  - cbn [torch.argmax_from].
    replace (pre ++ x :: l) with ((pre ++ [x]) ++ l)
      by now rewrite <- app_assoc.
    replace (S (length pre)) with (length (pre ++ [x]))
      by (rewrite length_app; simpl; lia).
    destruct (Rlt_dec best x) as [Hlt|Hge].
    + apply IH.
      * rewrite length_app. simpl. lia.
      * rewrite app_nth2 by lia. now rewrite Nat.sub_diag.
      * intros y Hy. apply in_app_or in Hy. destruct Hy as [Hy|[<-|[]]].
        -- specialize (Hmax y Hy). lra.
        -- lra.
    + apply IH.
      * rewrite length_app. simpl. lia.
      * now rewrite app_nth1.
      * intros y Hy. apply in_app_or in Hy. destruct Hy as [Hy|[<-|[]]].
        -- now apply Hmax.
        -- lra.
Qed.

Lemma argmax_list_spec x l :
  (torch.argmax_list (x :: l) < length (x :: l))%nat /\
  forall y, In y (x :: l) -> y <= nth (torch.argmax_list (x :: l)) (x :: l) 0.
Proof.
  apply (argmax_from_spec l [x] x 0%nat).
  - simpl. lia.
  - reflexivity.
  - intros y [<-|[]]. lra.
Qed.

Lemma argmax_last_lift n B g :
  sized n g -> (0 < n)%nat ->
  torch.argmax_last (lift B [n] g) =
  Ok (torch.mkInt B (map (fun k => torch.argmax_list (g k))
                         (seq 0 (numel B)))).
Proof.
  intros Hg Hn. unfold torch.argmax_last.
  change (shape (lift B [n] g)) with (B ++ [n]).
  rewrite rev_app_distr. simpl rev at 1. simpl app at 1. cbv iota beta.
  assert ((n =? 0)%nat = false) as -> by (apply Nat.eqb_neq; lia).
  rewrite rev_involutive. unfold lift. cbn [data]. f_equal. f_equal.
  apply map_ext_in. intros k Hk. apply in_seq in Hk.
  now rewrite (block_flat_map n g Hg) by lia.
Qed.

(** The mask of the positions that [one_hot] marks in a row of four. *)
Lemma one_hot_mask B (a : nat -> nat) :
  (forall k, (a k < 4)%nat) ->
  exists hot,
    torch.one_hot 4 (torch.mkInt B (map a (seq 0 (numel B)))) = Ok hot /\
    torch.igt hot 0.5 =
    torch.mkBool (B ++ [4%nat])
      (flat_map (fun k => map (fun j => (a k =? j)%nat) (seq 0 4))
                (seq 0 (numel B))).
Proof.
  intros Ha. unfold torch.one_hot. cbn [torch.idata torch.ishape].
  assert (forallb (fun i => (i <? 4)%nat) (map a (seq 0 (numel B))) = true)
    as ->.
  { apply forallb_forall. intros i Hi. apply in_map_iff in Hi.
    destruct Hi as (k & <- & _). apply Nat.ltb_lt, Ha. }
  eexists. split; [reflexivity|].
  unfold torch.igt. cbn [torch.idata torch.ishape]. f_equal.
  rewrite !flat_map_concat_map, map_map, concat_map, !map_map.
  f_equal. apply map_ext. intros k. rewrite map_map.
  apply map_ext. intros j.
  destruct (a k =? j)%nat; cbn [INR];
    destruct (Rlt_dec 0.5 _) as [H|H]; try reflexivity; exfalso; lra.
Qed.

Lemma pick_app {A : Type} (m1 m2 : list bool) (l1 l2 : list A) :
  length m1 = length l1 ->
  torch.pick (m1 ++ m2) (l1 ++ l2) = torch.pick m1 l1 ++ torch.pick m2 l2.
Proof.
  revert l1. induction m1 as [|b m1 IH]; intros [|x l1] H;
    try discriminate; [reflexivity|].
  cbn [app torch.pick]. rewrite IH by (simpl in H; lia).
  now destruct b.
Qed.

Lemma pick_flat_map {A : Type} (mk : nat -> list bool)
    (rk : nat -> list A) ks :
  (forall k, length (mk k) = length (rk k)) ->
  torch.pick (flat_map mk ks) (flat_map rk ks) =
  flat_map (fun k => torch.pick (mk k) (rk k)) ks.
Proof.
  intros H. induction ks as [|k ks IH]; [reflexivity|].
  cbn [flat_map]. now rewrite pick_app, IH.
Qed.

Lemma pick_one_hot {A : Type} (R : nat -> A) a :
  (a < 4)%nat ->
  torch.pick (map (fun j => (a =? j)%nat) (seq 0 4)) (map R (seq 0 4)) =
  [R a].
Proof.
  intros H. destruct a as [|[|[|[|a]]]]; try lia; reflexivity.
Qed.

Lemma index_mask_one_hot B (a : nat -> nat) g :
  (forall k, (a k < 4)%nat) -> sized 16 g ->
  torch.index_mask
    (torch.mkBool (B ++ [4%nat])
       (flat_map (fun k => map (fun j => (a k =? j)%nat) (seq 0 4))
                 (seq 0 (numel B))))
    (lift B [4; 4]%nat g) =
  Ok (mkTensor [numel B; 4%nat]
        (flat_map (fun k => block 0 4 (g k) (a k)) (seq 0 (numel B)))).
Proof.
  intros Ha Hg. unfold torch.index_mask, ndim.
  cbn [torch.bshape torch.bdata].
  change (shape (lift B [4; 4]%nat g)) with (B ++ [4; 4]%nat).
  replace (B ++ [4; 4]%nat) with ((B ++ [4%nat]) ++ [4%nat])
    by now rewrite <- app_assoc.
  rewrite firstn_app, skipn_app, Nat.sub_diag, firstn_all, skipn_all.
  cbn [firstn skipn app]. rewrite app_nil_r, list_eqb_refl.
  assert ((length (B ++ [4%nat]) <? length ((B ++ [4%nat]) ++ [4%nat]))%nat
          = true) as ->
    by (apply Nat.ltb_lt; rewrite !length_app; simpl; lia).
  cbn [andb]. change (numel [4%nat]) with 4%nat.
  rewrite numel_app. change (numel [4%nat]) with 4%nat.
  assert (map (block 0 4 (data (lift B [4; 4]%nat g)))
              (seq 0 (numel B * 4)) =
          flat_map (fun k => map (fun j => block 0 4 (g k) j) (seq 0 4))
                   (seq 0 (numel B))) as ->.
  { rewrite <- (flat_map_singleton
                  (block 0 4 (data (lift B [4; 4]%nat g)))).
    rewrite <- flat_map_seq_mul. apply flat_map_seq_ext. intros k Hk.
    rewrite flat_map_singleton. apply map_ext_in. intros j Hj.
    apply in_seq in Hj.
    rewrite <- (block_block 4 4) by lia.
    change (4 * 4)%nat with (numel [4; 4]%nat).
    now rewrite block_lift. }
  rewrite pick_flat_map by (intro; now rewrite !length_map).
  assert (flat_map
            (fun k => torch.pick (map (fun j => (a k =? j)%nat) (seq 0 4))
                        (map (fun j => block 0 4 (g k) j) (seq 0 4)))
            (seq 0 (numel B)) =
          map (fun k => block 0 4 (g k) (a k)) (seq 0 (numel B))) as ->.
  { rewrite <- flat_map_singleton. apply flat_map_seq_ext. intros k Hk.
    now apply pick_one_hot. }
  rewrite length_map, length_seq. f_equal. f_equal.
  now rewrite <- flat_map_concat_map.
Qed.

Lemma rot_to_quat_lift B (m : nat -> nat -> nat -> R) :
  rot_to_quat (lift B [3; 3]%nat (fun k => matrix (m k))) =
  Ok (lift B [4%nat] (fun k => rot_to_q (matrix (m k)))).
Proof.
  unfold rot_to_quat.
  destruct (size_at_last B 3 3
              (data (lift B [3; 3]%nat (fun k => matrix (m k)))))
    as [E1 E2].
  change (mkTensor (B ++ [3; 3]%nat)
            (data (lift B [3; 3]%nat (fun k => matrix (m k)))))
    with (lift B [3; 3]%nat (fun k => matrix (m k))) in E1, E2.
  rewrite E1. cbn [bind Nat.eqb negb]. rewrite E2. cbn [bind Nat.eqb negb].
  change (shape (lift B [3; 3]%nat (fun k => matrix (m k))))
    with (B ++ [3; 3]%nat).
  rewrite lead2_app, (reshape_lift B [3; 3]%nat [9%nat]) by reflexivity.
  cbn [bind]. rewrite (unbind_lift 9) by first [lia | (intro; reflexivity)].
  cbn [bind seq map]. cbv iota beta.
  unfold matrix. cbn [nth].
  unfold stack.
  repeat first
    [ erewrite map2_lift by side (bc_same B)
    | rewrite map1_lift
    | rewrite stack4_scalars
    | progress cbn [bind zipWith map sequence lift1 lift2 tens] ].
  rewrite sqrt_positive_part_lift by (intro; reflexivity).
  repeat first
    [ erewrite map2_lift by side (bc_same B)
    | rewrite map1_lift
    | rewrite select_lift by first [lia | (intro; reflexivity)]
    | rewrite stack4_scalars
    | rewrite stack4_rows by (intro; reflexivity)
    | rewrite new_axes_one
    | rewrite map2_scalar_r by (apply wf_lift; intro; reflexivity)
    | progress cbn [bind zipWith map sequence lift1 lift2 tens nth app] ].
  rewrite (map2_lift_gen Rdiv B [4; 4]%nat [4; 1]%nat [4; 4]%nat)
    by first [ reflexivity | simpl; lia | (intro; reflexivity) ].
  cbn [bind].
  rewrite (argmax_last_lift 4) by first [lia | (intro; reflexivity)].
  cbn [bind].
  pose (q := fun k : nat =>
    [sqrt_positive
       (1 + m k 0%nat 0%nat + m k 1%nat 1%nat + m k 2%nat 2%nat);
     sqrt_positive
       (1 + m k 0%nat 0%nat - m k 1%nat 1%nat - m k 2%nat 2%nat);
     sqrt_positive
       (1 - m k 0%nat 0%nat + m k 1%nat 1%nat - m k 2%nat 2%nat);
     sqrt_positive
       (1 - m k 0%nat 0%nat - m k 1%nat 1%nat + m k 2%nat 2%nat)]).
  assert (forall k, (torch.argmax_list (q k) < 4)%nat) as Ha
    by (intro k; exact (proj1 (argmax_list_spec _ _))).
  destruct (one_hot_mask B (fun k => torch.argmax_list (q k)) Ha)
    as (hot & E & Eh).
  unfold q in E, Eh, Ha. rewrite E. cbn [bind]. rewrite Eh.
  cbn [bind].
  rewrite (index_mask_one_hot B (fun k => torch.argmax_list (q k)))
    by first [exact Ha | (intro; reflexivity)].
  cbn [bind]. unfold torch.reshape. cbn [shape].
  rewrite numel_app. change (numel [numel B; 4%nat]) with (numel B * numel [4%nat])%nat.
  rewrite Nat.eqb_refl. unfold lift. f_equal. f_equal.
  apply flat_map_seq_ext. intros k Hk.
  unfold rot_to_q. cbn [nth map].
  specialize (Ha k). subst q. cbv beta in Ha |- *.
  revert Ha.
  match goal with
  | |- context [torch.argmax_list ?l] => generalize (torch.argmax_list l)
  end.
  intros a Ha.
  destruct a as [|[|[|[|a]]]]; try lia; reflexivity.
Qed.

Lemma sqrt_positive_square x y :
  x = 4 * y * y -> sqrt_positive x = 2 * Rabs y.
Proof.
  intros ->. unfold sqrt_positive.
  destruct (Rlt_dec 0 (4 * y * y)) as [H|H].
  - replace (4 * y * y) with (Rsqr (2 * y)) by (unfold Rsqr; ring).
    rewrite sqrt_Rsqr_abs, Rabs_mult, (Rabs_pos_eq 2); lra.
  - assert (y = 0) as -> by nra. rewrite Rabs_R0. ring.
Qed.

Lemma Rabs_cases y : (0 <= y /\ Rabs y = y) \/ (y < 0 /\ Rabs y = - y).
Proof.
  unfold Rabs. destruct (Rcase_abs y); [right | left]; split; lra.
Qed.

Lemma rot_to_q_quat_matrix r i j k :
  r * r + i * i + j * j + k * k = 1 ->
  rot_to_q (quat_matrix [r; i; j; k]) = [r; i; j; k] \/
  rot_to_q (quat_matrix [r; i; j; k]) = map Ropp [r; i; j; k].
Proof.
  intros H. unfold quat_matrix. cbn [nth zipWith fold_left].
  replace (0 + r * r + i * i + j * j + k * k) with 1 by lra.
  replace (2 / 1) with 2 by field.
  unfold rot_to_q. cbn [nth map].
  rewrite (sqrt_positive_square _ r) by nra.
  rewrite (sqrt_positive_square _ i) by nra.
  rewrite (sqrt_positive_square _ j) by nra.
  rewrite (sqrt_positive_square _ k) by nra.
  destruct (argmax_list_spec (2 * Rabs r)
              [2 * Rabs i; 2 * Rabs j; 2 * Rabs k]) as [Ha Hmax].
  pose proof (Hmax _ (or_introl eq_refl)) as M0.
  pose proof (Hmax _ (or_intror (or_introl eq_refl))) as M1.
  pose proof (Hmax _ (or_intror (or_intror (or_introl eq_refl)))) as M2.
  pose proof (Hmax _ (or_intror (or_intror (or_intror (or_introl eq_refl)))))
    as M3.
  clear Hmax. revert Ha M0 M1 M2 M3.
  generalize (torch.argmax_list
                [2 * Rabs r; 2 * Rabs i; 2 * Rabs j; 2 * Rabs k]).
  intros a Ha M0 M1 M2 M3. cbn [length] in Ha.
  pose proof (Rabs_cases r) as Cr. pose proof (Rabs_cases i) as Ci.
  pose proof (Rabs_cases j) as Cj. pose proof (Rabs_cases k) as Ck.
  assert (r * r = Rabs r * Rabs r) as Sr by (destruct Cr as [[_ ->]|[_ ->]]; ring).
  assert (i * i = Rabs i * Rabs i) as Si by (destruct Ci as [[_ ->]|[_ ->]]; ring).
  assert (j * j = Rabs j * Rabs j) as Sj by (destruct Cj as [[_ ->]|[_ ->]]; ring).
  assert (k * k = Rabs k * Rabs k) as Sk by (destruct Ck as [[_ ->]|[_ ->]]; ring).
  pose proof (Rabs_pos r). pose proof (Rabs_pos i).
  pose proof (Rabs_pos j). pose proof (Rabs_pos k).
  destruct a as [|[|[|[|a]]]]; try lia;
    cbn [nth zipWith map] in *.
  - assert (1 / 2 <= Rabs r) as L by nra.
    rewrite (Rmax_left (2 * Rabs r) 0.1) by lra.
    destruct Cr as [[P E]|[P E]]; rewrite E in *; [left | right];
      cbn [map]; each ltac:(field; lra).
  - assert (1 / 2 <= Rabs i) as L by nra.
    rewrite (Rmax_left (2 * Rabs i) 0.1) by lra.
    destruct Ci as [[P E]|[P E]]; rewrite E in *; [left | right];
      cbn [map]; each ltac:(field; lra).
  - assert (1 / 2 <= Rabs j) as L by nra.
    rewrite (Rmax_left (2 * Rabs j) 0.1) by lra.
    destruct Cj as [[P E]|[P E]]; rewrite E in *; [left | right];
      cbn [map]; each ltac:(field; lra).
  - assert (1 / 2 <= Rabs k) as L by nra.
    rewrite (Rmax_left (2 * Rabs k) 0.1) by lra.
    destruct Ck as [[P E]|[P E]]; rewrite E in *; [left | right];
      cbn [map]; each ltac:(field; lra).
Qed.

Lemma matrix_eta (l : list R) :
  length l = 9%nat -> l = matrix (fun i j => nth (3 * i + j) l 0).
Proof.
  destruct l as [|a [|b [|c [|d [|e [|f [|g [|h [|i [|j l]]]]]]]]]];
    try discriminate. reflexivity.
Qed.

Lemma rot_to_quat_sized B g :
  sized 9 g ->
  rot_to_quat (lift B [3; 3]%nat g) =
  Ok (lift B [4%nat] (fun k => rot_to_q (g k))).
Proof.
  intros Hg.
  rewrite (lift_ext B [3; 3]%nat g
             (fun k => matrix (fun i j => nth (3 * i + j) (g k) 0)))
    by (intros k _; apply matrix_eta, Hg).
  rewrite rot_to_quat_lift. reflexivity.
Qed.

Lemma sized_rot_to_q g : sized 4 (fun k => rot_to_q (g k)).
Proof.
  intros k. unfold rot_to_q. cbn [map nth].
  match goal with
  | |- context [torch.argmax_list (?x :: ?l)] =>
      pose proof (proj1 (argmax_list_spec x l)) as Ha; revert Ha;
      generalize (torch.argmax_list (x :: l))
  end.
  intros a Ha. cbn [length] in Ha.
  destruct a as [|[|[|[|a]]]]; try lia; reflexivity.
Qed.

Lemma norm_of_4 r i j k :
  norm_of [r; i; j; k] = 1 -> r * r + i * i + j * j + k * k = 1.
Proof.
  unfold norm_of. cbn [fold_left]. intros H.
  assert (0 <= 0 + r * r + i * i + j * j + k * k) as P by nra.
  pose proof (sqrt_sqrt _ P) as Q. rewrite H in Q. lra.
Qed.

(** X29: a quaternion of norm 1 turned into a matrix by [quat_to_matrix]
    comes back from [rot_to_quat] as itself or as its opposite, which
    stands for the same rotation. *)
Theorem rot_to_quat_of_quat_to_matrix B q :
  wf q -> shape q = B ++ [4%nat] ->
  (forall k, (k < numel B)%nat -> norm_of (quat q k) = 1) ->
  exists m p,
    quat_to_matrix q = Ok m /\ rot_to_quat m = Ok p /\
    wf p /\ shape p = B ++ [4%nat] /\
    forall k, (k < numel B)%nat ->
      quat p k = quat q k \/ quat p k = map Ropp (quat q k).
Proof.
  intros W S H. rewrite (lift_of q B [4%nat] W S).
  do 2 eexists.
  split; [apply quat_to_matrix_sized, sized_block|].
  split; [apply rot_to_quat_sized; intro; reflexivity|].
  split; [apply wf_lift, sized_rot_to_q|]. split; [reflexivity|].
  intros k Hk.
  rewrite !quat_lift
    by first [exact Hk | apply sized_block | apply sized_rot_to_q].
  specialize (H k Hk). unfold quat in H.
  change (numel [4%nat]) with 4%nat.
  destruct (quat_cases (block 0 4 (data q) k) (sized_block _ _ k))
    as (r & i & j & k' & E).
  rewrite E in *. now apply rot_to_q_quat_matrix, norm_of_4.
Qed.

Lemma unit_quats_norm k :
  (k < numel [2%nat])%nat -> norm_of (quat unit_quats k) = 1.
Proof.
  intros Hk.
  assert (k = 0%nat \/ k = 1%nat) as [-> | ->] by (simpl in Hk; lia);
    cbv [unit_quats quat block data seq map nth Nat.mul Nat.add norm_of
         fold_left];
    (transitivity (sqrt 1); [f_equal; lra | apply sqrt_1]).
Qed.

Lemma rot_to_quat_of_quat_to_matrix_witness :
  wf unit_quats /\ shape unit_quats = [2%nat] ++ [4%nat] /\
  (forall k, (k < numel [2%nat])%nat -> norm_of (quat unit_quats k) = 1) /\
  exists m p,
    quat_to_matrix unit_quats = Ok m /\ rot_to_quat m = Ok p /\
    wf p /\ shape p = [2%nat] ++ [4%nat] /\
    forall k, (k < numel [2%nat])%nat ->
      quat p k = quat unit_quats k \/
      quat p k = map Ropp (quat unit_quats k).
Proof.
  split; [reflexivity|]. split; [reflexivity|].
  split; [exact unit_quats_norm|].
  apply (rot_to_quat_of_quat_to_matrix [2%nat] unit_quats);
    [reflexivity | reflexivity | exact unit_quats_norm].
Defined.

(** X28: [rot_to_quat] raises ValueError, with the shape in the message,
    for a tensor of two dimensions or more whose last two sizes are not 3
    and 3. *)
Theorem rot_to_quat_wrong_shape B m n t :
  shape t = B ++ [m; n] -> m <> 3%nat \/ n <> 3%nat ->
  rot_to_quat t =
  Raise (ValueError
           ("Invalid rotation matrix shape " ++ str_size (B ++ [m; n])
            ++ ".")%string).
Proof.
  intros S H. unfold rot_to_quat.
  destruct t as [s d]. cbn [shape] in S. subst s.
  destruct (size_at_last B m n d) as [-> E2]. cbn [bind].
  destruct (Nat.eqb_spec n 3) as [->|Hn]; cbn [negb bind].
  - rewrite E2. cbn [bind].
    destruct (Nat.eqb_spec m 3) as [->|Hm]; cbn [negb]; [|reflexivity].
    destruct H; congruence.
  - reflexivity.
Qed.

Lemma rot_to_quat_wrong_shape_witness :
  shape three_by_four = [] ++ [3; 4]%nat /\
  (3 <> 3 \/ 4 <> 3)%nat /\
  rot_to_quat three_by_four =
  Raise (ValueError "Invalid rotation matrix shape torch.Size([3, 4]).").
Proof.
  split; [reflexivity|]. split; [right; discriminate|].
  apply (rot_to_quat_wrong_shape [] 3 4 three_by_four);
    [reflexivity | right; discriminate].
Defined.
